(** * Navigation builder of intro-to-back-end-web: a shallow embedding

    This development embeds [src/utils/navigation.ts] in Rocq and checks the
    properties the specification states about it: the category extractor, the
    title formatter, the metadata reader, the sorter, the categorizer, the
    directory scanner and the expansion-state projector.

    Modelling conventions.
    - A JavaScript string is a [string]: a sequence of 8-bit characters.
      [toLowerCase] and [toUpperCase] act on the ASCII letters and leave every
      other character alone, which is what JavaScript does on ASCII text; the
      model therefore speaks about ASCII route names, titles and files.
    - A [number] holding an integer is a [Z]; floating-point rounding of
      integers beyond 2^53 is outside the model.
    - [undefined] and [null] are [None].
    - Code that can throw is written in the small exception monad [exn]; a
      [try]/[catch] block is [try_catch]. *)

From Stdlib Require Import String Ascii List ZArith Lia Bool Arith.
From Stdlib Require Import Permutation Sorted.
Import ListNotations.

Open Scope string_scope.
Open Scope list_scope.

(* ===================================================================== *)
(** ** JavaScript string primitives *)
(* ===================================================================== *)

Module JS.

(** [c.toLowerCase()] on one ASCII character. *)
Definition lower_char (c : ascii) : ascii :=
  let n := nat_of_ascii c in
  if (65 <=? n)%nat && (n <=? 90)%nat then ascii_of_nat (n + 32) else c.

(** [c.toUpperCase()] on one ASCII character. *)
Definition upper_char (c : ascii) : ascii :=
  let n := nat_of_ascii c in
  if (97 <=? n)%nat && (n <=? 122)%nat then ascii_of_nat (n - 32) else c.

(** [s.toLowerCase()] *)
Fixpoint toLowerCase (s : string) : string :=
  match s with
  | EmptyString => EmptyString
  | String c s' => String (lower_char c) (toLowerCase s')
  end.

(** [s.toUpperCase()] *)
Fixpoint toUpperCase (s : string) : string :=
  match s with
  | EmptyString => EmptyString
  | String c s' => String (upper_char c) (toUpperCase s')
  end.

(** [s.startsWith(p)] *)
Fixpoint startsWith (s p : string) {struct p} : bool :=
  match p with
  | EmptyString => true
  | String pc p' =>
      match s with
      | EmptyString => false
      | String sc s' => Ascii.eqb sc pc && startsWith s' p'
      end
  end.

(** [s.includes(t)]: [t] occurs in [s] at some position. *)
Fixpoint includes (s t : string) : bool :=
  startsWith s t ||
  match s with
  | EmptyString => false
  | String _ s' => includes s' t
  end.

(** [s.charAt(0)]: the first character as a string, or the empty string. *)
Definition charAt0 (s : string) : string :=
  match s with
  | EmptyString => EmptyString
  | String c _ => String c EmptyString
  end.

(** [s.slice(1)] *)
Definition slice1 (s : string) : string :=
  match s with
  | EmptyString => EmptyString
  | String _ s' => s'
  end.

(** First token and remaining tokens of [s.split(sep)] for a one-character
    separator. *)
Fixpoint split_tokens (sep : ascii) (s : string) : string * list string :=
  match s with
  | EmptyString => (EmptyString, [])
  | String c s' =>
      let (w, ws) := split_tokens sep s' in
      if Ascii.eqb c sep then (EmptyString, w :: ws) else (String c w, ws)
  end.

(** [s.split(sep)]: always at least one token; [''.split(sep)] is [['']]. *)
Definition split (sep : ascii) (s : string) : list string :=
  let (w, ws) := split_tokens sep s in w :: ws.

(** [parts.join(sep)] *)
Definition join (sep : string) (parts : list string) : string :=
  String.concat sep parts.

(** [arr.slice(1)] *)
Definition tail {A} (l : list A) : list A := List.tl l.

(** [arr.map((x, index, array) => f x index array)] *)
Fixpoint map_from {A B} (f : A -> nat -> B) (i : nat) (l : list A) : list B :=
  match l with
  | [] => []
  | x :: l' => f x i :: map_from f (S i) l'
  end.

Definition mapi {A B} (f : A -> nat -> list A -> B) (l : list A) : list B :=
  map_from (fun x i => f x i l) 0 l.

(** [arr.includes(x)] on an array of strings. *)
Definition array_includes (l : list string) (x : string) : bool :=
  existsb (String.eqb x) l.

(** The character [c] occurs in [s]. *)
Fixpoint has_char (c : ascii) (s : string) : bool :=
  match s with
  | EmptyString => false
  | String d s' => Ascii.eqb d c || has_char c s'
  end.

End JS.

(* ===================================================================== *)
(** ** Data model *)
(* ===================================================================== *)

(** [interface NavigationItem] *)
#[warnings="-register-all"]
Inductive NavigationItem : Type :=
  mkItem {
    title : string;
    href : string;
    children : option (list NavigationItem);
    icon : option string;
    order : option Z;
    isExpanded : option bool
  }.

(** [interface NavigationSection] *)
Record NavigationSection : Type :=
  mkSection {
    section_title : string;
    items : list NavigationItem
  }.

(** [const CATEGORY_PREFIXES] *)
Definition CATEGORY_PREFIXES : list string :=
  [ "sql"; "nosql"; "fund"; "adv"; "util"; "db"; "api"; "sec"; "perf"; "dep";
    "proj" ].

(** Result of [extractCategoryFromPath]. *)
Record Extracted : Type :=
  mkExtracted {
    category : option string;
    cleanName : string
  }.

(* ===================================================================== *)
(** ** Category extractor and title formatter *)
(* ===================================================================== *)

(** [export function extractCategoryFromPath(pathName)] *)
Definition extractCategoryFromPath (pathName : string) : Extracted :=
  let parts := JS.split "-" pathName in
  if (1 <? List.length parts)%nat then
    let firstPart := JS.toLowerCase (List.hd EmptyString parts) in
    if JS.array_includes CATEGORY_PREFIXES firstPart then
      let cleanName := JS.join "-" (JS.tail parts) in
      {| category := Some firstPart; cleanName := cleanName |}
    else
      {| category := None; cleanName := pathName |}
  else
    {| category := None; cleanName := pathName |}.

(** [const minorWords = new Set([...])] inside [toSmartTitleCase]. *)
Definition minorWords : list string :=
  [ "a"; "an"; "and"; "the"; "and"; "but"; "or"; "nor"; "as"; "at"; "by";
    "with"; "for"; "in"; "of"; "on"; "per"; "to"; "via"; "vs"; "v"; "vs.";
    "v." ].

(** [word.charAt(0).toUpperCase() + word.slice(1)] *)
Definition capitalize (word : string) : string :=
  (JS.toUpperCase (JS.charAt0 word) ++ JS.slice1 word)%string.

(** The callback given to [.map] in [toSmartTitleCase]. *)
Definition titleWord (word : string) (index : nat) (array : list string)
  : string :=
  if (index =? 0)%nat then capitalize word
  else if (index =? List.length array - 1)%nat then capitalize word
  else if JS.includes word "-" then
    JS.join "-" (List.map capitalize (JS.split "-" word))
  else if JS.array_includes minorWords word then word
  else capitalize word.

(** The guard of the first early return of [toSmartTitleCase]:
    [cleanName.startsWith("use") && !cleanName.startsWith("user")]. *)
Definition useException (cleanName : string) : bool :=
  JS.startsWith cleanName "use" && negb (JS.startsWith cleanName "user").

(** [export function toSmartTitleCase(str)] *)
Definition toSmartTitleCase (str : string) : string :=
  let cleanName := cleanName (extractCategoryFromPath str) in
  if useException cleanName then cleanName
  else if String.eqb cleanName "jQuery" then "jQuery"
  else JS.join " " (JS.mapi titleWord (JS.split "-" cleanName)).

(** [toSmartTitleCase] with the branch for tokens containing a hyphen
    removed; the comparison function of the refinement statement. *)
Definition titleWord_noHyphenBranch (word : string) (index : nat)
  (array : list string) : string :=
  if (index =? 0)%nat then capitalize word
  else if (index =? List.length array - 1)%nat then capitalize word
  else if JS.array_includes minorWords word then word
  else capitalize word.

Definition toSmartTitleCase_noHyphenBranch (str : string) : string :=
  let cleanName := cleanName (extractCategoryFromPath str) in
  if useException cleanName then cleanName
  else if String.eqb cleanName "jQuery" then "jQuery"
  else JS.join " " (JS.mapi titleWord_noHyphenBranch (JS.split "-" cleanName)).

(* ===================================================================== *)
(** ** Exceptions *)
(* ===================================================================== *)

(** A computation that returns a value or throws. *)
Inductive exn (A : Type) : Type :=
  | Ok (a : A)
  | Throw (error : string).

Arguments Ok {A} a.
Arguments Throw {A} error.

Definition exn_bind {A B} (m : exn A) (k : A -> exn B) : exn B :=
  match m with
  | Ok a => k a
  | Throw e => Throw e
  end.

(** [try { body } catch (e) { handler }] *)
Definition try_catch {A} (body : exn A) (handler : string -> exn A) : exn A :=
  match body with
  | Ok a => Ok a
  | Throw e => handler e
  end.

(* ===================================================================== *)
(** ** Metadata reader *)
(* ===================================================================== *)

(** The three regular expressions of [readMDXMetadata], written as
    backtracking matchers: a greedy quantifier first tries to consume one more
    character and falls back to its continuation, a lazy one does the reverse,
    and an unanchored pattern is tried at every start position from the left. *)
Module Regex.

(** [\s] on ASCII: tab, line feed, vertical tab, form feed, carriage
    return, space. *)
Definition isSpace (c : ascii) : bool :=
  let n := nat_of_ascii c in
  ((9 <=? n)%nat && (n <=? 13)%nat) || (n =? 32)%nat.

(** Line terminators on ASCII: line feed and carriage return; [.] matches
    everything else. *)
Definition isLineTerminator (c : ascii) : bool :=
  let n := nat_of_ascii c in (n =? 10)%nat || (n =? 13)%nat.

(** [\d] *)
Definition isDigit (c : ascii) : bool :=
  let n := nat_of_ascii c in (48 <=? n)%nat && (n <=? 57)%nat.

(** The character class of the two quote characters, double and single. *)
Definition isQuote (c : ascii) : bool :=
  let n := nat_of_ascii c in (n =? 34)%nat || (n =? 39)%nat.

Definition orElse {A} (x y : option A) : option A :=
  match x with
  | Some r => Some r
  | None => y
  end.

(** A literal: the rest of [s] after [lit], when [s] starts with [lit]. *)
Fixpoint literal (lit s : string) : option string :=
  match lit with
  | EmptyString => Some s
  | String lc lit' =>
      match s with
      | EmptyString => None
      | String sc s' => if Ascii.eqb sc lc then literal lit' s' else None
      end
  end.

(** One character of the class [cls]. *)
Definition one {A} (cls : ascii -> bool) (s : string)
  (k : ascii -> string -> option A) : option A :=
  match s with
  | EmptyString => None
  | String c s' => if cls c then k c s' else None
  end.

(** A greedy, capturing star over the class [cls]; [k captured rest]. *)
Fixpoint greedy {A} (cls : ascii -> bool) (s : string)
  (k : string -> string -> option A) : option A :=
  match s with
  | EmptyString => k EmptyString s
  | String c s' =>
      if cls c
      then orElse (greedy cls s' (fun cap rest => k (String c cap) rest))
                  (k EmptyString s)
      else k EmptyString s
  end.

(** A greedy, capturing plus over the class [cls]. *)
Definition greedy1 {A} (cls : ascii -> bool) (s : string)
  (k : string -> string -> option A) : option A :=
  one cls s (fun c s' => greedy cls s' (fun cap rest => k (String c cap) rest)).

(** [([\s\S]*?)] lazy, capturing; [k captured rest]. *)
Fixpoint lazy_any {A} (s : string) (k : string -> string -> option A)
  : option A :=
  orElse (k EmptyString s)
    match s with
    | EmptyString => None
    | String c s' => lazy_any s' (fun cap rest => k (String c cap) rest)
    end.

(** An unanchored pattern: the first start position where [m] matches. *)
Fixpoint search {A} (m : string -> option A) (s : string) : option A :=
  orElse (m s)
    match s with
    | EmptyString => None
    | String _ s' => search m s'
    end.

Definition anyChar (_ : ascii) : bool := true.
Definition dot (c : ascii) : bool := negb (isLineTerminator c).
Definition newline : string := String (ascii_of_nat 10) EmptyString.
Definition isNewline (c : ascii) : bool := (nat_of_ascii c =? 10)%nat.

(** [content.match(/^---\s*\n([\s\S]*?)\n---/)], capture group 1. *)
Definition frontmatterRegex (content : string) : option string :=
  match literal "---" content with
  | None => None
  | Some s1 =>
      greedy isSpace s1 (fun _ s2 =>
        one isNewline s2 (fun _ s3 =>
          lazy_any s3 (fun cap s4 =>
            match literal (newline ++ "---")%string s4 with
            | Some _ => Some cap
            | None => None
            end)))
  end.

(** [frontmatter.match(/title:\s*Q(.+)Q/)], capture group 1, where [Q] is
    the class of the double and the single quote. *)
Definition titleRegex (frontmatter : string) : option string :=
  search (fun s0 =>
    match literal "title:" s0 with
    | None => None
    | Some s1 =>
        greedy isSpace s1 (fun _ s2 =>
          one isQuote s2 (fun _ s3 =>
            greedy1 dot s3 (fun cap s4 =>
              one isQuote s4 (fun _ _ => Some cap))))
    end) frontmatter.

(** [frontmatter.match(/order:\s*(\d+)/)], capture group 1. *)
Definition orderRegex (frontmatter : string) : option string :=
  search (fun s0 =>
    match literal "order:" s0 with
    | None => None
    | Some s1 =>
        greedy isSpace s1 (fun _ s2 =>
          greedy1 isDigit s2 (fun cap _ => Some cap))
    end) frontmatter.

End Regex.

(** [parseInt(digits)] on a string of decimal digits: the decimal value.
    The program holds it in a double, which is this value as long as it is
    at most 2^53; above, the double is rounded. *)
Definition parseInt (digits : string) : Z :=
  (fix go (acc : Z) (s : string) : Z :=
     match s with
     | EmptyString => acc
     | String c s' => go (acc * 10 + (Z.of_nat (nat_of_ascii c) - 48))%Z s'
     end) 0%Z digits.

(** The record [{ title?: string; order?: number }]. *)
Record Metadata : Type :=
  mkMetadata {
    md_title : option string;
    md_order : option Z
  }.

(** [{}] *)
Definition emptyMetadata : Metadata :=
  {| md_title := None; md_order := None |}.

(** The body of the [try] block of [readMDXMetadata]. *)
Definition readMDXMetadata_body (windowDefined : bool)
  (readFileSync : string -> exn string) (filePath : string) : exn Metadata :=
  if windowDefined then Ok emptyMetadata
  else
    exn_bind (readFileSync filePath) (fun content =>
      let metadata :=
        match Regex.frontmatterRegex content with
        | Some frontmatter =>
            let titleMatch := Regex.titleRegex frontmatter in
            let orderMatch := Regex.orderRegex frontmatter in
            {| md_title := titleMatch;
               md_order := option_map parseInt orderMatch |}
        | None => emptyMetadata
        end in
      Ok metadata).

(** [export async function readMDXMetadata(filePath)].  [windowDefined] is
    [typeof window !== "undefined"]; [readFileSync path] is what
    [fs.readFileSync(path, "utf-8")] does in the current file-system state:
    it returns the content or throws (missing or unreadable file). *)
Definition readMDXMetadata (windowDefined : bool)
  (readFileSync : string -> exn string) (filePath : string) : exn Metadata :=
  try_catch (readMDXMetadata_body windowDefined readFileSync filePath)
            (fun _ => Ok emptyMetadata).

(* ===================================================================== *)
(** ** Categorizer *)
(* ===================================================================== *)

(** The [switch (category)] of [categorizeItem]: the section a category code
    maps to.  A code without a [case] falls out of the [switch] and the loop
    goes on to the next segment. *)
Definition sectionOfCategory (category : string) : option string :=
  if String.eqb category "sql" then Some "sql"
  else if String.eqb category "nosql" then Some "nosql"
  else if String.eqb category "db" then Some "databases"
  else if String.eqb category "api" then Some "databases"
  else if String.eqb category "fund" then Some "fundamentals"
  else if String.eqb category "proj" then Some "projects"
  else if String.eqb category "adv" then Some "advanced"
  else if String.eqb category "sec" then Some "advanced"
  else if String.eqb category "perf" then Some "advanced"
  else if String.eqb category "dep" then Some "advanced"
  else if String.eqb category "util" then Some "utilities"
  else None.

(** [path.split("/").filter((segment) => segment.length > 0)] *)
Definition pathSegments (path : string) : list string :=
  List.filter (fun segment => (0 <? String.length segment)%nat)
              (JS.split "/" path).

(** The [for (const segment of pathSegments)] loop of [categorizeItem]:
    [Some section] when the loop returns, [None] when it runs to its end. *)
Fixpoint categoryOfSegments (segments : list string) : option string :=
  match segments with
  | [] => None
  | segment :: rest =>
      match category (extractCategoryFromPath segment) with
      | Some category =>
          (* a non-empty string is truthy; the empty one is not *)
          if String.eqb category "" then categoryOfSegments rest
          else
            match sectionOfCategory category with
            | Some section => Some section
            | None => categoryOfSegments rest
            end
      | None => categoryOfSegments rest
      end
  end.

(** The keyword batteries of [categorizeItem] for an item with children. *)
Definition keywordsWithChildren (path title : string) : option string :=
  let p := JS.includes path in
  let t := JS.includes title in
  if p "docker" || p "kubernetes" || p "deployment-strategies" ||
     t "docker" || t "kubernetes" || t "deployment"
  then Some "advanced"
  else if p "mysql" || p "postgresql" || p "sqlite" || p "sql" ||
          t "mysql" || t "postgresql" || t "sqlite" || t "sql"
  then Some "sql"
  else if p "mongodb" || p "redis" || p "nosql" || p "cassandra" ||
          p "dynamodb" ||
          t "mongodb" || t "redis" || t "nosql" || t "cassandra" ||
          t "dynamodb"
  then Some "nosql"
  else if p "database" || p "environment-setup" || p "managers" ||
          p "version" || p "transaction-models" || p "data" || p "graphql" ||
          t "database" || t "databases" || t "managers" || t "environment" ||
          t "version" || t "transaction" || t "data" || t "graphql"
  then Some "databases"
  else None.

(** The final [if]/[else if] cascade of [categorizeItem]. *)
Definition keywordsForPage (path title : string) : string :=
  let p := JS.includes path in
  let t := JS.includes title in
  if p "package-managers" || p "version-control" || p "foundation" ||
     (p "setup" && negb (p "environment-setup")) ||
     p "back-end" || p "vocabulary" || p "abbreviations"
  then "fundamentals"
  else if p "mysql" || p "postgresql" || p "sqlite" || p "sql" ||
          t "mysql" || t "postgresql" || t "sqlite" || t "sql"
  then "sql"
  else if p "mongodb" || p "redis" || p "nosql" || p "cassandra" ||
          p "dynamodb" ||
          t "mongodb" || t "redis" || t "nosql" || t "cassandra" ||
          t "dynamodb"
  then "nosql"
  else if p "docker" || p "kubernetes" || p "advanced" || p "principles" ||
          p "quality-security-performance" || p "deployment-strategies" ||
          t "docker" || t "principles" || t "advanced" || t "security" ||
          t "kubernetes" || t "deployment"
  then "advanced"
  else if p "seo-accessibility" || p "introduction-to-html" ||
          p "environment-setup" || p "introduction-to-javascript" ||
          p "document-object-model" || p "forms" || p "jquery" ||
          p "documentation-and-learning-platforms" ||
          t "html" || t "css" || t "javascript" || t "seo" ||
          t "environment" || t "dom" || t "forms" || t "jquery" ||
          t "documentation" || t "learning platforms"
  then "databases"
  else if p "utilities-tools" || p "resources-utilities" ||
          p "helper-functions" || p "development-tools" ||
          p "utility-libraries" ||
          t "utilities" || t "utility" || t "helper" || t "tools" ||
          t "platforms"
  then "utilities"
  else "fundamentals".

(** [item.children && item.children.length > 0] *)
Definition hasChildren (item : NavigationItem) : bool :=
  match children item with
  | Some cs => (0 <? List.length cs)%nat
  | None => false
  end.

(** [function categorizeItem(item)], the helper inside
    [categorizeNavigationItems]. *)
Definition categorizeItem (item : NavigationItem) : string :=
  let path := JS.toLowerCase (href item) in
  let title := JS.toLowerCase (title item) in
  match categoryOfSegments (pathSegments path) with
  | Some section => section
  | None =>
      match (if hasChildren item then keywordsWithChildren path title
             else None) with
      | Some section => section
      | None => keywordsForPage path title
      end
  end.

(** The object [categories]: one array per section key. *)
Record Categories : Type :=
  mkCategories {
    fundamentals : list NavigationItem;
    sql : list NavigationItem;
    nosql : list NavigationItem;
    databases : list NavigationItem;
    projects : list NavigationItem;
    utilities : list NavigationItem;
    advanced : list NavigationItem
  }.

Definition emptyCategories : Categories :=
  mkCategories [] [] [] [] [] [] [].

(** [categories[key].push(item)]: throws a [TypeError] when [key] is not a
    property of [categories]. *)
Definition pushCategory (key : string) (item : NavigationItem)
  (c : Categories) : exn Categories :=
  let 'mkCategories f s n d p u a := c in
  if String.eqb key "fundamentals" then Ok (mkCategories (f ++ [item]) s n d p u a)
  else if String.eqb key "sql" then Ok (mkCategories f (s ++ [item]) n d p u a)
  else if String.eqb key "nosql" then Ok (mkCategories f s (n ++ [item]) d p u a)
  else if String.eqb key "databases" then Ok (mkCategories f s n (d ++ [item]) p u a)
  else if String.eqb key "projects" then Ok (mkCategories f s n d (p ++ [item]) u a)
  else if String.eqb key "utilities" then Ok (mkCategories f s n d p (u ++ [item]) a)
  else if String.eqb key "advanced" then Ok (mkCategories f s n d p u (a ++ [item]))
  else Throw "TypeError".

(** [items.forEach((item) => { ... push ... })] *)
Fixpoint categorizeAll (items : list NavigationItem) (c : Categories)
  : exn Categories :=
  match items with
  | [] => Ok c
  | item :: rest =>
      exn_bind (pushCategory (categorizeItem item) item c) (categorizeAll rest)
  end.

(** [if (arr.length > 0) sections.push({ title, items: arr })] *)
Definition pushSection (title : string) (arr : list NavigationItem)
  (sections : list NavigationSection) : list NavigationSection :=
  if (0 <? List.length arr)%nat
  then sections ++ [ {| section_title := title; items := arr |} ]
  else sections.

(** The tail of [categorizeNavigationItems]: the sections in their fixed
    order, the empty ones left out. *)
Definition sectionsOf (c : Categories) : list NavigationSection :=
  let sections := [] in
  let sections := pushSection "Fundamentals" (fundamentals c) sections in
  let sections := pushSection "SQL" (sql c) sections in
  let sections := pushSection "NoSQL" (nosql c) sections in
  let sections := pushSection "Databases" (databases c) sections in
  let sections := pushSection "Projects" (projects c) sections in
  let sections := pushSection "Utilities & Tools" (utilities c) sections in
  let sections := pushSection "Advanced Topics" (advanced c) sections in
  sections.

(** [function categorizeNavigationItems(items)] *)
Definition categorizeNavigationItems (items : list NavigationItem)
  : exn (list NavigationSection) :=
  exn_bind (categorizeAll items emptyCategories) (fun c => Ok (sectionsOf c)).

(** The display title of the section a key of [categories] is emitted under. *)
Definition sectionTitleOfKey (key : string) : string :=
  if String.eqb key "fundamentals" then "Fundamentals"
  else if String.eqb key "sql" then "SQL"
  else if String.eqb key "nosql" then "NoSQL"
  else if String.eqb key "databases" then "Databases"
  else if String.eqb key "projects" then "Projects"
  else if String.eqb key "utilities" then "Utilities & Tools"
  else if String.eqb key "advanced" then "Advanced Topics"
  else "".

(* ===================================================================== *)
(** ** Sorter *)
(* ===================================================================== *)

(** [function getPriority(title)] *)
Definition getPriority (title : string) : Z :=
  let normalizedTitle := JS.toLowerCase title in
  let has := JS.includes normalizedTitle in
  if has "abbreviations" || has "vocabulary" || has "acronyms" then 1
  else if has "setting up" || has "set up" || has "selection" ||
          has "starter" || has "fundamentals" || has "setup" then 2
  else if has "getting started" || has "project structure" then 3
  else if has "introduction" || has "foundation" || has "intro" then 4
  else if has "security" || has "performance" then 999
  else if has "bonus" || has "libraries" || has "optional" ||
          has "frameworks" then 9999
  else 99.

(** [Array.prototype.sort(compare)].  ECMAScript requires the sort to be
    stable, and for a consistent comparator the result is then the one
    sorted permutation that keeps equal elements in their input order;
    stable insertion computes it.  [compare a b <= 0] keeps [a] before [b]. *)
Section ArraySort.
Context {A : Type}.
Variable compare : A -> A -> Z.

Fixpoint sort_insert (x : A) (l : list A) : list A :=
  match l with
  | [] => [x]
  | y :: l' =>
      if (compare x y <=? 0)%Z then x :: y :: l'
      else y :: sort_insert x l'
  end.

Fixpoint array_sort (l : list A) : list A :=
  match l with
  | [] => []
  | x :: l' => sort_insert x (array_sort l')
  end.

(** [a] may stay before [b]. *)
Definition keeps (a b : A) : Prop := (compare a b <= 0)%Z.
End ArraySort.

(** Ascending order of a numeric key. *)
Definition key_le_rel {A} (key : A -> Z) (a b : A) : Prop :=
  (key a <= key b)%Z.

Section Sorter.
(** [a.localeCompare(b)]: the collation of the host locale, a parameter of
    the model.  ECMAScript requires it to be a consistent comparator. *)
Variable localeCompare : string -> string -> Z.

(** The comparator given to [items.sort] in [sortNavigationItems]. *)
Definition compareItems (a b : NavigationItem) : Z :=
  let priorityA := getPriority (title a) in
  let priorityB := getPriority (title b) in
  if negb (priorityA =? 999)%Z || negb (priorityB =? 999)%Z
  then (priorityA - priorityB)%Z
  else
    match order a, order b with
    | Some oa, Some ob => (oa - ob)%Z
    | Some _, None => (-1)%Z
    | None, Some _ => 1%Z
    | None, None => localeCompare (title a) (title b)
    end.

(** [function sortNavigationItems(items)] *)
Definition sortNavigationItems (items : list NavigationItem)
  : list NavigationItem :=
  array_sort compareItems items.
End Sorter.

(** Code-unit comparison of strings as a comparator: an instance of
    [localeCompare] to evaluate the sorter with. *)
Definition codeUnitCompare (a b : string) : Z :=
  match String.compare a b with
  | Lt => (-1)%Z
  | Eq => 0%Z
  | Gt => 1%Z
  end.

(* ===================================================================== *)
(** ** Directory scanner *)
(* ===================================================================== *)

(** The content tree on disk.  A file has a content, or cannot be read.  A
    directory has its entries in the order [fs.readdirSync] lists them, and
    a flag telling whether listing it succeeds (a directory may be
    traversable, so that [fs.existsSync] sees its files, and still not
    listable). *)
#[warnings="-register-all"]
Inductive FsNode : Type :=
  | FsFile (content : option string)
  | FsDir (listable : bool) (entries : list (string * FsNode)).

(** The entry called [name] of a directory. *)
Definition lookupEntry (dir : FsNode) (name : string) : option FsNode :=
  match dir with
  | FsFile _ => None
  | FsDir _ entries =>
      option_map snd (List.find (fun e => String.eqb (fst e) name) entries)
  end.

(** [fs.existsSync(path.join(dir, name))] *)
Definition existsSync (dir : FsNode) (name : string) : bool :=
  match lookupEntry dir name with
  | Some _ => true
  | None => false
  end.

(** [fs.readFileSync(path.join(dir, name), "utf-8")] *)
Definition readFileSync (dir : FsNode) (name : string) : exn string :=
  match lookupEntry dir name with
  | Some (FsFile (Some content)) => Ok content
  | Some (FsFile None) => Throw "EACCES"
  | Some (FsDir _ _) => Throw "EISDIR"
  | None => Throw "ENOENT"
  end.

(** [fs.readdirSync(dir, { withFileTypes: true })] *)
Definition readdirSync (dir : FsNode) : exn (list (string * FsNode)) :=
  match dir with
  | FsFile _ => Throw "ENOTDIR"
  | FsDir true entries => Ok entries
  | FsDir false _ => Throw "EACCES"
  end.

(** [entry.isDirectory()] *)
Definition isDirectory (node : FsNode) : bool :=
  match node with
  | FsDir _ _ => true
  | FsFile _ => false
  end.

(** [path.join(a, b)] for a directory path and an entry name. *)
Definition joinPath (a b : string) : string := (a ++ "/" ++ b)%string.

(** Computations of the scanner: they write lines to [console.error] and
    may throw; the lines written before a throw stay written. *)
Definition Console : Type := list string.
Definition scan (A : Type) : Type := Console -> exn A * Console.

Definition scan_ret {A} (a : A) : scan A := fun log => (Ok a, log).

Definition scan_bind {A B} (m : scan A) (k : A -> scan B) : scan B :=
  fun log =>
    match m log with
    | (Ok a, log') => k a log'
    | (Throw e, log') => (Throw e, log')
    end.

Definition scan_lift {A} (m : exn A) : scan A := fun log => (m, log).

Definition scan_try {A} (body : scan A) (handler : string -> scan A) : scan A :=
  fun log =>
    match body log with
    | (Ok a, log') => (Ok a, log')
    | (Throw e, log') => handler e log'
    end.

(** [console.error("Error scanning directory:", dirPath, error)] *)
Definition console_error (dirPath error : string) : scan unit :=
  fun log =>
    (Ok tt, log ++ [("Error scanning directory: " ++ dirPath ++ " " ++ error)%string]).

Declare Scope scan_scope.
Delimit Scope scan_scope with scan.
Notation "x <- m ;; k" := (scan_bind m (fun x => k))
  (at level 61, m at next level, right associativity) : scan_scope.

(** [const pageFiles = ["page.tsx", "page.mdx", "page.js"]] *)
Definition pageFiles : list string := [ "page.tsx"; "page.mdx"; "page.js" ].

(** The entries the loop of [scanDirectory] skips at once. *)
Definition skippedEntry (name : string) : bool :=
  JS.startsWith name "." || String.eqb name "globals.css" ||
  String.eqb name "favicon.ico" || String.eqb name "layout.tsx".

(** [a || b] on an optional string and a string: the empty string is falsy. *)
Definition orString (a : option string) (b : string) : string :=
  match a with
  | Some s => if String.eqb s "" then b else s
  | None => b
  end.

Section Scanner.
Variable localeCompare : string -> string -> Z.
(** [typeof window !== "undefined"] *)
Variable windowDefined : bool.

(** What one directory entry adds to [items], given the items
    [scanDirectory] returned for it. *)
Definition itemsOfDirectory (name fullPath routePath : string) (node : FsNode)
  (children : list NavigationItem) : scan (list NavigationItem) :=
  let hasPage := List.existsb (existsSync node) pageFiles in
  if hasPage then
    match List.find (existsSync node) pageFiles with
    | None => scan_lift (Throw "TypeError") (* [path.join(fullPath, undefined)] *)
    | Some pageFile =>
        (metadata <- scan_lift
           (readMDXMetadata windowDefined (fun _ => readFileSync node pageFile)
              (joinPath fullPath pageFile)) ;;
         let item :=
           {| title := orString (md_title metadata) (toSmartTitleCase name);
              href := if String.eqb routePath "/page" then "/" else routePath;
              children :=
                if (0 <? List.length children)%nat
                then Some (sortNavigationItems localeCompare children)
                else None;
              icon := None;
              order := md_order metadata;
              isExpanded := None |} in
         scan_ret [item])%scan
    end
  else
    if (0 <? List.length children)%nat then
      scan_ret
        [ {| title := toSmartTitleCase name;
             href := routePath;
             children := Some (sortNavigationItems localeCompare children);
             icon := None;
             order := None;
             isExpanded := None |} ]
    else scan_ret [].

(** The [for (const entry of entries)] loop of [scanDirectory], for the
    directory [dirPath] with route [basePath]; [scanDir] is the recursive
    call and [items] the array built so far. *)
Section Loop.
Variable scanDir : FsNode -> string -> string -> scan (list NavigationItem).
Variables dirPath basePath : string.

Fixpoint scanEntries (entries : list (string * FsNode))
  (items : list NavigationItem) {struct entries}
  : scan (list NavigationItem) :=
  match entries with
  | [] => scan_ret items
  | (name, node) :: rest =>
    if skippedEntry name then scanEntries rest items
    else
      let fullPath := joinPath dirPath name in
      let routePath := (basePath ++ "/" ++ name)%string in
      if isDirectory node then
        (children <- scanDir node fullPath routePath ;;
         added <- itemsOfDirectory name fullPath routePath node children ;;
         scanEntries rest (items ++ added))%scan
      else
        (* a file: [page.mdx] and [page.tsx] are skipped, and nothing is
           done for any other file *)
        scanEntries rest items
  end.
End Loop.

(** [async function scanDirectory(dirPath, basePath)]; [dir] is the node
    [dirPath] denotes. *)
Fixpoint scanDirectory (dir : FsNode) (dirPath basePath : string)
  {struct dir} : scan (list NavigationItem) :=
  scan_try
    match dir with
    | FsFile _ => scan_lift (Throw "ENOTDIR")
    | FsDir listable entries =>
        if listable then
          (items <- scanEntries scanDirectory dirPath basePath entries [] ;;
           scan_ret (sortNavigationItems localeCompare items))%scan
        else scan_lift (Throw "EACCES")
    end
    (fun error =>
       (_ <- console_error dirPath error ;; scan_ret [])%scan).

End Scanner.

(* ===================================================================== *)
(** ** Expansion-state projector *)
(* ===================================================================== *)

(** [function isPathInSubtree(currentPath, item)] *)
Fixpoint isPathInSubtree (currentPath : string) (item : NavigationItem)
  : bool :=
  match item with
  | mkItem _ href children _ _ _ =>
      if String.eqb currentPath href then true
      else if JS.startsWith currentPath (href ++ "/")%string then true
      else
        match children with
        | Some cs => List.existsb (isPathInSubtree currentPath) cs
        | None => false
        end
  end.

(** [function setItemExpandedState(item, currentPath)] *)
Fixpoint setItemExpandedState (item : NavigationItem) (currentPath : string)
  : NavigationItem :=
  let shouldExpand := isPathInSubtree currentPath item in
  match item with
  | mkItem title href children icon order _ =>
      mkItem title href
        match children with
        | Some cs =>
            Some (List.map (fun child => setItemExpandedState child currentPath) cs)
        | None => None
        end
        icon order (Some shouldExpand)
  end.

(** The normalisation at the head of [setExpandedState]. *)
Definition normalizePath (currentPath : string) : string :=
  if JS.startsWith currentPath "/" then currentPath
  else ("/" ++ currentPath)%string.

(** [export function setExpandedState(sections, currentPath)] *)
Definition setExpandedState (sections : list NavigationSection)
  (currentPath : string) : list NavigationSection :=
  let normalizedPath := normalizePath currentPath in
  List.map
    (fun section =>
       {| section_title := section_title section;
          items :=
            List.map (fun item => setItemExpandedState item normalizedPath)
                     (items section) |})
    sections.

(* ===================================================================== *)
(** ** Sample inputs *)
(* ===================================================================== *)

(** A leaf page with a title, a route and an optional rank. *)
Definition page (title href : string) (order : option Z) : NavigationItem :=
  {| title := title; href := href; children := None; icon := None;
     order := order; isExpanded := None |}.

(** A node with children. *)
Definition group (title href : string) (children : list NavigationItem)
  : NavigationItem :=
  {| title := title; href := href; children := Some children; icon := None;
     order := None; isExpanded := None |}.

(** The priority bucket of an item. *)
Definition priorityOf (item : NavigationItem) : Z := getPriority (title item).

(* ===================================================================== *)
(** ** The partition the categorizer is specified to compute *)
(* ===================================================================== *)

(** The keys of [categories], in the order the sections are emitted. *)
Definition sectionKeys : list string :=
  [ "fundamentals"; "sql"; "nosql"; "databases"; "projects"; "utilities";
    "advanced" ].

(** The input items assigned to [key], in input order. *)
Definition assignedTo (key : string) (input : list NavigationItem)
  : list NavigationItem :=
  List.filter (fun item => String.eqb (categorizeItem item) key) input.

(** The section of [key] over [input]. *)
Definition sectionFor (input : list NavigationItem) (key : string)
  : NavigationSection :=
  {| section_title := sectionTitleOfKey key; items := assignedTo key input |}.

(** The sections in canonical order, without the empty ones. *)
Definition partitionSections (input : list NavigationItem)
  : list NavigationSection :=
  List.filter (fun s => (0 <? List.length (items s))%nat)
              (List.map (sectionFor input) sectionKeys).


(* ===================================================================== *)
(** ** The expansion rule, as the specification words it *)
(* ===================================================================== *)

(** A node and all its descendants, the node first. *)
Fixpoint nodes (item : NavigationItem) : list NavigationItem :=
  match item with
  | mkItem _ _ children _ _ _ =>
      item :: match children with
              | Some cs => List.flat_map nodes cs
              | None => []
              end
  end.

(** The descendants of a node. *)
Definition descendants (item : NavigationItem) : list NavigationItem :=
  List.tl (nodes item).

(** All nodes of a sectioned navigation. *)
Definition allNodes (sections : list NavigationSection) : list NavigationItem :=
  List.flat_map (fun s => List.flat_map nodes (items s)) sections.

(** The route of [item] is the location, or the route followed by a slash
    is a prefix of the location. *)
Definition onPath (location : string) (item : NavigationItem) : Prop :=
  href item = location \/
  exists rest, location = (href item ++ "/" ++ rest)%string.

(** The node is on the path of the location, or one of its descendants is. *)
Definition shouldExpand (location : string) (item : NavigationItem) : Prop :=
  onPath location item \/
  exists d, In d (descendants item) /\ onPath location d.


(* ===================================================================== *)
(** ** Observations on a scan *)
(* ===================================================================== *)

(** The items a scan returns when started on an empty console (nothing when
    it throws). *)
Definition outcome {A} (m : scan (list A)) : list A :=
  match fst (m []) with
  | Ok l => l
  | Throw _ => []
  end.

(** The lines a scan writes when started on an empty console. *)
Definition written {A} (m : scan A) : Console := snd (m []).

(** A scan that returns its outcome on every console and only appends its
    lines to it: it never throws and what it returns does not depend on
    what was written before. *)
Definition steady {A} (m : scan (list A)) : Prop :=
  forall log, m log = (Ok (outcome m), log ++ written m).

(** A node with nothing below it: a file is kept, a directory becomes an
    empty directory that can be listed. *)
Definition emptiedNode (node : FsNode) : FsNode :=
  match node with
  | FsFile content => FsFile content
  | FsDir _ _ => FsDir true []
  end.

(** The entries of a directory without the content of its sub-directories;
    the names and the files, and so the page files, stay. *)
Definition emptied (entries : list (string * FsNode))
  : list (string * FsNode) :=
  List.map (fun '(name, node) => (name, emptiedNode node)) entries.

(** The tree in which every directory that cannot be listed is replaced by
    the same directory, listable, with nothing below its sub-directories:
    the tree as it would be if the failing subtrees were absent. *)
Fixpoint heal (dir : FsNode) : FsNode :=
  match dir with
  | FsFile content => FsFile content
  | FsDir true entries =>
      FsDir true (List.map (fun '(name, node) => (name, heal node)) entries)
  | FsDir false entries => FsDir true (emptied entries)
  end.

(** The property an induction over the tree carries: on every console the
    scan of a node returns the same items and appends its lines, and the
    scan of the healed node returns these items too. *)
Definition frames (localeCompare : string -> string -> Z)
  (windowDefined : bool) (node : FsNode) : Prop :=
  forall dirPath basePath,
  exists items extra extra',
    (forall log,
        scanDirectory localeCompare windowDefined node dirPath basePath log
        = (Ok items, log ++ extra)) /\
    (forall log,
        scanDirectory localeCompare windowDefined (heal node) dirPath basePath log
        = (Ok items, log ++ extra')).

(** A front-matter block and its pieces, for the examples. *)
Definition nl : string := Regex.newline.
Definition dq : string := String (ascii_of_nat 34) EmptyString.
Definition sampleFile : string :=
  ("---" ++ nl ++ "title: " ++ dq ++ "Custom Name" ++ dq ++ nl
   ++ "order: 2" ++ nl ++ "---" ++ nl ++ "# Heading" ++ nl)%string.

(** The tree of the scenario of the specification: [fund-intro] and
    [db-storage] with a page each, and [db-storage/sub-topic] with a page. *)
Definition pageTsx : string * FsNode := ("page.tsx", FsFile (Some "export default Page")).
Definition sampleTree : FsNode :=
  FsDir true
    [ ("layout.tsx", FsFile (Some ""));
      ("fund-intro", FsDir true [ pageTsx ]);
      ("db-storage",
       FsDir true [ pageTsx; ("sub-topic", FsDir true [ pageTsx ]) ]) ].

(** The same tree with [db-storage] not listable. *)
Definition brokenTree : FsNode :=
  FsDir true
    [ ("layout.tsx", FsFile (Some ""));
      ("fund-intro", FsDir true [ pageTsx ]);
      ("db-storage",
       FsDir false [ pageTsx; ("sub-topic", FsDir true [ pageTsx ]) ]) ].


(* ===================================================================== *)
(** ** Further observations *)
(* ===================================================================== *)

(** A string with each hyphen replaced by a space. *)
Fixpoint hyphensToSpaces (s : string) : string :=
  match s with
  | EmptyString => EmptyString
  | String c s' =>
      String (if Ascii.eqb c "-" then " "%char else c) (hyphensToSpaces s')
  end.

(** The order the tie-break of the sorter puts on explicit ranks: a smaller
    rank first, and an item with a rank before an item without. *)
Definition orderBefore (a b : NavigationItem) : Prop :=
  match order a, order b with
  | Some oa, Some ob => (oa <= ob)%Z
  | Some _, None => True
  | None, Some _ => False
  | None, None => True
  end.

(** [a] may be displayed before [b]: a lower bucket, or the same bucket and,
    in the bucket of priority 999, ranks in order. *)
Definition displayBefore (a b : NavigationItem) : Prop :=
  (priorityOf a < priorityOf b)%Z \/
  (priorityOf a = priorityOf b /\
   (priorityOf a = 999%Z -> orderBefore a b)).

(** The items of the bucket of priority [p]. *)
Definition bucket (p : Z) (l : list NavigationItem) : list NavigationItem :=
  List.filter (fun a => (priorityOf a =? p)%Z) l.

(** [export function getClientSideNavigation(currentPath?)]; [fallbackNav]
    is the constant imported from [./fallback].  An absent path and the
    empty path are falsy. *)
Definition getClientSideNavigation (fallbackNav : list NavigationSection)
  (currentPath : option string) : list NavigationSection :=
  match currentPath with
  | Some p =>
      if String.eqb p "" then fallbackNav else setExpandedState fallbackNav p
  | None => fallbackNav
  end.

(** Every character of [s] is in the class [cls]. *)
Fixpoint allChars (cls : ascii -> bool) (s : string) : bool :=
  match s with
  | EmptyString => true
  | String c s' => cls c && allChars cls s'
  end.

(** [export async function buildNavigationFromFileSystem()].
    [windowDefined] is [typeof window !== "undefined"], [fallbackNav] the
    constant imported from [./fallback], [cwd] is what [process.cwd()] does
    (it returns the working directory, or throws when that directory is
    gone; the call is inside the [try]) and [appDir] the node that
    [path.join(process.cwd(), "src/app")] denotes. *)
Definition buildNavigationFromFileSystem
  (localeCompare : string -> string -> Z) (windowDefined : bool)
  (fallbackNav : list NavigationSection) (cwd : exn string) (appDir : FsNode)
  : scan (list NavigationSection) :=
  if windowDefined then scan_ret fallbackNav
  else
    scan_try
      (cwdPath <- scan_lift cwd ;;
       navigationItems <-
         scanDirectory localeCompare windowDefined appDir
           (joinPath cwdPath "src/app") "" ;;
       sections <- scan_lift (categorizeNavigationItems navigationItems) ;;
       scan_ret sections)%scan
      (fun _ => scan_ret fallbackNav).

(** What one entry of the directory [dirPath] with route [basePath] adds to
    the items of the directory: nothing for a skipped entry and for a file,
    and for a sub-directory what [itemsOfDirectory] returns for the items
    of its scan. *)
Definition entryItems (localeCompare : string -> string -> Z)
  (windowDefined : bool) (dirPath basePath : string) (e : string * FsNode)
  : list NavigationItem :=
  let '(name, node) := e in
  if skippedEntry name || negb (isDirectory node) then []
  else
    outcome
      (itemsOfDirectory localeCompare windowDefined name
         (joinPath dirPath name) (basePath ++ "/" ++ name)%string node
         (outcome
            (scanDirectory localeCompare windowDefined node
               (joinPath dirPath name) (basePath ++ "/" ++ name)%string))).

(** The lines the scan of one entry writes. *)
Definition entryLines (localeCompare : string -> string -> Z)
  (windowDefined : bool) (dirPath basePath : string) (e : string * FsNode)
  : Console :=
  let '(name, node) := e in
  if skippedEntry name || negb (isDirectory node) then []
  else
    written
      (scanDirectory localeCompare windowDefined node
         (joinPath dirPath name) (basePath ++ "/" ++ name)%string).

(** Every directory of the tree can be listed. *)
Fixpoint listableTree (node : FsNode) : bool :=
  match node with
  | FsFile _ => true
  | FsDir listable entries =>
      listable && List.forallb (fun '(_, sub) => listableTree sub) entries
  end.

(** All nodes of a list of items. *)
Definition nodesOf (l : list NavigationItem) : list NavigationItem :=
  List.flat_map nodes l.

(** The number of slashes of a string. *)
Fixpoint slashes (s : string) : nat :=
  match s with
  | EmptyString => 0
  | String c s' => (if Ascii.eqb c "/" then 1 else 0) + slashes s'
  end.

(** The route of a node scanned under [basePath]: the node is at
    [basePath/rest], and its route is that path, or the site root when the
    path is "/page". *)
Definition routedUnder (basePath : string) (n : NavigationItem) : Prop :=
  exists rest,
    href n = (basePath ++ "/" ++ rest)%string \/
    ((basePath ++ "/" ++ rest)%string = "/page" /\ href n = "/").

(** Two directories for the examples: one with [page.tsx] alone, one that
    also has a [page.mdx] with front matter. *)
Definition dirWithTsx : FsNode :=
  FsDir true [ ("page.tsx", FsFile (Some "export default Page")) ].
Definition dirWithTsxAndMdx : FsNode :=
  FsDir true [ ("page.mdx", FsFile (Some sampleFile));
               ("page.tsx", FsFile (Some "export default Page")) ].


(* ===================================================================== *)
(** ** The buckets of the sorter, by the keywords of the title *)
(* ===================================================================== *)

(** The keywords [getPriority] tests, by the priority they give. *)
Definition keywords1 : list string :=
  [ "abbreviations"; "vocabulary"; "acronyms" ].
Definition keywords2 : list string :=
  [ "setting up"; "set up"; "selection"; "starter"; "fundamentals"; "setup" ].
Definition keywords3 : list string :=
  [ "getting started"; "project structure" ].
Definition keywords4 : list string :=
  [ "introduction"; "foundation"; "intro" ].
Definition keywords999 : list string := [ "security"; "performance" ].
Definition keywords9999 : list string :=
  [ "bonus"; "libraries"; "optional"; "frameworks" ].

(** The keywords tested before those of the bottom bucket. *)
Definition earlierKeywords : list string :=
  keywords1 ++ keywords2 ++ keywords3 ++ keywords4 ++ keywords999.

(** All priority keywords. *)
Definition priorityKeywords : list string := earlierKeywords ++ keywords9999.

(** The title contains one of the keywords, in any letter case. *)
Definition mentions (keywords : list string) (title : string) : bool :=
  List.existsb (JS.includes (JS.toLowerCase title)) keywords.

(** The location [setExpandedState] compares the routes with: the current
    path, with a slash put in front when it does not start with one. *)
Definition normalizedLocation (currentPath : string) : string :=
  if JS.startsWith currentPath "/" then currentPath
  else String "/" currentPath.

(** The [isExpanded] marks of the items of each section. *)
Definition marks (sections : list NavigationSection)
  : list (list (option bool)) :=
  List.map (fun s => List.map isExpanded (items s)) sections.

(** A string of ASCII characters (codes below 128), on which the case
    mappings of the model are those of JavaScript. *)
Definition isAscii (s : string) : bool :=
  allChars (fun c => (nat_of_ascii c <? 128)%nat) s.

(** A tree with a directory [guides] without page file whose only entry,
    [db-broken], has a page file and cannot be listed; and the same tree
    without [db-broken]. *)
Definition guidesTree : FsNode :=
  FsDir true
    [ ("fund-intro", FsDir true [ pageTsx ]);
      ("guides", FsDir true [ ("db-broken", FsDir false [ pageTsx ]) ]) ].
Definition guidesTreeWithout : FsNode :=
  FsDir true
    [ ("fund-intro", FsDir true [ pageTsx ]);
      ("guides", FsDir true []) ].

(* ===================================================================== *)
(** * Properties *)
(* ===================================================================== *)

(** ** Characters and strings *)

Ltac ascii_cases c :=
  destruct c as [[] [] [] [] [] [] [] []]; vm_compute; try reflexivity;
  try discriminate; auto.

Lemma upper_char_idem c : JS.upper_char (JS.upper_char c) = JS.upper_char c.
Proof. ascii_cases c. Qed.

Lemma upper_char_hyphen c :
  Ascii.eqb (JS.upper_char c) "-" = Ascii.eqb c "-".
Proof. ascii_cases c. Qed.

Lemma lower_char_hyphen c :
  Ascii.eqb (JS.lower_char c) "-" = Ascii.eqb c "-".
Proof. ascii_cases c. Qed.

Lemma lower_char_slash c :
  Ascii.eqb (JS.lower_char c) "/" = Ascii.eqb c "/".
Proof. ascii_cases c. Qed.

Lemma lower_char_idem c : JS.lower_char (JS.lower_char c) = JS.lower_char c.
Proof. ascii_cases c. Qed.

Lemma has_char_app c (a b : string) :
  JS.has_char c (a ++ b)%string = JS.has_char c a || JS.has_char c b.
Proof.
  induction a as [|d a IH]; simpl; [reflexivity|].
  now rewrite IH, orb_assoc.
Qed.

Lemma includes_char (s : string) (c : ascii) :
  JS.includes s (String c EmptyString) = JS.has_char c s.
Proof.
  induction s as [|d s IH]; simpl; [reflexivity|].
  rewrite IH. destruct s; simpl; now rewrite andb_true_r.
Qed.

Lemma append_empty_r (s : string) : (s ++ "")%string = s.
Proof. induction s; simpl; congruence. Qed.

Lemma append_assoc (a b c : string) :
  ((a ++ b) ++ c)%string = (a ++ (b ++ c))%string.
Proof. induction a; simpl; congruence. Qed.

Lemma startsWith_iff (s p : string) :
  JS.startsWith s p = true <-> exists rest, s = (p ++ rest)%string.
Proof.
  revert s. induction p as [|c p IH]; intros s; simpl.
  - split; [intros _; now exists s | reflexivity].
  - destruct s as [|d s].
    + split; [discriminate | intros [rest H]; discriminate].
    + rewrite andb_true_iff, Ascii.eqb_eq, IH. split.
      * intros [-> [rest ->]]. now exists rest.
      * intros [rest H]. injection H as -> ->. split; [reflexivity|].
        now exists rest.
Qed.

(** *** [split] and [join] *)

Section SplitJoin.
Variable sep : ascii.

Lemma split_cons_eq (c : ascii) (s : string) :
  JS.split sep (String c s)
  = if Ascii.eqb c sep then EmptyString :: JS.split sep s
    else match JS.split sep s with
         | w :: ws => String c w :: ws
         | [] => []
         end.
Proof.
  unfold JS.split; simpl. destruct (JS.split_tokens sep s) as [w ws].
  now destruct (Ascii.eqb c sep).
Qed.

Lemma split_nonempty (s : string) : JS.split sep s <> [].
Proof. unfold JS.split. now destruct (JS.split_tokens sep s). Qed.

(** No token of [s.split(sep)] contains the separator. *)
Lemma split_no_sep (s : string) :
  Forall (fun w => JS.has_char sep w = false) (JS.split sep s).
Proof.
  induction s as [|c s IH].
  - repeat constructor.
  - rewrite split_cons_eq. destruct (Ascii.eqb c sep) eqn:E.
    + constructor; [reflexivity | exact IH].
    + destruct (JS.split sep s) as [|w ws]; [constructor|].
      inversion IH; subst. constructor; [|assumption].
      simpl. now rewrite E.
Qed.

(** A string without the separator is its own single token. *)
Lemma split_without_sep (s : string) :
  JS.has_char sep s = false -> JS.split sep s = [s].
Proof.
  induction s as [|c s IH]; intros H; [reflexivity|].
  simpl in H. apply orb_false_iff in H as [Hc Hs].
  rewrite split_cons_eq, Hc, (IH Hs). reflexivity.
Qed.

(** Joining the tokens with the separator gives the string back. *)
Lemma join_split (s : string) :
  JS.join (String sep EmptyString) (JS.split sep s) = s.
Proof.
  unfold JS.join. induction s as [|c s IH]; [reflexivity|].
  rewrite split_cons_eq. destruct (Ascii.eqb c sep) eqn:E.
  - apply Ascii.eqb_eq in E; subst c.
    pose proof (split_nonempty s) as Hne.
    destruct (JS.split sep s) as [|w ws]; [contradiction|].
    change (String.concat (String sep "") ("" :: w :: ws))
      with (String sep (String.concat (String sep "") (w :: ws))).
    now rewrite IH.
  - destruct (JS.split sep s) as [|w ws] eqn:Es;
      [now apply split_nonempty in Es|].
    destruct ws as [|w' ws].
    + simpl in *. now rewrite IH.
    + change (String.concat (String sep "") (String c w :: w' :: ws))
        with (String c (w ++ String sep ""
                          ++ String.concat (String sep "") (w' :: ws)))%string.
      f_equal. exact IH.
Qed.
End SplitJoin.

Lemma map_from_ext_in {A B} (f g : A -> nat -> B) (l : list A) :
  (forall x i, In x l -> f x i = g x i) ->
  forall i, JS.map_from f i l = JS.map_from g i l.
Proof.
  induction l as [|x l IH]; intros H i; simpl; [reflexivity|].
  rewrite (H x i (or_introl eq_refl)). f_equal.
  apply IH. intros y j Hy. apply H. now right.
Qed.

(** ** Category extractor *)

Lemma array_includes_In (l : list string) (x : string) :
  JS.array_includes l x = true <-> In x l.
Proof.
  unfold JS.array_includes. rewrite existsb_exists. split.
  - intros [y [Hy E]]. apply String.eqb_eq in E. now subst.
  - intros H. exists x. split; [assumption | apply String.eqb_refl].
Qed.

Lemma join_cons_cons (sep x y : string) (l : list string) :
  JS.join sep (x :: y :: l) = (x ++ sep ++ JS.join sep (y :: l))%string.
Proof. reflexivity. Qed.

(** The two outcomes of [extractCategoryFromPath], by the guard it takes. *)
Lemma extract_hit (pathName : string) :
  (1 < List.length (JS.split "-" pathName))%nat ->
  In (JS.toLowerCase (List.hd EmptyString (JS.split "-" pathName)))
     CATEGORY_PREFIXES ->
  extractCategoryFromPath pathName
  = {| category :=
         Some (JS.toLowerCase (List.hd EmptyString (JS.split "-" pathName)));
       cleanName := JS.join "-" (List.tl (JS.split "-" pathName)) |}.
Proof.
  intros Hlen Hin. unfold extractCategoryFromPath.
  apply Nat.ltb_lt in Hlen. rewrite Hlen.
  apply array_includes_In in Hin. now rewrite Hin.
Qed.

Lemma extract_miss (pathName : string) :
  ~ ((1 < List.length (JS.split "-" pathName))%nat /\
     In (JS.toLowerCase (List.hd EmptyString (JS.split "-" pathName)))
        CATEGORY_PREFIXES) ->
  extractCategoryFromPath pathName
  = {| category := None; cleanName := pathName |}.
Proof.
  intros H. unfold extractCategoryFromPath.
  destruct (1 <? _)%nat eqn:Hlen; [|reflexivity].
  destruct (JS.array_includes _ _) eqn:Hin; [|reflexivity].
  exfalso. apply H. split.
  - now apply Nat.ltb_lt.
  - now apply array_includes_In.
Qed.

(** C4.  [extractCategoryFromPath] returns a category exactly when
    [pathName.split("-")] has more than one token and the lower-cased first
    token is one of [CATEGORY_PREFIXES].  The category is then that
    lower-cased token, the clean name is the remaining tokens joined with
    a hyphen, and the input is the first token, a hyphen and the clean name:
    the clean name leaves the leading token out.  In every other case the
    category is null and the clean name is the input.  The function is a
    total, pure function of its argument. *)
Theorem extractCategoryFromPath_contract (pathName : string) :
  (category (extractCategoryFromPath pathName) <> None <->
     (1 < List.length (JS.split "-" pathName))%nat /\
     In (JS.toLowerCase (List.hd EmptyString (JS.split "-" pathName)))
        CATEGORY_PREFIXES)
  /\
  (forall c, category (extractCategoryFromPath pathName) = Some c ->
     c = JS.toLowerCase (List.hd EmptyString (JS.split "-" pathName)) /\
     In c CATEGORY_PREFIXES /\
     cleanName (extractCategoryFromPath pathName)
     = JS.join "-" (List.tl (JS.split "-" pathName)) /\
     pathName
     = (List.hd EmptyString (JS.split "-" pathName) ++ "-"
        ++ cleanName (extractCategoryFromPath pathName))%string /\
     JS.has_char "-" (List.hd EmptyString (JS.split "-" pathName)) = false)
  /\
  (category (extractCategoryFromPath pathName) = None ->
     cleanName (extractCategoryFromPath pathName) = pathName).
Proof.
  assert (Hdec :
    ((1 < List.length (JS.split "-" pathName))%nat /\
     In (JS.toLowerCase (List.hd EmptyString (JS.split "-" pathName)))
        CATEGORY_PREFIXES) \/
    ~ ((1 < List.length (JS.split "-" pathName))%nat /\
       In (JS.toLowerCase (List.hd EmptyString (JS.split "-" pathName)))
          CATEGORY_PREFIXES)).
  { destruct (1 <? List.length (JS.split "-" pathName))%nat eqn:Hlen.
    - destruct (JS.array_includes CATEGORY_PREFIXES
                  (JS.toLowerCase (List.hd EmptyString (JS.split "-" pathName))))
        eqn:Hin.
      + left. split; [now apply Nat.ltb_lt | now apply array_includes_In].
      + right. intros [_ H]. apply array_includes_In in H. congruence.
    - right. intros [H _]. apply Nat.ltb_lt in H. congruence. }
  destruct Hdec as [[Hlen Hin] | Hno].
  - rewrite (extract_hit _ Hlen Hin). simpl. split; [|split].
    + split; [intros _; now split | intros _; discriminate].
    + intros c Hc. injection Hc as <-.
      split; [reflexivity|]. split; [assumption|]. split; [reflexivity|].
      pose proof (join_split "-" pathName) as Hj.
      pose proof (split_no_sep "-" pathName) as Hns.
      destruct (JS.split "-" pathName) as [|w [|w' ws]]; simpl in Hlen;
        try lia.
      simpl List.hd. simpl List.tl. split.
      * rewrite <- Hj at 1. apply join_cons_cons.
      * now inversion Hns.
    + discriminate.
  - rewrite (extract_miss _ Hno). simpl. split; [|split].
    + split; [intros H; now elim H | intros H; contradiction].
    + discriminate.
    + reflexivity.
Qed.

(** Examples of the extractor. *)
Example extract_db_foo :
  extractCategoryFromPath "db-foo"
  = {| category := Some "db"; cleanName := "foo" |}.
Proof. reflexivity. Qed.

Example extract_upper :
  extractCategoryFromPath "SQL-joins-and-keys"
  = {| category := Some "sql"; cleanName := "joins-and-keys" |}.
Proof. reflexivity. Qed.

Example extract_single_token :
  extractCategoryFromPath "sql" = {| category := None; cleanName := "sql" |}.
Proof. reflexivity. Qed.

Example extract_unknown_code :
  extractCategoryFromPath "orm-prisma"
  = {| category := None; cleanName := "orm-prisma" |}.
Proof. reflexivity. Qed.

(** ** Title formatter *)

Example title_strips_code :
  toSmartTitleCase "fund-introduction-to-back-end" = "Introduction to Back End".
Proof. reflexivity. Qed.

Example title_minor_word_last :
  toSmartTitleCase "what-to-look-for" = "What to Look For".
Proof. reflexivity. Qed.

Example title_use_is_kept : toSmartTitleCase "useState-hook" = "useState-hook".
Proof. reflexivity. Qed.

Example title_user_is_formatted :
  toSmartTitleCase "user-accounts" = "User Accounts".
Proof. reflexivity. Qed.


(** The hyphen test of [titleWord] fails on every token of a split on
    the hyphen. *)
Lemma split_hyphen_tokens (s : string) :
  Forall (fun w => JS.includes w "-" = false) (JS.split "-" s).
Proof.
  eapply Forall_impl; [|apply (split_no_sep "-" s)].
  intros w Hw. now rewrite includes_char.
Qed.

Lemma titleWord_noHyphen (word : string) (index : nat) (array : list string) :
  JS.includes word "-" = false ->
  titleWord word index array = titleWord_noHyphenBranch word index array.
Proof.
  intros H. unfold titleWord, titleWord_noHyphenBranch. now rewrite H.
Qed.

(** C10.  The branch of [toSmartTitleCase] for tokens containing a hyphen is
    dead code: the tokens come from a split on the hyphen, so none contains
    one, and the function equals the one without that branch on every
    input. *)
Theorem toSmartTitleCase_hyphen_branch_dead (str : string) :
  Forall (fun word => JS.includes word "-" = false)
         (JS.split "-" (cleanName (extractCategoryFromPath str)))
  /\ toSmartTitleCase str = toSmartTitleCase_noHyphenBranch str.
Proof.
  split; [apply split_hyphen_tokens|].
  unfold toSmartTitleCase, toSmartTitleCase_noHyphenBranch.
  destruct (useException _); [reflexivity|].
  destruct (String.eqb _ "jQuery"); [reflexivity|].
  f_equal. unfold JS.mapi. apply map_from_ext_in.
  intros w i Hw. apply titleWord_noHyphen.
  pose proof (split_hyphen_tokens (cleanName (extractCategoryFromPath str))) as H.
  rewrite Forall_forall in H. now apply H.
Qed.

(** *** Idempotence *)

Lemma has_char_upper_hyphen (s : string) :
  JS.has_char "-" (JS.toUpperCase s) = JS.has_char "-" s.
Proof.
  induction s as [|c s IH]; simpl; [reflexivity|].
  now rewrite upper_char_hyphen, IH.
Qed.

Lemma capitalize_hyphen (word : string) :
  JS.has_char "-" (capitalize word) = JS.has_char "-" word.
Proof.
  unfold capitalize. rewrite has_char_app, has_char_upper_hyphen.
  destruct word as [|c w]; simpl; [reflexivity|]. now rewrite orb_false_r.
Qed.

Lemma capitalize_idem (word : string) :
  capitalize (capitalize word) = capitalize word.
Proof.
  destruct word as [|c w]; [reflexivity|].
  unfold capitalize; simpl. now rewrite upper_char_idem.
Qed.

(** Capitalising is the identity on a string that starts with a capitalised
    word followed by anything. *)
Lemma capitalize_prefix (word rest : string) :
  (word = EmptyString ->
   rest = EmptyString \/ exists r, rest = String " " r) ->
  capitalize (capitalize word ++ rest)%string = (capitalize word ++ rest)%string.
Proof.
  intros Hrest. destruct word as [|c w].
  - destruct (Hrest eq_refl) as [-> | [r ->]]; reflexivity.
  - unfold capitalize; simpl. now rewrite upper_char_idem.
Qed.

Lemma titleWord_hyphen_free (word : string) (index : nat) (array : list string) :
  JS.has_char "-" word = false ->
  JS.has_char "-" (titleWord word index array) = false.
Proof.
  intros H. rewrite titleWord_noHyphen by now rewrite includes_char.
  unfold titleWord_noHyphenBranch.
  repeat match goal with |- context [if ?b then _ else _] => destruct b end;
    rewrite ?capitalize_hyphen; assumption.
Qed.

Lemma map_from_Forall {A B} (P : A -> Prop) (Q : B -> Prop)
  (f : A -> nat -> B) (l : list A) :
  (forall x i, P x -> Q (f x i)) ->
  Forall P l -> forall i, Forall Q (JS.map_from f i l).
Proof.
  intros Hf Hl. induction Hl as [|x l Hx Hl IH]; intros i; simpl;
    constructor; auto.
Qed.

Lemma join_space_hyphen_free (l : list string) :
  Forall (fun w => JS.has_char "-" w = false) l ->
  JS.has_char "-" (JS.join " " l) = false.
Proof.
  unfold JS.join. induction 1 as [|w l Hw Hl IH]; [reflexivity|].
  destruct l as [|w' l]; [exact Hw|].
  change (String.concat " " (w :: w' :: l))
    with (w ++ " " ++ String.concat " " (w' :: l))%string.
  rewrite !has_char_app, Hw, IH. reflexivity.
Qed.

(** The title built from the tokens of a clean name: it has no hyphen and
    capitalising it changes nothing. *)
Lemma titled_tokens_shape (clean : string) :
  let out := JS.join " " (JS.mapi titleWord (JS.split "-" clean)) in
  JS.has_char "-" out = false /\ capitalize out = out.
Proof.
  cbv zeta. split.
  - apply join_space_hyphen_free. unfold JS.mapi.
    apply map_from_Forall with (P := fun w => JS.has_char "-" w = false).
    + intros w i Hw. now apply titleWord_hyphen_free.
    + apply split_no_sep.
  - unfold JS.mapi.
    destruct (JS.split "-" clean) as [|w0 ws] eqn:Es;
      [now apply split_nonempty in Es|].
    simpl JS.map_from.
    change (titleWord w0 0 (w0 :: ws)) with (capitalize w0).
    destruct (JS.map_from (fun x i => titleWord x i (w0 :: ws)) 1 ws)
      as [|r rs].
    + change (JS.join " " [capitalize w0]) with (capitalize w0).
      apply capitalize_idem.
    + change (JS.join " " (capitalize w0 :: r :: rs))
        with (capitalize w0 ++ " " ++ JS.join " " (r :: rs))%string.
      apply capitalize_prefix. intros _. right. eexists. reflexivity.
Qed.

(** On a string without a hyphen the formatter returns its argument or
    capitalises it. *)
Lemma toSmartTitleCase_hyphen_free (s : string) :
  JS.has_char "-" s = false ->
  toSmartTitleCase s = s \/ toSmartTitleCase s = capitalize s.
Proof.
  intros H. unfold toSmartTitleCase.
  assert (Hx : extractCategoryFromPath s = {| category := None; cleanName := s |}).
  { apply extract_miss. rewrite (split_without_sep "-" s H). simpl. lia. }
  rewrite Hx. simpl cleanName.
  destruct (useException s); [now left|].
  destruct (String.eqb s "jQuery") eqn:E.
  - apply String.eqb_eq in E. now left.
  - right. rewrite (split_without_sep "-" s H). reflexivity.
Qed.

(** A name that starts with "use" carries no category code, so the early
    return gives the name back when the formatter is applied to it again. *)
Lemma extract_use (name : string) :
  JS.startsWith name "use" = true ->
  extractCategoryFromPath name = {| category := None; cleanName := name |}.
Proof.
  intros H. apply startsWith_iff in H as [rest ->].
  apply extract_miss. intros [_ Hin]. revert Hin.
  cbn [String.append]. rewrite !split_cons_eq. cbn [Ascii.eqb Bool.eqb].
  pose proof (split_nonempty "-" rest) as Hne.
  destruct (JS.split "-" rest) as [|w ws]; [contradiction|].
  cbn. intuition discriminate.
Qed.

Lemma toSmartTitleCase_use (name : string) :
  useException name = true -> toSmartTitleCase name = name.
Proof.
  intros H. unfold toSmartTitleCase.
  assert (Hs : JS.startsWith name "use" = true)
    by (unfold useException in H; now apply andb_true_iff in H as [H _]).
  rewrite (extract_use _ Hs). cbn [cleanName]. now rewrite H.
Qed.

(** The formatter is idempotent on every input, the names of the early
    return included. *)
Lemma toSmartTitleCase_idempotent_everywhere (str : string) :
  toSmartTitleCase (toSmartTitleCase str) = toSmartTitleCase str.
Proof.
  unfold toSmartTitleCase at 2 3.
  destruct (useException _) eqn:Huse; [now apply toSmartTitleCase_use|].
  destruct (String.eqb _ "jQuery"); [reflexivity|].
  destruct (titled_tokens_shape (cleanName (extractCategoryFromPath str)))
    as [Hfree Hcap].
  destruct (toSmartTitleCase_hyphen_free _ Hfree) as [-> | ->];
    [reflexivity | exact Hcap].
Qed.

(** C5.  [toSmartTitleCase] is idempotent on every input whose clean name
    does not take the early return for names that start with "use" (and not
    with "user"): formatting the formatted title again gives the same
    title. *)
Theorem toSmartTitleCase_idempotent (str : string) :
  useException (cleanName (extractCategoryFromPath str)) = false ->
  toSmartTitleCase (toSmartTitleCase str) = toSmartTitleCase str.
Proof.
  intros Huse. unfold toSmartTitleCase at 2 3. rewrite Huse.
  destruct (String.eqb _ "jQuery"); [reflexivity|].
  destruct (titled_tokens_shape (cleanName (extractCategoryFromPath str)))
    as [Hfree Hcap].
  destruct (toSmartTitleCase_hyphen_free _ Hfree) as [-> | ->];
    [reflexivity | exact Hcap].
Qed.

(** C5 at ["fund-introduction-to-back-end"]. *)
Lemma toSmartTitleCase_idempotent_witness :
  useException (cleanName (extractCategoryFromPath "fund-introduction-to-back-end")) = false /\
  toSmartTitleCase (toSmartTitleCase "fund-introduction-to-back-end")
  = toSmartTitleCase "fund-introduction-to-back-end".
Proof.
  split; [reflexivity|].
  apply (toSmartTitleCase_idempotent "fund-introduction-to-back-end").
  reflexivity.
Defined.

(** ** Sorter *)

(** *** The sort of arrays *)

Section ArraySortFacts.
Context {A : Type}.
Variable compare : A -> A -> Z.

Lemma sort_insert_perm (x : A) (l : list A) :
  Permutation (x :: l) (sort_insert compare x l).
Proof.
  induction l as [|y l IH]; simpl; [reflexivity|].
  destruct (compare x y <=? 0)%Z; [reflexivity|].
  rewrite perm_swap. now constructor.
Qed.

Lemma array_sort_perm (l : list A) : Permutation l (array_sort compare l).
Proof.
  induction l as [|x l IH]; simpl; [constructor|].
  rewrite <- sort_insert_perm. now constructor.
Qed.

(** An element that may stay before the head of a list is inserted in
    front of it. *)
Lemma sort_insert_front (x : A) (l : list A) :
  HdRel (keeps compare) x l -> sort_insert compare x l = x :: l.
Proof.
  intros H. destruct l as [|y l]; [reflexivity|].
  inversion H as [|? ? Hxy]; subst. unfold keeps in Hxy. simpl.
  apply Z.leb_le in Hxy. now rewrite Hxy.
Qed.

(** Sorting leaves a list alone when each element may stay before its
    successor. *)
Lemma array_sort_sorted_id (l : list A) :
  Sorted (keeps compare) l -> array_sort compare l = l.
Proof.
  induction 1 as [|x l Hl IH Hx]; simpl; [reflexivity|].
  rewrite IH. now apply sort_insert_front.
Qed.

Section Total.
Hypothesis compare_total :
  forall a b, (compare a b > 0)%Z -> (compare b a <= 0)%Z.

Lemma sort_insert_sorted (x : A) (l : list A) :
  Sorted (keeps compare) l -> Sorted (keeps compare) (sort_insert compare x l).
Proof.
  induction 1 as [|y l Hl IH Hy]; simpl.
  - repeat constructor.
  - destruct (compare x y <=? 0)%Z eqn:E.
  + apply Z.leb_le in E. repeat constructor; assumption.
  + apply Z.leb_gt in E. constructor; [exact IH|].
    destruct l as [|z l]; simpl.
    * constructor. apply compare_total. lia.
    * destruct (compare x z <=? 0)%Z.
      -- constructor. apply compare_total. lia.
      -- constructor. now inversion Hy.
Qed.

Lemma array_sort_sorted (l : list A) : Sorted (keeps compare) (array_sort compare l).
Proof.
  induction l as [|x l IH]; simpl; [constructor|].
  now apply sort_insert_sorted.
Qed.

Lemma array_sort_idempotent (l : list A) :
  array_sort compare (array_sort compare l) = array_sort compare l.
Proof. apply array_sort_sorted_id, array_sort_sorted. Qed.
End Total.

(** A numeric key the comparator respects ends up in ascending order. *)
Section Key.
Variable key : A -> Z.
Hypothesis key_le : forall a b, (compare a b <= 0)%Z -> (key a <= key b)%Z.
Hypothesis key_ge : forall a b, (compare a b > 0)%Z -> (key b <= key a)%Z.

Lemma sort_insert_key_sorted (x : A) (l : list A) :
  StronglySorted (key_le_rel key) l ->
  StronglySorted (key_le_rel key) (sort_insert compare x l).
Proof.
  induction 1 as [|y l Hl IH Hy]; simpl.
  - repeat constructor.
  - destruct (compare x y <=? 0)%Z eqn:E.
  + apply Z.leb_le in E. apply key_le in E.
    constructor; [now constructor|].
    constructor; [exact E|].
    eapply Forall_impl; [|exact Hy].
    unfold key_le_rel. intros; lia.
  + apply Z.leb_gt in E. constructor; [exact IH|].
    rewrite <- sort_insert_perm. constructor; [|exact Hy].
    apply key_ge. lia.
Qed.

Lemma array_sort_key_sorted (l : list A) :
  StronglySorted (key_le_rel key) (array_sort compare l).
Proof.
  induction l as [|x l IH]; simpl; [constructor|].
  now apply sort_insert_key_sorted.
Qed.
End Key.

(** In a strongly sorted list an earlier position is related to a later
    one. *)
Lemma StronglySorted_nth (R : A -> A -> Prop) (l : list A) :
  StronglySorted R l ->
  forall i j a b, (i < j)%nat ->
    nth_error l i = Some a -> nth_error l j = Some b -> R a b.
Proof.
  induction 1 as [|x l Hl IH Hx]; intros i j a b Hij Hi Hj.
  - destruct i; discriminate.
  - destruct j as [|j]; [lia|]. simpl in Hj.
    destruct i as [|i]; simpl in Hi.
    + injection Hi as <-. rewrite Forall_forall in Hx.
      apply Hx. eapply nth_error_In; eassumption.
    + apply (IH i j); [lia | assumption | assumption].
Qed.
End ArraySortFacts.

(** *** The comparator of [sortNavigationItems] *)

Lemma startsWith_lower (s t : string) :
  JS.startsWith s t = true ->
  JS.startsWith (JS.toLowerCase s) (JS.toLowerCase t) = true.
Proof.
  revert s. induction t as [|c t IH]; intros s H; [reflexivity|].
  destruct s as [|d s]; [discriminate|]. simpl in *.
  apply andb_true_iff in H as [Hc Hs]. apply Ascii.eqb_eq in Hc. subst d.
  now rewrite Ascii.eqb_refl, IH.
Qed.

Lemma includes_lower (s t : string) :
  JS.includes s t = true ->
  JS.includes (JS.toLowerCase s) (JS.toLowerCase t) = true.
Proof.
  induction s as [|d s IH]; intros H.
  - simpl in H. rewrite orb_false_r in H.
    apply startsWith_lower in H. simpl in *. now rewrite H.
  - simpl in H. apply orb_true_iff in H as [H | H].
    + apply startsWith_lower in H. simpl JS.toLowerCase at 1.
      simpl JS.includes. simpl in H. now rewrite H.
    + simpl JS.toLowerCase at 1. simpl JS.includes.
      rewrite (IH H). apply orb_true_r.
Qed.

(** A title that contains "vocabulary" is in the first bucket. *)
Lemma getPriority_vocabulary (title : string) :
  JS.includes title "vocabulary" = true -> getPriority title = 1%Z.
Proof.
  intros H. apply includes_lower in H.
  change (JS.toLowerCase "vocabulary") with "vocabulary" in H.
  unfold getPriority. rewrite H. now rewrite orb_true_r.
Qed.

Section SorterFacts.
Variable localeCompare : string -> string -> Z.

Lemma compareItems_le_priority (a b : NavigationItem) :
  (compareItems localeCompare a b <= 0)%Z -> (priorityOf a <= priorityOf b)%Z.
Proof.
  unfold compareItems, priorityOf.
  destruct (getPriority (title a) =? 999)%Z eqn:Ea;
    destruct (getPriority (title b) =? 999)%Z eqn:Eb; simpl;
    rewrite ?Z.eqb_eq in *; lia.
Qed.

Lemma compareItems_gt_priority (a b : NavigationItem) :
  (compareItems localeCompare a b > 0)%Z -> (priorityOf b <= priorityOf a)%Z.
Proof.
  unfold compareItems, priorityOf.
  destruct (getPriority (title a) =? 999)%Z eqn:Ea;
    destruct (getPriority (title b) =? 999)%Z eqn:Eb; simpl;
    rewrite ?Z.eqb_eq in *; lia.
Qed.

(** Outside the 999 bucket the comparator sees priorities only. *)
Lemma compareItems_same_bucket (a b : NavigationItem) :
  priorityOf a = priorityOf b -> priorityOf a <> 999%Z ->
  compareItems localeCompare a b = 0%Z.
Proof.
  unfold compareItems, priorityOf. intros E Hne.
  apply Z.eqb_neq in Hne. rewrite Hne. simpl. lia.
Qed.

(** Siblings of one bucket other than 999 keep their input order, whatever
    their [order] metadata and titles are. *)
Lemma sortNavigationItems_one_bucket (p : Z) (items : list NavigationItem) :
  p <> 999%Z -> Forall (fun item => priorityOf item = p) items ->
  sortNavigationItems localeCompare items = items.
Proof.
  intros Hp Hall. apply array_sort_sorted_id.
  induction Hall as [|a l Ha Hl IH]; constructor; [exact IH|].
  destruct Hl as [|b l Hb Hl]; constructor.
  unfold keeps. rewrite compareItems_same_bucket; [lia | congruence | congruence].
Qed.

Lemma sortNavigationItems_priorities (items : list NavigationItem) :
  StronglySorted (key_le_rel priorityOf)
                 (sortNavigationItems localeCompare items).
Proof.
  apply array_sort_key_sorted.
  - apply compareItems_le_priority.
  - apply compareItems_gt_priority.
Qed.

(** In the sorted list an item of a lower bucket stands before every item
    of a higher bucket. *)
Lemma sortNavigationItems_bucket_order (items : list NavigationItem)
  (i j : nat) (a b : NavigationItem) :
  nth_error (sortNavigationItems localeCompare items) i = Some a ->
  nth_error (sortNavigationItems localeCompare items) j = Some b ->
  (priorityOf a < priorityOf b)%Z -> (i < j)%nat.
Proof.
  intros Hi Hj Hlt.
  destruct (Nat.lt_trichotomy i j) as [H | [H | H]]; [exact H| |].
  - subst j. rewrite Hi in Hj. injection Hj as ->. lia.
  - pose proof (StronglySorted_nth _ _ (sortNavigationItems_priorities items)
                  j i b a H Hj Hi) as Hle.
    unfold key_le_rel in Hle. lia.
Qed.

Section LocaleTotal.
Hypothesis localeCompare_total :
  forall s t, (localeCompare s t > 0)%Z -> (localeCompare t s <= 0)%Z.

Lemma compareItems_total (a b : NavigationItem) :
  (compareItems localeCompare a b > 0)%Z ->
  (compareItems localeCompare b a <= 0)%Z.
Proof.
  unfold compareItems.
  destruct (getPriority (title a) =? 999)%Z eqn:Ea;
  destruct (getPriority (title b) =? 999)%Z eqn:Eb; simpl;
  try lia.
  destruct (order a), (order b); try lia.
  apply localeCompare_total.
Qed.

Lemma sortNavigationItems_idempotent (items : list NavigationItem) :
  sortNavigationItems localeCompare (sortNavigationItems localeCompare items)
  = sortNavigationItems localeCompare items.
Proof. apply array_sort_idempotent, compareItems_total. Qed.
End LocaleTotal.
End SorterFacts.

Lemma codeUnitCompare_total (s t : string) :
  (codeUnitCompare s t > 0)%Z -> (codeUnitCompare t s <= 0)%Z.
Proof.
  unfold codeUnitCompare. rewrite (String.compare_antisym t s).
  destruct (String.compare s t); simpl; lia.
Qed.

Lemma getPriority_vocabulary_any_case (title : string) :
  JS.includes (JS.toLowerCase title) "vocabulary" = true ->
  getPriority title = 1%Z.
Proof.
  intros H. unfold getPriority. rewrite H. now rewrite orb_true_r.
Qed.

(** C1.  The code at two siblings of the default bucket: the comparator
    returns the difference of the priorities, 99 - 99 = 0, before it looks
    at [order] or at the titles, since its guard tests the priorities
    against 999 and the default priority is 99.  The siblings keep their
    input order: the item of rank 2 stays before the item of rank 1, an item
    without rank stays before one with a rank, and "Zebra" stays before
    "Apple" when neither has a rank. *)
Theorem sortNavigationItems_default_bucket_keeps_input_order
  (localeCompare : string -> string -> Z) :
  getPriority "Zebra" = 99%Z /\ getPriority "Apple" = 99%Z /\
  sortNavigationItems localeCompare
    [page "Zebra" "/zebra" (Some 2%Z); page "Apple" "/apple" (Some 1%Z)]
  = [page "Zebra" "/zebra" (Some 2%Z); page "Apple" "/apple" (Some 1%Z)] /\
  sortNavigationItems localeCompare
    [page "Zebra" "/zebra" None; page "Apple" "/apple" (Some 1%Z)]
  = [page "Zebra" "/zebra" None; page "Apple" "/apple" (Some 1%Z)] /\
  sortNavigationItems localeCompare
    [page "Zebra" "/zebra" None; page "Apple" "/apple" None]
  = [page "Zebra" "/zebra" None; page "Apple" "/apple" None].
Proof. repeat split; reflexivity. Qed.

(** The tie-breaks by [order] and by title are those of the 999 bucket
    (titles with "security" or "performance"). *)
Example sortNavigationItems_999_bucket_uses_order :
  sortNavigationItems codeUnitCompare
    [page "Security B" "/b" (Some 2%Z); page "Security C" "/c" None;
     page "Security A" "/a" None; page "Security D" "/d" (Some 1%Z)]
  = [page "Security D" "/d" (Some 1%Z); page "Security B" "/b" (Some 2%Z);
     page "Security A" "/a" None; page "Security C" "/c" None].
Proof. reflexivity. Qed.

(** C6, as stated, fails: a title that contains "bonus" and also a keyword of
    an earlier bucket ("setup", bucket 2) is sorted before a title of the
    default bucket. *)
Lemma bonus_title_sorted_before_default :
  JS.includes "bonus setup" "bonus" = true /\
  getPriority "bonus setup" = 2%Z /\
  getPriority "Apple" = 99%Z /\
  sortNavigationItems codeUnitCompare
    [page "Apple" "/apple" None; page "bonus setup" "/bonus-setup" None]
  = [page "bonus setup" "/bonus-setup" None; page "Apple" "/apple" None].
Proof. repeat split; reflexivity. Qed.

Ltac case_includes :=
  repeat match goal with
         | |- context [JS.includes ?a ?b] =>
             destruct (JS.includes a b); cbn [orb andb negb]
         end.

(** The default bucket is the bucket of the titles without any priority
    keyword. *)
Lemma getPriority_default (title : string) :
  getPriority title = 99%Z <-> mentions priorityKeywords title = false.
Proof.
  unfold getPriority, mentions, priorityKeywords, earlierKeywords, keywords1,
    keywords2, keywords3, keywords4, keywords999, keywords9999.
  cbv zeta. cbn [app existsb].
  case_includes; split; intros H; try discriminate H; reflexivity.
Qed.

(** The bottom bucket is the bucket of the titles with a keyword of the
    last test and no keyword of an earlier test. *)
Lemma getPriority_bottom (title : string) :
  getPriority title = 9999%Z <->
  mentions earlierKeywords title = false /\
  mentions keywords9999 title = true.
Proof.
  unfold getPriority, mentions, earlierKeywords, keywords1, keywords2,
    keywords3, keywords4, keywords999, keywords9999.
  cbv zeta. cbn [app existsb].
  case_includes; split; try (intros H; discriminate H);
    try (intros [H1 H2]; discriminate); try (split; reflexivity);
    try reflexivity.
Qed.

Lemma mentions_bonus (title : string) :
  JS.includes title "bonus" = true -> mentions keywords9999 title = true.
Proof.
  intros H. apply includes_lower in H.
  change (JS.toLowerCase "bonus") with "bonus" in H.
  unfold mentions, keywords9999. cbn [existsb]. now rewrite H.
Qed.

(** C6, amended.  For a [localeCompare] that is a total comparison,
    [sortNavigationItems] returns a rearrangement of its input, sorting the
    sorted list again changes nothing, and the output respects the buckets:
    every item whose title contains "vocabulary" (in any letter case) stands
    before every item of the default bucket, the items whose title has no
    priority keyword, and every item of the default bucket stands before
    every item of the bottom bucket, the items whose title has "bonus",
    "libraries", "optional" or "frameworks" and no keyword of an earlier
    test, as a title with "bonus" and no such keyword.  The default bucket
    is the bucket of priority 99 and the bottom bucket that of priority
    9999. *)
Theorem sortNavigationItems_idempotent_and_bucketed
  (localeCompare : string -> string -> Z) (siblings : list NavigationItem) :
  (forall s t, (localeCompare s t > 0)%Z -> (localeCompare t s <= 0)%Z) ->
  Permutation siblings (sortNavigationItems localeCompare siblings) /\
  sortNavigationItems localeCompare (sortNavigationItems localeCompare siblings)
  = sortNavigationItems localeCompare siblings /\
  (forall i j a b,
    nth_error (sortNavigationItems localeCompare siblings) i = Some a ->
    nth_error (sortNavigationItems localeCompare siblings) j = Some b ->
    (JS.includes (title a) "vocabulary" = true ->
     priorityOf b = 99%Z -> (i < j)%nat) /\
    (JS.includes (JS.toLowerCase (title a)) "vocabulary" = true ->
     priorityOf b = 99%Z -> (i < j)%nat) /\
    (priorityOf a = 99%Z -> priorityOf b = 9999%Z -> (i < j)%nat) /\
    (JS.includes (title a) "vocabulary" = true ->
     mentions priorityKeywords (title b) = false -> (i < j)%nat) /\
    (JS.includes (JS.toLowerCase (title a)) "vocabulary" = true ->
     mentions priorityKeywords (title b) = false -> (i < j)%nat) /\
    (mentions priorityKeywords (title a) = false ->
     mentions earlierKeywords (title b) = false ->
     mentions keywords9999 (title b) = true -> (i < j)%nat) /\
    (mentions priorityKeywords (title a) = false ->
     mentions earlierKeywords (title b) = false ->
     JS.includes (title b) "bonus" = true -> (i < j)%nat)) /\
  (forall title,
     getPriority title = 99%Z <-> mentions priorityKeywords title = false) /\
  (forall title,
     getPriority title = 9999%Z <->
     mentions earlierKeywords title = false /\
     mentions keywords9999 title = true).
Proof.
  intros Htotal. split; [apply array_sort_perm|].
  split; [now apply sortNavigationItems_idempotent|].
  split; [|split; [apply getPriority_default | apply getPriority_bottom]].
  intros i j a b Hi Hj.
  assert (Hlt : (priorityOf a < priorityOf b)%Z -> (i < j)%nat)
    by apply (sortNavigationItems_bucket_order localeCompare siblings
                i j a b Hi Hj).
  assert (Hvoc : JS.includes (title a) "vocabulary" = true ->
                 priorityOf a = 1%Z)
    by (intros H; apply (getPriority_vocabulary _ H)).
  assert (Hvoc' : JS.includes (JS.toLowerCase (title a)) "vocabulary" = true ->
                  priorityOf a = 1%Z)
    by (intros H; apply (getPriority_vocabulary_any_case _ H)).
  assert (Hdef : forall x, mentions priorityKeywords (title x) = false ->
                           priorityOf x = 99%Z)
    by (intros x H; now apply getPriority_default).
  assert (Hbot : mentions earlierKeywords (title b) = false ->
                 mentions keywords9999 (title b) = true ->
                 priorityOf b = 9999%Z)
    by (intros H1 H2; apply getPriority_bottom; now split).
  repeat split.
  - intros Ha Hb. apply Hlt. rewrite (Hvoc Ha). lia.
  - intros Ha Hb. apply Hlt. rewrite (Hvoc' Ha). lia.
  - intros Ha Hb. apply Hlt. lia.
  - intros Ha Hb. apply Hlt. rewrite (Hvoc Ha), (Hdef b Hb). lia.
  - intros Ha Hb. apply Hlt. rewrite (Hvoc' Ha), (Hdef b Hb). lia.
  - intros Ha Hb1 Hb2. apply Hlt. rewrite (Hdef a Ha), (Hbot Hb1 Hb2). lia.
  - intros Ha Hb1 Hb2. apply Hlt.
    rewrite (Hdef a Ha), (Hbot Hb1 (mentions_bonus _ Hb2)). lia.
Qed.

(** C6, amended, at a list with one item of each of the three buckets. *)
Lemma sortNavigationItems_idempotent_and_bucketed_witness :
  (forall s t, (codeUnitCompare s t > 0)%Z -> (codeUnitCompare t s <= 0)%Z) /\
  sortNavigationItems codeUnitCompare
    (sortNavigationItems codeUnitCompare
       [page "Bonus" "/bonus" None; page "Apple" "/apple" None;
        page "Vocabulary" "/vocabulary" None])
  = sortNavigationItems codeUnitCompare
      [page "Bonus" "/bonus" None; page "Apple" "/apple" None;
       page "Vocabulary" "/vocabulary" None].
Proof.
  split; [exact codeUnitCompare_total|].
  apply (sortNavigationItems_idempotent_and_bucketed codeUnitCompare
           [page "Bonus" "/bonus" None; page "Apple" "/apple" None;
            page "Vocabulary" "/vocabulary" None]
           codeUnitCompare_total).
Defined.

(** ** Categorizer *)

Ltac split_ifs :=
  repeat match goal with
         | |- context [if ?b then _ else _] => destruct b
         end.

Lemma sectionOfCategory_key (c section : string) :
  sectionOfCategory c = Some section -> In section sectionKeys.
Proof.
  unfold sectionOfCategory. split_ifs; intros H; try discriminate;
    injection H as <-; simpl; tauto.
Qed.

Lemma categoryOfSegments_key (segments : list string) (section : string) :
  categoryOfSegments segments = Some section -> In section sectionKeys.
Proof.
  induction segments as [|s l IH]; simpl; [discriminate|].
  destruct (category (extractCategoryFromPath s)) as [c|]; [|exact IH].
  destruct (String.eqb c ""); [exact IH|].
  destruct (sectionOfCategory c) as [sec|] eqn:E; [|exact IH].
  intros H. injection H as <-. eapply sectionOfCategory_key; eassumption.
Qed.

Lemma keywordsWithChildren_key (path title section : string) :
  keywordsWithChildren path title = Some section -> In section sectionKeys.
Proof.
  unfold keywordsWithChildren. cbv zeta. split_ifs; intros H;
    try discriminate; injection H as <-; simpl; tauto.
Qed.

Lemma keywordsForPage_key (path title : string) :
  In (keywordsForPage path title) sectionKeys.
Proof.
  unfold keywordsForPage. cbv zeta. split_ifs; simpl; tauto.
Qed.

(** [categorizeItem] answers with a key of [categories]. *)
Lemma categorizeItem_key (item : NavigationItem) :
  In (categorizeItem item) sectionKeys.
Proof.
  unfold categorizeItem.
  destruct (categoryOfSegments _) as [sec|] eqn:E.
  - eapply categoryOfSegments_key; eassumption.
  - destruct (if hasChildren item then _ else None) as [sec|] eqn:Ek.
    + destruct (hasChildren item); [|discriminate].
      eapply keywordsWithChildren_key; eassumption.
    + apply keywordsForPage_key.
Qed.

Lemma filter_app_snoc {A} (p : A -> bool) (l : list A) (x : A) :
  filter p (l ++ [x]) = filter p l ++ (if p x then [x] else []).
Proof. rewrite filter_app. reflexivity. Qed.

(** The [forEach] loop appends to each array the items assigned to its key,
    in input order, and never throws. *)
Lemma categorizeAll_spec (input : list NavigationItem) :
  forall c,
    categorizeAll input c
    = Ok {| fundamentals := fundamentals c ++ assignedTo "fundamentals" input;
            sql := sql c ++ assignedTo "sql" input;
            nosql := nosql c ++ assignedTo "nosql" input;
            databases := databases c ++ assignedTo "databases" input;
            projects := projects c ++ assignedTo "projects" input;
            utilities := utilities c ++ assignedTo "utilities" input;
            advanced := advanced c ++ assignedTo "advanced" input |}.
Proof.
  induction input as [|item rest IH]; intros c.
  - destruct c; simpl. now rewrite !app_nil_r.
  - simpl categorizeAll. unfold assignedTo. simpl filter.
    pose proof (categorizeItem_key item) as Hkey.
    destruct c as [f s n d p u a]. simpl in Hkey.
    destruct Hkey as [<- | [<- | [<- | [<- | [<- | [<- | [<- | []]]]]]]];
      simpl; rewrite IH; simpl; unfold assignedTo;
      rewrite <- ?app_assoc; reflexivity.
Qed.

Lemma sectionsOf_filter (c : Categories) :
  sectionsOf c
  = filter (fun s => (0 <? List.length (items s))%nat)
      [ mkSection "Fundamentals" (fundamentals c);
        mkSection "SQL" (sql c);
        mkSection "NoSQL" (nosql c);
        mkSection "Databases" (databases c);
        mkSection "Projects" (projects c);
        mkSection "Utilities & Tools" (utilities c);
        mkSection "Advanced Topics" (advanced c) ].
Proof.
  destruct c as [f s n d p u a]. unfold sectionsOf, pushSection. simpl.
  destruct f, s, n, d, p, u, a; reflexivity.
Qed.

(** [categorizeNavigationItems] computes the partition of its input. *)
Lemma categorizeNavigationItems_eq (input : list NavigationItem) :
  categorizeNavigationItems input = Ok (partitionSections input).
Proof.
  unfold categorizeNavigationItems. rewrite categorizeAll_spec. simpl.
  now rewrite sectionsOf_filter.
Qed.

(** *** Partitions by a key *)

Section PartitionByKey.
Context {A : Type}.
Variable f : A -> string.

Lemma filter_split_perm (p : A -> bool) (l : list A) :
  Permutation (filter p l ++ filter (fun x => negb (p x)) l) l.
Proof.
  induction l as [|x l IH]; simpl; [constructor|].
  destruct (p x); simpl.
  - now constructor.
  - rewrite <- Permutation_middle. now constructor.
Qed.

Lemma filter_other_key (k k' : string) (l : list A) :
  k' <> k ->
  filter (fun x => String.eqb (f x) k')
         (filter (fun x => negb (String.eqb (f x) k)) l)
  = filter (fun x => String.eqb (f x) k') l.
Proof.
  intros Hne. induction l as [|x l IH]; simpl; [reflexivity|].
  destruct (String.eqb (f x) k) eqn:Ek; simpl.
  - apply String.eqb_eq in Ek.
    assert (String.eqb (f x) k' = false) as ->
        by (apply String.eqb_neq; congruence).
    exact IH.
  - destruct (String.eqb (f x) k'); now rewrite IH.
Qed.

(** The classes of distinct keys that cover a list are a rearrangement
    of it. *)
Lemma classes_perm (keys : list string) :
  NoDup keys ->
  forall l, (forall x, In x l -> In (f x) keys) ->
  Permutation
    (concat (map (fun k => filter (fun x => String.eqb (f x) k) l) keys)) l.
Proof.
  induction 1 as [|k keys Hk Hnd IH]; intros l Hcover.
  - destruct l as [|x l]; [constructor|].
    destruct (Hcover x (or_introl eq_refl)).
  - simpl.
    etransitivity;
      [|apply (filter_split_perm (fun x => String.eqb (f x) k) l)].
    apply Permutation_app_head.
    rewrite <- (IH (filter (fun x => negb (String.eqb (f x) k)) l)).
    + apply Permutation_refl'. f_equal. apply map_ext_in.
      intros k' Hk'. symmetry. apply filter_other_key. congruence.
    + intros x Hx. apply filter_In in Hx as [Hx Hne].
      destruct (Hcover x Hx) as [E | Hin]; [|exact Hin].
      rewrite <- E, String.eqb_refl in Hne. discriminate.
Qed.
End PartitionByKey.

Lemma concat_items_nonempty (l : list NavigationSection) :
  concat (map items (filter (fun s => (0 <? List.length (items s))%nat) l))
  = concat (map items l).
Proof.
  induction l as [|s l IH]; simpl; [reflexivity|].
  destruct (items s) eqn:E; simpl; [exact IH|].
  now rewrite E, IH.
Qed.

Lemma NoDup_map_filter {A B} (g : A -> B) (p : A -> bool) (l : list A) :
  NoDup (map g l) -> NoDup (map g (filter p l)).
Proof.
  induction l as [|x l IH]; simpl; intros H; [constructor|].
  inversion H as [|? ? Hx Hl]; subst.
  destruct (p x); simpl; [|now apply IH].
  constructor; [|now apply IH].
  intros Hin. apply Hx. apply in_map_iff in Hin as [y [Hy Hin]].
  apply filter_In in Hin as [Hin _]. apply in_map_iff. now exists y.
Qed.

Lemma sectionKeys_NoDup : NoDup sectionKeys.
Proof.
  unfold sectionKeys.
  repeat (constructor; [simpl; intros H; repeat destruct H as [H | H];
                        try discriminate; assumption|]).
  constructor.
Qed.

Lemma sectionTitleOfKey_inj (k k' : string) :
  In k sectionKeys -> In k' sectionKeys ->
  sectionTitleOfKey k = sectionTitleOfKey k' -> k = k'.
Proof.
  simpl. intros Hk Hk'.
  repeat destruct Hk as [<- | Hk]; try contradiction;
    repeat destruct Hk' as [<- | Hk']; try contradiction;
    vm_compute; intros H; try reflexivity; discriminate.
Qed.

Lemma partitionSections_In (input : list NavigationItem) (s : NavigationSection) :
  In s (partitionSections input) ->
  items s <> [] /\
  exists key, In key sectionKeys /\ s = sectionFor input key.
Proof.
  unfold partitionSections. intros H. apply filter_In in H as [Hin Hne].
  split.
  - intros E. rewrite E in Hne. discriminate.
  - apply in_map_iff in Hin as [key [<- Hkey]]. now exists key.
Qed.

(** C3.  [categorizeNavigationItems] never throws, and its sections
    partition the input: the item lists taken together are a rearrangement
    of the input (nothing dropped, nothing duplicated); an input item is in
    a section exactly when the section is the one [categorizeItem] assigns
    it to, and no two sections share a title, so it is in one section only;
    every section lists the input items assigned to its key in their input
    order (a filter of the input); and no section of the output is empty. *)
Theorem categorizeNavigationItems_partitions (input : list NavigationItem) :
  exists sections,
    categorizeNavigationItems input = Ok sections /\
    Permutation (concat (map items sections)) input /\
    NoDup (map section_title sections) /\
    (forall item s, In item input -> In s sections ->
       (In item (items s) <->
        section_title s = sectionTitleOfKey (categorizeItem item))) /\
    Forall (fun s =>
              items s <> [] /\
              exists key, In key sectionKeys /\
                section_title s = sectionTitleOfKey key /\
                items s = filter (fun item => String.eqb (categorizeItem item) key)
                                 input)
           sections /\
    (forall key, In key sectionKeys -> assignedTo key input <> [] ->
       In (sectionFor input key) sections).
Proof.
  exists (partitionSections input).
  split; [apply categorizeNavigationItems_eq|].
  split.
  { unfold partitionSections. rewrite concat_items_nonempty, map_map.
    apply (classes_perm categorizeItem sectionKeys sectionKeys_NoDup).
    intros x _. apply categorizeItem_key. }
  split.
  { unfold partitionSections. apply NoDup_map_filter. rewrite map_map.
    vm_compute.
    repeat (constructor; [simpl; intros H; repeat destruct H as [H | H];
                          try discriminate; assumption|]).
    constructor. }
  split.
  { intros item s Hitem Hs.
    apply partitionSections_In in Hs as [_ [key [Hkey ->]]]. simpl.
    unfold assignedTo. rewrite filter_In. split.
    - intros [_ E]. apply String.eqb_eq in E. now rewrite E.
    - intros E. split; [assumption|]. apply String.eqb_eq. symmetry.
      apply sectionTitleOfKey_inj; [assumption | apply categorizeItem_key
                                    | assumption]. }
  split.
  { apply Forall_forall. intros s Hs.
    apply partitionSections_In in Hs as [Hne [key [Hkey ->]]].
    split; [exact Hne|]. exists key. repeat split; assumption. }
  intros key Hkey Hne. unfold partitionSections. apply filter_In. split.
  - apply in_map_iff. now exists key.
  - simpl. destruct (assignedTo key input); [contradiction | reflexivity].
Qed.

(** *** Category codes in the route *)

Lemma toLowerCase_idem (s : string) :
  JS.toLowerCase (JS.toLowerCase s) = JS.toLowerCase s.
Proof. induction s as [|c s IH]; simpl; [reflexivity|]. now rewrite lower_char_idem, IH. Qed.

Lemma toLowerCase_length (s : string) :
  String.length (JS.toLowerCase s) = String.length s.
Proof. induction s as [|c s IH]; simpl; congruence. Qed.

(** Lower-casing commutes with a split on a separator that is no letter. *)
Lemma split_lower (sep : ascii) (s : string) :
  (forall c, Ascii.eqb (JS.lower_char c) sep = Ascii.eqb c sep) ->
  JS.split sep (JS.toLowerCase s) = map JS.toLowerCase (JS.split sep s).
Proof.
  intros Hsep. induction s as [|c s IH]; [reflexivity|].
  simpl JS.toLowerCase. rewrite !split_cons_eq, Hsep, IH.
  destruct (Ascii.eqb c sep); [reflexivity|].
  now destruct (JS.split sep s).
Qed.

Lemma pathSegments_lower (path : string) :
  pathSegments (JS.toLowerCase path) = map JS.toLowerCase (pathSegments path).
Proof.
  unfold pathSegments. rewrite (split_lower "/" path lower_char_slash).
  induction (JS.split "/" path) as [|w ws IH]; [reflexivity|].
  simpl. rewrite toLowerCase_length, IH. now destruct (0 <? _)%nat.
Qed.

(** The extractor compares the first token without regard to case, so the
    category of a segment is that of the lower-cased segment. *)
Lemma category_lower (segment : string) :
  category (extractCategoryFromPath (JS.toLowerCase segment))
  = category (extractCategoryFromPath segment).
Proof.
  unfold extractCategoryFromPath.
  rewrite (split_lower "-" segment lower_char_hyphen), length_map.
  assert (Hhd : List.hd EmptyString (map JS.toLowerCase (JS.split "-" segment))
                = JS.toLowerCase (List.hd EmptyString (JS.split "-" segment)))
    by now destruct (JS.split "-" segment).
  rewrite Hhd, toLowerCase_idem.
  destruct (1 <? _)%nat; [|reflexivity].
  now destruct (JS.array_includes _ _).
Qed.

Lemma category_is_prefix (segment c : string) :
  category (extractCategoryFromPath segment) = Some c ->
  In c CATEGORY_PREFIXES.
Proof.
  unfold extractCategoryFromPath.
  destruct (1 <? _)%nat; [|discriminate].
  destruct (JS.array_includes _ _) eqn:E; [|discriminate].
  intros H. cbn [category] in H. injection H as <-.
  exact (proj1 (array_includes_In _ _) E).
Qed.

(** Every code of [CATEGORY_PREFIXES] has a [case] in the [switch]. *)
Lemma sectionOfCategory_total (c : string) :
  In c CATEGORY_PREFIXES ->
  String.eqb c "" = false /\ exists section, sectionOfCategory c = Some section.
Proof.
  simpl. intros H.
  repeat destruct H as [<- | H]; try contradiction;
    (split; [reflexivity | eexists; reflexivity]).
Qed.

(** The loop over the segments stops at the first segment with a code. *)
Lemma categoryOfSegments_first (before after : list string) (segment c : string) :
  Forall (fun s => category (extractCategoryFromPath s) = None) before ->
  category (extractCategoryFromPath segment) = Some c ->
  categoryOfSegments (map JS.toLowerCase (before ++ segment :: after))
  = sectionOfCategory c.
Proof.
  intros Hbefore Hseg. induction Hbefore as [|s before Hs _ IH]; simpl.
  - rewrite category_lower, Hseg.
    destruct (sectionOfCategory_total c (category_is_prefix _ _ Hseg))
      as [-> [section ->]]. reflexivity.
  - now rewrite category_lower, Hs.
Qed.

Lemma partitionSections_has (input : list NavigationItem) (item : NavigationItem) :
  In item input ->
  In (sectionFor input (categorizeItem item)) (partitionSections input) /\
  In item (items (sectionFor input (categorizeItem item))).
Proof.
  intros Hin.
  assert (Hitem : In item (assignedTo (categorizeItem item) input)).
  { unfold assignedTo. apply filter_In. split; [assumption|].
    apply String.eqb_refl. }
  split; [|exact Hitem].
  unfold partitionSections. apply filter_In. split.
  - apply in_map_iff. exists (categorizeItem item).
    split; [reflexivity | apply categorizeItem_key].
  - simpl. destruct (assignedTo (categorizeItem item) input);
      [contradiction | reflexivity].
Qed.

(** C2, as stated, fails: the route "/sql-basics/db-foo" has the segment
    "db-foo", whose code "db" maps to "databases", and the item is assigned
    to "sql", the section of the earlier segment "sql-basics". *)
Lemma later_category_code_is_ignored :
  In "db-foo" (pathSegments "/sql-basics/db-foo") /\
  category (extractCategoryFromPath "db-foo") = Some "db" /\
  sectionOfCategory "db" = Some "databases" /\
  categorizeItem (page "Foo" "/sql-basics/db-foo" None) = "sql".
Proof. repeat split; try reflexivity. simpl. tauto. Qed.

(** C2, amended.  When a segment of the route of an item carries a category
    code and no earlier segment carries one, [categorizeItem] answers with
    the section that code maps to, whatever the title, the rest of the route
    and the children are; and [categorizeNavigationItems] lists the item in
    the section of that key. *)
Theorem categorizeItem_first_category_code
  (item : NavigationItem) (before after : list string) (segment c : string) :
  pathSegments (href item) = before ++ segment :: after ->
  Forall (fun s => category (extractCategoryFromPath s) = None) before ->
  category (extractCategoryFromPath segment) = Some c ->
  exists section,
    sectionOfCategory c = Some section /\
    categorizeItem item = section /\
    forall input, In item input ->
      exists sections s,
        categorizeNavigationItems input = Ok sections /\
        In s sections /\
        section_title s = sectionTitleOfKey section /\
        In item (items s).
Proof.
  intros Hsegs Hbefore Hseg.
  destruct (sectionOfCategory_total c (category_is_prefix _ _ Hseg))
    as [_ [section Hsection]].
  assert (Hcat : categorizeItem item = section).
  { unfold categorizeItem.
    rewrite pathSegments_lower, Hsegs,
      (categoryOfSegments_first before after segment c Hbefore Hseg), Hsection.
    reflexivity. }
  exists section. split; [exact Hsection|]. split; [exact Hcat|].
  intros input Hin.
  exists (partitionSections input), (sectionFor input (categorizeItem item)).
  split; [apply categorizeNavigationItems_eq|].
  destruct (partitionSections_has input item Hin) as [Hs Hitem].
  split; [exact Hs|]. split; [|exact Hitem].
  simpl. now rewrite Hcat.
Qed.

(** C2, amended, at a group titled "MySQL Guides" under "/guides/db-foo/mysql":
    the keywords point to "sql", the code "db" decides for "databases". *)
Lemma categorizeItem_first_category_code_witness :
  pathSegments "/guides/db-foo/mysql" = ["guides"] ++ "db-foo" :: ["mysql"] /\
  Forall (fun s => category (extractCategoryFromPath s) = None) ["guides"] /\
  category (extractCategoryFromPath "db-foo") = Some "db" /\
  categorizeItem
    (group "MySQL Guides" "/guides/db-foo/mysql"
       [page "Joins" "/guides/db-foo/mysql/joins" None])
  = "databases".
Proof.
  split; [reflexivity|]. split; [repeat constructor|]. split; [reflexivity|].
  destruct (categorizeItem_first_category_code
              (group "MySQL Guides" "/guides/db-foo/mysql"
                 [page "Joins" "/guides/db-foo/mysql/joins" None])
              ["guides"] ["mysql"] "db-foo" "db"
              eq_refl
              (Forall_cons "guides" eq_refl (Forall_nil _))
              eq_refl)
    as [section [Hsection [Hcat _]]].
  vm_compute in Hsection. injection Hsection as <-. exact Hcat.
Defined.


(** ** Expansion-state projector *)

(** Induction over a navigation tree: a property of the nodes without
    [children] that passes from all the children of a node to the node holds
    of every node. *)
Lemma NavigationItem_tree_ind (P : NavigationItem -> Prop) :
  (forall t h ic o e, P (mkItem t h None ic o e)) ->
  (forall t h cs ic o e, Forall P cs -> P (mkItem t h (Some cs) ic o e)) ->
  forall item, P item.
Proof.
  intros Hleaf Hnode. fix IH 1. intros [t h [cs|] ic o e].
  - apply Hnode. induction cs as [|c cs IHcs]; constructor.
    + apply IH.
    + exact IHcs.
  - apply Hleaf.
Qed.

(** The two tests [isPathInSubtree] makes on a node itself. *)
Lemma onPath_tests (location : string) (item : NavigationItem) :
  String.eqb location (href item)
  || JS.startsWith location (href item ++ "/")%string = true
  <-> onPath location item.
Proof.
  unfold onPath. rewrite orb_true_iff, String.eqb_eq, startsWith_iff.
  split.
  - intros [-> | [rest ->]]; [now left | right].
    exists rest. now rewrite append_assoc.
  - intros [<- | [rest ->]]; [now left | right].
    exists rest. now rewrite append_assoc.
Qed.

Lemma isPathInSubtree_unfold (location : string) (item : NavigationItem) :
  isPathInSubtree location item
  = (String.eqb location (href item)
     || JS.startsWith location (href item ++ "/")%string)
    || match children item with
       | Some cs => existsb (isPathInSubtree location) cs
       | None => false
       end.
Proof.
  destruct item as [t h cs ic o e]. simpl.
  destruct (String.eqb location h); [reflexivity|].
  now destruct (JS.startsWith location (h ++ "/")%string).
Qed.

Lemma nodes_unfold (item : NavigationItem) :
  nodes item = item :: match children item with
                       | Some cs => flat_map nodes cs
                       | None => []
                       end.
Proof. now destruct item. Qed.

(** [isPathInSubtree] holds exactly when some node of the subtree is on the
    path of the location. *)
Lemma isPathInSubtree_nodes (location : string) (item : NavigationItem) :
  isPathInSubtree location item = true
  <-> exists n, In n (nodes item) /\ onPath location n.
Proof.
  induction item as [t h ic o e | t h cs ic o e IH]
    using NavigationItem_tree_ind;
    rewrite isPathInSubtree_unfold, nodes_unfold, orb_true_iff, onPath_tests;
    cbn [children].
  - split.
    + intros [H | H]; [|discriminate]. eexists. split; [now left | exact H].
    + intros [n [[<- | []] H]]. now left.
  - rewrite existsb_exists. split.
    + intros [H | [c [Hc Hsub]]].
      * eexists. split; [now left | exact H].
      * rewrite Forall_forall in IH. apply (IH c Hc) in Hsub as [n [Hn Hon]].
        exists n. split; [|exact Hon]. right. apply in_flat_map. now exists c.
    + intros [n [[<- | Hn] Hon]]; [now left | right].
      apply in_flat_map in Hn as [c [Hc Hn]]. exists c. split; [exact Hc|].
      rewrite Forall_forall in IH. apply (IH c Hc). now exists n.
Qed.

Lemma isPathInSubtree_shouldExpand (location : string) (item : NavigationItem) :
  isPathInSubtree location item = true <-> shouldExpand location item.
Proof.
  rewrite isPathInSubtree_nodes. unfold shouldExpand, descendants.
  rewrite nodes_unfold. cbn [List.tl]. split.
  - intros [n [[<- | Hn] Hon]]; [now left | right; now exists n].
  - intros [Hon | [d [Hd Hon]]].
    + exists item. split; [now left | exact Hon].
    + exists d. split; [now right | exact Hon].
Qed.

Lemma setItemExpandedState_fields (item : NavigationItem) (location : string) :
  isExpanded (setItemExpandedState item location)
  = Some (isPathInSubtree location item) /\
  title (setItemExpandedState item location) = title item /\
  href (setItemExpandedState item location) = href item /\
  icon (setItemExpandedState item location) = icon item /\
  order (setItemExpandedState item location) = order item /\
  children (setItemExpandedState item location)
  = option_map (map (fun child => setItemExpandedState child location))
               (children item).
Proof. destruct item as [t h [cs|] ic o e]; repeat split. Qed.

(** The nodes of the projected tree are the projected nodes of the tree. *)
Lemma nodes_setItemExpandedState (location : string) (item : NavigationItem) :
  nodes (setItemExpandedState item location)
  = map (fun n => setItemExpandedState n location) (nodes item).
Proof.
  induction item as [t h ic o e | t h cs ic o e IH]
    using NavigationItem_tree_ind; [reflexivity|].
  cbn [setItemExpandedState nodes map]. f_equal.
  induction IH as [|c cs Hc Hcs IHcs]; [reflexivity|].
  cbn [map flat_map]. now rewrite map_app, Hc, IHcs.
Qed.

Lemma allNodes_setExpandedState (sections : list NavigationSection)
  (currentPath : string) :
  allNodes (setExpandedState sections currentPath)
  = map (fun n => setItemExpandedState n (normalizePath currentPath))
        (allNodes sections).
Proof.
  unfold allNodes, setExpandedState.
  induction sections as [|s sections IH]; [reflexivity|].
  cbn [map flat_map items]. rewrite map_app, IH. f_equal.
  induction (items s) as [|item l IHl]; [reflexivity|].
  cbn [map flat_map]. now rewrite map_app, nodes_setItemExpandedState, IHl.
Qed.


(** C7, as stated, fails for a location given without its leading slash:
    [setExpandedState] compares the routes with the normalised location
    "/a", so the node whose route is the location "a" itself is marked not
    expanded. *)
Lemma route_equal_to_unnormalised_location_not_expanded :
  href (page "A" "a" None) = "a" /\
  setExpandedState [ {| section_title := "S"; items := [page "A" "a" None] |} ] "a"
  = [ {| section_title := "S";
         items := [ {| title := "A"; href := "a"; children := None;
                       icon := None; order := None;
                       isExpanded := Some false |} ] |} ].
Proof. split; reflexivity. Qed.

(** C7, amended.  [setExpandedState] first normalises the location: a
    location that starts with a slash is kept, and a slash is put in front
    of any other.  Every node of the result is a node of the input with its
    fields kept and [isExpanded] set; it is set to true exactly when the
    route of the node is the normalised location, or the route followed by
    a slash is a prefix of it, or this holds of one of the descendants of
    the node, and to false otherwise.  For the location "/a/b", and for
    "a/b", which is normalised to it: a node with route "/a" is expanded, a
    leaf with route "/a/b/c" is not, and a leaf with route "/ab" is not. *)
Theorem setExpandedState_marks_subtrees_of_location
  (sections : list NavigationSection) (currentPath : string) :
  normalizePath currentPath = normalizedLocation currentPath /\
  (JS.startsWith currentPath "/" = true ->
   normalizePath currentPath = currentPath) /\
  (JS.startsWith currentPath "/" = false ->
   normalizePath currentPath = String "/" currentPath) /\
  map section_title (setExpandedState sections currentPath)
  = map section_title sections /\
  allNodes (setExpandedState sections currentPath)
  = map (fun n => setItemExpandedState n (normalizedLocation currentPath))
        (allNodes sections) /\
  (forall n,
     title (setItemExpandedState n (normalizedLocation currentPath)) = title n /\
     href (setItemExpandedState n (normalizedLocation currentPath)) = href n /\
     exists b,
       isExpanded (setItemExpandedState n (normalizedLocation currentPath))
       = Some b /\
       (b = true <-> shouldExpand (normalizedLocation currentPath) n)) /\
  normalizePath "/a/b" = "/a/b" /\
  normalizePath "a/b" = "/a/b" /\
  (forall t cs ic o e,
     isExpanded (setItemExpandedState (mkItem t "/a" cs ic o e) "/a/b")
     = Some true) /\
  (forall t ic o e,
     isExpanded (setItemExpandedState (mkItem t "/a/b/c" None ic o e) "/a/b")
     = Some false) /\
  (forall t ic o e,
     isExpanded (setItemExpandedState (mkItem t "/ab" None ic o e) "/a/b")
     = Some false) /\
  (forall s t cs ic o e,
     marks (setExpandedState [mkSection s [mkItem t "/a" cs ic o e]] "/a/b")
     = [[Some true]] /\
     marks (setExpandedState [mkSection s [mkItem t "/a" cs ic o e]] "a/b")
     = [[Some true]]) /\
  (forall s t ic o e,
     marks (setExpandedState [mkSection s [mkItem t "/a/b/c" None ic o e]]
              "/a/b")
     = [[Some false]] /\
     marks (setExpandedState [mkSection s [mkItem t "/a/b/c" None ic o e]]
              "a/b")
     = [[Some false]]) /\
  (forall s t ic o e,
     marks (setExpandedState [mkSection s [mkItem t "/ab" None ic o e]] "/a/b")
     = [[Some false]] /\
     marks (setExpandedState [mkSection s [mkItem t "/ab" None ic o e]] "a/b")
     = [[Some false]]).
Proof.
  assert (Hnorm : normalizePath currentPath = normalizedLocation currentPath).
  { unfold normalizePath, normalizedLocation.
    now destruct (JS.startsWith currentPath "/"). }
  split; [exact Hnorm|].
  split.
  { intros H. rewrite Hnorm. unfold normalizedLocation. now rewrite H. }
  split.
  { intros H. rewrite Hnorm. unfold normalizedLocation. now rewrite H. }
  split.
  { unfold setExpandedState. rewrite map_map. reflexivity. }
  rewrite <- Hnorm.
  split; [apply allNodes_setExpandedState|].
  split.
  { intros n.
    destruct (setItemExpandedState_fields n (normalizePath currentPath))
      as [He [Ht [Hh _]]].
    split; [exact Ht|]. split; [exact Hh|].
    exists (isPathInSubtree (normalizePath currentPath) n).
    split; [exact He | apply isPathInSubtree_shouldExpand]. }
  split; [reflexivity|]. split; [reflexivity|].
  split; [intros t [cs|] ic o e; reflexivity|].
  split; [intros; reflexivity|]. split; [intros; reflexivity|].
  split; [intros s t [cs|] ic o e; split; reflexivity|].
  split; intros; split; reflexivity.
Qed.


(** ** Metadata reader *)

Lemma literal_startsWith (lit s : string) :
  JS.startsWith s lit = false -> Regex.literal lit s = None.
Proof.
  revert s. induction lit as [|c lit IH]; intros s; simpl; [discriminate|].
  destruct s as [|d s]; [reflexivity|].
  destruct (Ascii.eqb d c); simpl; [apply IH | reflexivity].
Qed.

(** An unanchored pattern that opens with a literal finds nothing in a text
    that does not contain the literal. *)
Lemma search_needs_literal {A} (lit : string) (k : string -> option A)
  (text : string) :
  JS.includes text lit = false ->
  Regex.search (fun s0 => match Regex.literal lit s0 with
                          | None => None
                          | Some s1 => k s1
                          end) text = None.
Proof.
  induction text as [|c text IH]; simpl; intros H;
    apply orb_false_iff in H as [Hs Hi].
  - now rewrite (literal_startsWith _ _ Hs).
  - rewrite (literal_startsWith _ _ Hs). simpl. now apply IH.
Qed.

Lemma titleRegex_needs_key (frontmatter : string) :
  JS.includes frontmatter "title:" = false ->
  Regex.titleRegex frontmatter = None.
Proof. apply search_needs_literal. Qed.

Lemma orderRegex_needs_key (frontmatter : string) :
  JS.includes frontmatter "order:" = false ->
  Regex.orderRegex frontmatter = None.
Proof. apply search_needs_literal. Qed.

Lemma frontmatterRegex_needs_dashes (content : string) :
  JS.startsWith content "---" = false ->
  Regex.frontmatterRegex content = None.
Proof.
  intros H. unfold Regex.frontmatterRegex.
  now rewrite (literal_startsWith _ _ H).
Qed.

(** What [readMDXMetadata] returns, by the state it runs in. *)
Lemma readMDXMetadata_eq (windowDefined : bool)
  (readFile : string -> exn string) (filePath : string) :
  readMDXMetadata windowDefined readFile filePath
  = Ok (if windowDefined then emptyMetadata
        else match readFile filePath with
             | Throw _ => emptyMetadata
             | Ok content =>
                 match Regex.frontmatterRegex content with
                 | None => emptyMetadata
                 | Some frontmatter =>
                     {| md_title := Regex.titleRegex frontmatter;
                        md_order := option_map parseInt
                                      (Regex.orderRegex frontmatter) |}
                 end
             end).
Proof.
  unfold readMDXMetadata, readMDXMetadata_body.
  destruct windowDefined; [reflexivity|].
  now destruct (readFile filePath).
Qed.

(** C9.  [readMDXMetadata] never throws: in every state it returns a
    metadata record.  The record is empty when a [window] is defined (no
    file-system access) and when reading the file throws (the file is
    missing or unreadable).  When the file is read, a field is set only from
    a match of its pattern inside a front-matter block: without such a
    block both fields are undefined, and in a block the title is the capture
    of the title pattern and the order is the number captured by the order
    pattern, each undefined when its pattern does not match (as when the
    block has no "title:", or no "order:"). *)
Theorem readMDXMetadata_fails_soft (windowDefined : bool)
  (readFile : string -> exn string) (filePath : string) :
  exists metadata,
    readMDXMetadata windowDefined readFile filePath = Ok metadata /\
    (windowDefined = true -> metadata = emptyMetadata) /\
    (forall error, readFile filePath = Throw error ->
       metadata = emptyMetadata) /\
    (forall content,
       windowDefined = false -> readFile filePath = Ok content ->
       (Regex.frontmatterRegex content = None -> metadata = emptyMetadata) /\
       (JS.startsWith content "---" = false -> metadata = emptyMetadata) /\
       (forall frontmatter,
          Regex.frontmatterRegex content = Some frontmatter ->
          md_title metadata = Regex.titleRegex frontmatter /\
          md_order metadata
          = option_map parseInt (Regex.orderRegex frontmatter) /\
          (Regex.titleRegex frontmatter = None -> md_title metadata = None) /\
          (Regex.orderRegex frontmatter = None -> md_order metadata = None) /\
          (JS.includes frontmatter "title:" = false ->
           md_title metadata = None) /\
          (JS.includes frontmatter "order:" = false ->
           md_order metadata = None))).
Proof.
  eexists. split; [apply readMDXMetadata_eq|].
  split; [intros ->; reflexivity|].
  split.
  { intros error ->. now destruct windowDefined. }
  intros content -> ->. split; [intros ->; reflexivity|].
  split.
  { intros H. now rewrite (frontmatterRegex_needs_dashes _ H). }
  intros frontmatter ->. cbn [md_title md_order].
  split; [reflexivity|]. split; [reflexivity|].
  split; [intros ->; reflexivity|]. split; [intros ->; reflexivity|].
  split; intros H.
  - apply titleRegex_needs_key, H.
  - now rewrite (orderRegex_needs_key _ H).
Qed.


(** Examples of the three patterns. *)
Example frontmatter_of_sample :
  Regex.frontmatterRegex sampleFile
  = Some ("title: " ++ dq ++ "Custom Name" ++ dq ++ nl ++ "order: 2")%string.
Proof. reflexivity. Qed.

Example frontmatter_backtracks :
  Regex.frontmatterRegex
    ("--- " ++ nl ++ nl ++ "x" ++ nl ++ "---" ++ nl ++ "y" ++ nl ++ "---")%string
  = Some "x".
Proof. reflexivity. Qed.

Example title_is_greedy :
  Regex.titleRegex
    ("title: " ++ dq ++ "Custom " ++ dq ++ " Name" ++ dq ++ " x" ++ nl
     ++ "order: 2")%string
  = Some ("Custom " ++ dq ++ " Name")%string.
Proof. reflexivity. Qed.

Example title_tries_later_positions :
  Regex.titleRegex ("title: " ++ dq ++ dq ++ nl ++ "subtitle:  'ab' ")%string
  = Some "ab".
Proof. reflexivity. Qed.

Example order_skips_non_digits :
  option_map parseInt
    (Regex.orderRegex ("order: x order:" ++ nl ++ "  0123 4")%string)
  = Some 123%Z.
Proof. reflexivity. Qed.

(** The scenario of the specification: the title and the order of the front
    matter are returned. *)
Example readMDXMetadata_sample :
  readMDXMetadata false (fun _ => Ok sampleFile) "src/app/x/page.mdx"
  = Ok {| md_title := Some "Custom Name"; md_order := Some 2%Z |}.
Proof. reflexivity. Qed.

(** A title without quotes does not match: it stays undefined, the order is
    still read. *)
Example readMDXMetadata_unquoted_title :
  readMDXMetadata false
    (fun _ => Ok ("---" ++ nl ++ "title: Custom Name" ++ nl ++ "order: 7"
                  ++ nl ++ "---")%string)
    "src/app/x/page.mdx"
  = Ok {| md_title := None; md_order := Some 7%Z |}.
Proof. reflexivity. Qed.


(** ** Directory scanner *)

(** Induction over a content tree. *)
Lemma FsNode_tree_ind (P : FsNode -> Prop) :
  (forall content, P (FsFile content)) ->
  (forall listable entries,
      Forall (fun e => P (snd e)) entries -> P (FsDir listable entries)) ->
  forall node, P node.
Proof.
  intros Hfile Hdir. fix IH 1. intros [content | listable entries].
  - apply Hfile.
  - apply Hdir. induction entries as [|[name node] entries IHentries];
      constructor.
    + apply IH.
    + exact IHentries.
Qed.

Lemma steady_intro {A} (m : scan (list A)) (items : list A) (extra : Console) :
  (forall log, m log = (Ok items, log ++ extra)) ->
  steady m /\ outcome m = items /\ written m = extra.
Proof.
  intros H. pose proof (H []) as H0. simpl in H0.
  assert (Ho : outcome m = items) by (unfold outcome; now rewrite H0).
  assert (Hw : written m = extra) by (unfold written; now rewrite H0).
  split; [|now split]. intros log. now rewrite Ho, Hw.
Qed.

(** *** What a directory looks like from its parent *)

Lemma lookupEntry_map (g : FsNode -> FsNode) (listable listable' : bool)
  (entries : list (string * FsNode)) (name : string) :
  lookupEntry (FsDir listable' (map (fun '(n, node) => (n, g node)) entries)) name
  = option_map g (lookupEntry (FsDir listable entries) name).
Proof.
  simpl. induction entries as [|[n node] entries IH]; [reflexivity|].
  simpl. destruct (String.eqb n name); [reflexivity | exact IH].
Qed.

(** Healing keeps the names, the files and the kinds of the entries of a
    directory. *)
Lemma lookupEntry_heal (dir : FsNode) (name : string) :
  match lookupEntry dir name, lookupEntry (heal dir) name with
  | None, None => True
  | Some (FsFile c), Some (FsFile c') => c = c'
  | Some (FsDir _ _), Some (FsDir _ _) => True
  | _, _ => False
  end.
Proof.
  destruct dir as [content | [|] entries].
  - exact I.
  - cbn [heal]. rewrite (lookupEntry_map heal true true).
    destruct (lookupEntry (FsDir true entries) name) as [[c | [|] es]|];
      simpl; auto.
  - cbn [heal]. unfold emptied.
    rewrite (lookupEntry_map emptiedNode false true).
    destruct (lookupEntry (FsDir false entries) name) as [[c | l es]|];
      simpl; auto.
Qed.

Lemma existsSync_heal (dir : FsNode) (name : string) :
  existsSync (heal dir) name = existsSync dir name.
Proof.
  unfold existsSync. pose proof (lookupEntry_heal dir name) as H.
  destruct (lookupEntry dir name) as [[c | l es]|],
           (lookupEntry (heal dir) name) as [[c' | l' es']|];
    simpl in H; try contradiction; reflexivity.
Qed.

Lemma readFileSync_heal (dir : FsNode) (name : string) :
  readFileSync (heal dir) name = readFileSync dir name.
Proof.
  unfold readFileSync. pose proof (lookupEntry_heal dir name) as H.
  destruct (lookupEntry dir name) as [[c | l es]|],
           (lookupEntry (heal dir) name) as [[c' | l' es']|];
    simpl in H; try contradiction; subst; reflexivity.
Qed.

Lemma isDirectory_heal (dir : FsNode) : isDirectory (heal dir) = isDirectory dir.
Proof. now destruct dir as [c | [|] es]. Qed.

Section ScannerFacts.
Variable localeCompare : string -> string -> Z.
Variable windowDefined : bool.

(** What a directory adds to the items of its parent is returned without a
    throw and without a line on the console. *)
Lemma itemsOfDirectory_quiet (name fullPath routePath : string)
  (node : FsNode) (children : list NavigationItem) :
  exists added, forall log,
    itemsOfDirectory localeCompare windowDefined name fullPath routePath node children log = (Ok added, log).
Proof.
  unfold itemsOfDirectory.
  destruct (existsb (existsSync node) pageFiles) eqn:Hhas.
  - destruct (find (existsSync node) pageFiles) as [pageFile|] eqn:Hfind.
    + unfold scan_bind, scan_lift, scan_ret. rewrite readMDXMetadata_eq.
      eexists. intros log. reflexivity.
    + exfalso. apply existsb_exists in Hhas as [f [Hf Hex]].
      pose proof (find_none _ _ Hfind f Hf). congruence.
  - destruct (0 <? List.length children)%nat; eexists; intros log; reflexivity.
Qed.

(** It depends on the directory through [existsSync] and [readFileSync]
    only, so healing the directory does not change it. *)
Lemma itemsOfDirectory_heal (name fullPath routePath : string)
  (node : FsNode) (children : list NavigationItem) :
  itemsOfDirectory localeCompare windowDefined name fullPath routePath (heal node) children
  = itemsOfDirectory localeCompare windowDefined name fullPath routePath node children.
Proof.
  unfold itemsOfDirectory, readMDXMetadata, readMDXMetadata_body,
    pageFiles.
  cbn [existsb find]. rewrite !existsSync_heal.
  destruct (existsSync node "page.tsx"), (existsSync node "page.mdx"),
           (existsSync node "page.js"); cbn [orb];
    rewrite ?readFileSync_heal; reflexivity.
Qed.
(** One step of [scanDirectory] on a directory that can be listed. *)
Lemma scanDirectory_listable (entries : list (string * FsNode))
  (dirPath basePath : string) :
  (scanDirectory localeCompare windowDefined) (FsDir true entries) dirPath basePath
  = scan_try
      (scan_bind
         (scanEntries localeCompare windowDefined (scanDirectory localeCompare windowDefined) dirPath basePath
            entries [])
         (fun items => scan_ret (sortNavigationItems localeCompare items)))
      (fun error =>
         scan_bind (console_error dirPath error) (fun _ => scan_ret [])).
Proof. reflexivity. Qed.

(** A directory that cannot be listed, and a path that is no directory: the
    error is caught and logged, and the scan returns no item. *)
Lemma scanDirectory_unlistable (entries : list (string * FsNode))
  (dirPath basePath : string) (log : Console) :
  (scanDirectory localeCompare windowDefined) (FsDir false entries) dirPath basePath log
  = (Ok [],
     log ++ [("Error scanning directory: " ++ dirPath ++ " EACCES")%string]).
Proof. reflexivity. Qed.

Lemma scanDirectory_file (content : option string)
  (dirPath basePath : string) (log : Console) :
  (scanDirectory localeCompare windowDefined) (FsFile content) dirPath basePath log
  = (Ok [],
     log ++ [("Error scanning directory: " ++ dirPath ++ " ENOTDIR")%string]).
Proof. reflexivity. Qed.

(** The loop over the entries of an emptied directory adds nothing and
    writes nothing. *)
Lemma scanEntries_emptied (entries : list (string * FsNode))
  (dirPath basePath : string) :
  forall items log,
    scanEntries localeCompare windowDefined (scanDirectory localeCompare windowDefined) dirPath basePath
      (emptied entries) items log
    = (Ok items, log).
Proof.
  induction entries as [|[name node] entries IH]; intros items log;
    [reflexivity|].
  cbn [emptied map scanEntries]. fold (emptied entries).
  destruct (skippedEntry name); [apply IH|].
  destruct node as [content | listable sub]; cbn [emptiedNode isDirectory];
    [apply IH|].
  unfold scan_bind at 1.
  change ((scanDirectory localeCompare windowDefined) (FsDir true []) (joinPath dirPath name)
            (basePath ++ "/" ++ name)%string log)
    with (@Ok (list NavigationItem) [], log).
  cbn iota.
  unfold scan_bind at 1.
  change (itemsOfDirectory localeCompare windowDefined name
            (joinPath dirPath name) (basePath ++ "/" ++ name)%string
            (FsDir true []) [] log)
    with (@Ok (list NavigationItem) [], log).
  cbn iota. rewrite app_nil_r. apply IH.
Qed.

Lemma scanEntries_frames (entries : list (string * FsNode)) :
  Forall (fun e => frames localeCompare windowDefined (snd e)) entries ->
  forall dirPath basePath,
  exists added extra extra',
    (forall items log,
        scanEntries localeCompare windowDefined (scanDirectory localeCompare windowDefined) dirPath basePath
          entries items log
        = (Ok (items ++ added), log ++ extra)) /\
    (forall items log,
        scanEntries localeCompare windowDefined (scanDirectory localeCompare windowDefined) dirPath basePath
          (map (fun '(name, node) => (name, heal node)) entries) items log
        = (Ok (items ++ added), log ++ extra')).
Proof.
  induction 1 as [|[name node] entries Hnode _ IH]; intros dirPath basePath.
  - exists [], [], []. split; intros items log; simpl; unfold scan_ret;
      now rewrite !app_nil_r.
  - destruct (IH dirPath basePath) as [added [extra [extra' [Hloop Hloop']]]].
    cbn [map scanEntries]. rewrite isDirectory_heal.
    destruct (skippedEntry name);
      [exists added, extra, extra'; now split|].
    destruct (isDirectory node);
      [|exists added, extra, extra'; now split].
    destruct (Hnode (joinPath dirPath name) (basePath ++ "/" ++ name)%string)
      as [children [ex [ex' [Hscan Hscan']]]]. simpl snd in *.
    destruct (itemsOfDirectory_quiet name (joinPath dirPath name)
                (basePath ++ "/" ++ name)%string node children)
      as [one Hone].
    exists (one ++ added), (ex ++ extra), (ex' ++ extra').
    split; intros items log; unfold scan_bind.
    + rewrite Hscan, Hone, Hloop.
      now rewrite !app_assoc.
    + rewrite Hscan', itemsOfDirectory_heal.
      rewrite Hone, Hloop'. now rewrite !app_assoc.
Qed.

Lemma scanDirectory_frames (node : FsNode) :
  frames localeCompare windowDefined node.
Proof.
  induction node as [content | listable entries IH] using FsNode_tree_ind;
    intros dirPath basePath.
  - eexists [], _, _. split; intros log; apply scanDirectory_file.
  - destruct listable.
    + destruct (scanEntries_frames entries IH dirPath basePath)
        as [added [extra [extra' [Hloop Hloop']]]].
      exists (sortNavigationItems localeCompare added), extra, extra'.
      split; intros log; cbn [heal]; rewrite scanDirectory_listable;
        unfold scan_try, scan_bind, scan_ret.
      * now rewrite Hloop.
      * now rewrite Hloop'.
    + eexists [], _, []. split; intros log.
      * apply scanDirectory_unlistable.
      * cbn [heal]. rewrite scanDirectory_listable.
        unfold scan_try, scan_bind, scan_ret.
        rewrite scanEntries_emptied. now rewrite app_nil_r.
Qed.
Lemma scanDirectory_steady (node : FsNode) (dirPath basePath : string) :
  steady (scanDirectory localeCompare windowDefined node dirPath basePath).
Proof.
  destruct (scanDirectory_frames node dirPath basePath)
    as [items [extra [extra' [H _]]]].
  now apply (steady_intro _ items extra).
Qed.

(** The items of a tree are the items of the healed tree. *)
Lemma scanDirectory_heal (node : FsNode) (dirPath basePath : string) :
  outcome (scanDirectory localeCompare windowDefined (heal node) dirPath basePath)
  = outcome (scanDirectory localeCompare windowDefined node dirPath basePath).
Proof.
  destruct (scanDirectory_frames node dirPath basePath)
    as [items [extra [extra' [H H']]]].
  destruct (steady_intro _ items extra H) as [_ [-> _]].
  destruct (steady_intro _ items extra' H') as [_ [-> _]].
  reflexivity.
Qed.

(** The loop over two runs of entries is the loop over the first followed
    by the loop over the second. *)
Lemma scanEntries_app (before after : list (string * FsNode))
  (dirPath basePath : string) :
  forall items log,
    scanEntries localeCompare windowDefined
      (scanDirectory localeCompare windowDefined) dirPath basePath
      (before ++ after) items log
    = scan_bind
        (scanEntries localeCompare windowDefined
           (scanDirectory localeCompare windowDefined) dirPath basePath
           before items)
        (scanEntries localeCompare windowDefined
           (scanDirectory localeCompare windowDefined) dirPath basePath after)
        log.
Proof.
  induction before as [|[name node] before IH]; intros items log;
    [reflexivity|].
  cbn [app scanEntries].
  destruct (skippedEntry name); [apply IH|].
  destruct (isDirectory node); [|apply IH].
  unfold scan_bind in *.
  destruct (scanDirectory localeCompare windowDefined node _ _ log)
    as [[children | error] log1]; [|reflexivity].
  destruct (itemsOfDirectory localeCompare windowDefined name _ _ node
              children log1) as [[added | error] log2]; [|reflexivity].
  apply IH.
Qed.

(** A directory that cannot be listed and has no page file leaves the items
    of the loop as they are without it. *)
Lemma scanEntries_without_unlistable (before after : list (string * FsNode))
  (name : string) (entries : list (string * FsNode))
  (dirPath basePath : string) :
  existsb (existsSync (FsDir false entries)) pageFiles = false ->
  forall items log,
    fst (scanEntries localeCompare windowDefined
           (scanDirectory localeCompare windowDefined) dirPath basePath
           (before ++ (name, FsDir false entries) :: after) items log)
    = fst (scanEntries localeCompare windowDefined
             (scanDirectory localeCompare windowDefined) dirPath basePath
             (before ++ after) items log).
Proof.
  intros Hnopage items log. rewrite !scanEntries_app. unfold scan_bind.
  destruct (scanEntries _ _ _ _ _ before items log) as [[items' | error] log'];
    [|reflexivity].
  assert (Hafter : Forall (fun e => frames localeCompare windowDefined (snd e))
                          after)
    by (apply Forall_forall; intros e _; apply scanDirectory_frames).
  destruct (scanEntries_frames after Hafter dirPath basePath)
    as [added [extra [_ [Hloop _]]]].
  cbn [scanEntries]. destruct (skippedEntry name); [reflexivity|].
  cbn [isDirectory]. unfold scan_bind.
  rewrite scanDirectory_unlistable.
  unfold itemsOfDirectory. rewrite Hnopage. cbn [List.length Nat.ltb Nat.leb].
  unfold scan_bind, scan_ret. rewrite app_nil_r, !Hloop. reflexivity.
Qed.

Lemma outcome_listable (entries : list (string * FsNode))
  (dirPath basePath : string) :
  outcome (scanDirectory localeCompare windowDefined (FsDir true entries)
             dirPath basePath)
  = match fst (scanEntries localeCompare windowDefined
                 (scanDirectory localeCompare windowDefined) dirPath basePath
                 entries [] []) with
    | Ok items => sortNavigationItems localeCompare items
    | Throw _ => []
    end.
Proof.
  unfold outcome. rewrite scanDirectory_listable.
  unfold scan_try, scan_bind, scan_ret, console_error.
  now destruct (scanEntries _ _ _ _ _ entries [] []) as [[items | error] log].
Qed.
End ScannerFacts.

Lemma heal_emptied (entries : list (string * FsNode)) :
  map (fun '(name, node) => (name, heal node)) (emptied entries)
  = emptied entries.
Proof.
  unfold emptied. rewrite map_map. apply map_ext.
  now intros [name [content | listable sub]].
Qed.

(** The tree with one unlistable directory among its entries and the tree
    with that directory emptied heal to the same tree. *)
Lemma heal_one_unlistable (before after : list (string * FsNode))
  (name : string) (entries : list (string * FsNode)) :
  heal (FsDir true (before ++ (name, FsDir false entries) :: after))
  = heal (FsDir true (before ++ (name, FsDir true (emptied entries)) :: after)).
Proof.
  cbn [heal]. rewrite !map_app. cbn [map heal]. now rewrite heal_emptied.
Qed.

(** C8, as stated, fails when the failing directory has a page file: its
    own node is still produced, without children, and a parent without page
    file is kept for it.  In [guidesTree] the directory [guides/db-broken]
    cannot be listed; the scan has the node "Guides" with the child
    "Broken", and without [db-broken] it has neither. *)
Lemma failing_directory_with_page_keeps_its_node :
  scanDirectory codeUnitCompare false guidesTree "src/app" "" []
  = (Ok [ page "Intro" "/fund-intro" None;
          group "Guides" "/guides" [page "Broken" "/guides/db-broken" None] ],
     [ "Error scanning directory: src/app/guides/db-broken EACCES" ]) /\
  scanDirectory codeUnitCompare false guidesTreeWithout "src/app" "" []
  = (Ok [ page "Intro" "/fund-intro" None ], []).
Proof. split; reflexivity. Qed.

(** C8, amended.  Over every content tree [scanDirectory] returns, without
    raising: on every console it returns its items and only appends lines.
    For a directory whose listing fails it returns the empty sequence and
    logs one line.  The items of a whole tree are those of the healed tree,
    in which each failing directory is listable and has nothing below it
    (its own node, when it has a page file, is produced without children);
    so with one failing directory among the entries of a directory, the
    items are those of the tree where that directory is emptied, and, when
    the failing directory has no page file of its own, those of the tree
    without the directory.  A failing listing never aborts the scan. *)
Theorem scanDirectory_survives_failing_listing
  (localeCompare : string -> string -> Z) (windowDefined : bool) :
  (forall entries dirPath basePath log,
     scanDirectory localeCompare windowDefined (FsDir false entries)
       dirPath basePath log
     = (Ok [],
        log ++ [("Error scanning directory: " ++ dirPath ++ " EACCES")%string]))
  /\
  (forall dir dirPath basePath log,
     scanDirectory localeCompare windowDefined dir dirPath basePath log
     = (Ok (outcome (scanDirectory localeCompare windowDefined dir dirPath
                       basePath)),
        log ++ written (scanDirectory localeCompare windowDefined dir dirPath
                          basePath)))
  /\
  (forall dir dirPath basePath,
     outcome (scanDirectory localeCompare windowDefined dir dirPath basePath)
     = outcome (scanDirectory localeCompare windowDefined (heal dir) dirPath
                  basePath))
  /\
  (forall before after name entries dirPath basePath,
     outcome (scanDirectory localeCompare windowDefined
                (FsDir true (before ++ (name, FsDir false entries) :: after))
                dirPath basePath)
     = outcome (scanDirectory localeCompare windowDefined
                  (FsDir true
                     (before ++ (name, FsDir true (emptied entries)) :: after))
                  dirPath basePath))
  /\
  (forall before after name entries dirPath basePath,
     existsb (existsSync (FsDir false entries)) pageFiles = false ->
     outcome (scanDirectory localeCompare windowDefined
                (FsDir true (before ++ (name, FsDir false entries) :: after))
                dirPath basePath)
     = outcome (scanDirectory localeCompare windowDefined
                  (FsDir true (before ++ after)) dirPath basePath)).
Proof.
  split; [intros; apply scanDirectory_unlistable|].
  split; [intros dir dirPath basePath; apply scanDirectory_steady|].
  split; [intros; symmetry; apply scanDirectory_heal|].
  split.
  - intros before after name entries dirPath basePath.
    rewrite <- (scanDirectory_heal _ _ (FsDir true (before ++ _ :: after))).
    rewrite heal_one_unlistable. apply scanDirectory_heal.
  - intros before after name entries dirPath basePath Hnopage.
    rewrite !outcome_listable.
    now rewrite (scanEntries_without_unlistable _ _ before after name entries
                   dirPath basePath Hnopage).
Qed.

(** The scenario of the specification. *)
Example scan_sample_tree :
  scanDirectory codeUnitCompare false sampleTree "src/app" "" []
  = (Ok [ page "Intro" "/fund-intro" None;
          group "Storage" "/db-storage"
            [page "Sub Topic" "/db-storage/sub-topic" None] ],
     []).
Proof. reflexivity. Qed.

Example categorize_sample_tree :
  exn_bind (fst (scanDirectory codeUnitCompare false sampleTree "src/app" "" []))
           categorizeNavigationItems
  = Ok [ {| section_title := "Fundamentals";
            items := [page "Intro" "/fund-intro" None] |};
         {| section_title := "Databases";
            items := [ group "Storage" "/db-storage"
                         [page "Sub Topic" "/db-storage/sub-topic" None] ] |} ].
Proof. reflexivity. Qed.

(** With [db-storage] unlistable its node has no children, one line is
    logged, and [fund-intro] is scanned as before. *)
Example scan_broken_tree :
  scanDirectory codeUnitCompare false brokenTree "src/app" "" []
  = (Ok [ page "Intro" "/fund-intro" None;
          page "Storage" "/db-storage" None ],
     [ "Error scanning directory: src/app/db-storage EACCES" ]).
Proof. reflexivity. Qed.


(* ===================================================================== *)
(** * Further properties of the code *)
(* ===================================================================== *)

(** ** Title formatter and category extractor *)

Lemma lower_upper_char c : JS.lower_char (JS.upper_char c) = JS.lower_char c.
Proof. ascii_cases c. Qed.

Lemma toLowerCase_app (a b : string) :
  JS.toLowerCase (a ++ b)%string = (JS.toLowerCase a ++ JS.toLowerCase b)%string.
Proof. induction a as [|c a IH]; simpl; congruence. Qed.

Lemma toLowerCase_capitalize (word : string) :
  JS.toLowerCase (capitalize word) = JS.toLowerCase word.
Proof.
  destruct word as [|c w]; [reflexivity|].
  unfold capitalize. simpl. now rewrite lower_upper_char.
Qed.

Lemma toLowerCase_join (sep : string) (l : list string) :
  JS.toLowerCase (JS.join sep l)
  = JS.join (JS.toLowerCase sep) (map JS.toLowerCase l).
Proof.
  unfold JS.join. induction l as [|w l IH]; [reflexivity|].
  destruct l as [|w' l]; [reflexivity|].
  change (String.concat sep (w :: w' :: l))
    with (w ++ sep ++ String.concat sep (w' :: l))%string.
  rewrite !toLowerCase_app, IH. reflexivity.
Qed.

Lemma toLowerCase_titleWord (word : string) (index : nat) (array : list string) :
  JS.includes word "-" = false ->
  JS.toLowerCase (titleWord word index array) = JS.toLowerCase word.
Proof.
  intros H. rewrite (titleWord_noHyphen _ _ _ H).
  unfold titleWord_noHyphenBranch. split_ifs;
    rewrite ?toLowerCase_capitalize; reflexivity.
Qed.

Lemma map_map_from {A B C} (g : B -> C) (f : A -> nat -> B) (l : list A) :
  forall i, map g (JS.map_from f i l) = JS.map_from (fun x j => g (f x j)) i l.
Proof. induction l as [|x l IH]; intros i; simpl; [reflexivity|]. now rewrite IH. Qed.

Lemma map_from_const {A B} (g : A -> B) (l : list A) :
  forall i, JS.map_from (fun x _ => g x) i l = map g l.
Proof. induction l as [|x l IH]; intros i; simpl; [reflexivity|]. now rewrite IH. Qed.

(** Joining the tokens with a space replaces the hyphens by spaces. *)
Lemma join_space_split (s : string) :
  JS.join " " (JS.split "-" s) = hyphensToSpaces s.
Proof.
  unfold JS.join. induction s as [|c s IH]; [reflexivity|].
  rewrite split_cons_eq. simpl hyphensToSpaces.
  pose proof (split_nonempty "-" s) as Hne.
  destruct (JS.split "-" s) as [|w ws]; [contradiction|].
  destruct (Ascii.eqb c "-").
  - change (String.concat " " ("" :: w :: ws))
      with (String " " (String.concat " " (w :: ws))).
    now rewrite IH.
  - destruct ws as [|w' ws].
    + simpl in *. now rewrite IH.
    + change (String.concat " " (String c w :: w' :: ws))
        with (String c (w ++ " " ++ String.concat " " (w' :: ws)))%string.
      f_equal. exact IH.
Qed.

Lemma hyphensToSpaces_length (s : string) :
  String.length (hyphensToSpaces s) = String.length s.
Proof. induction s as [|c s IH]; simpl; congruence. Qed.

Lemma hyphensToSpaces_no_hyphen (s : string) :
  JS.has_char "-" (hyphensToSpaces s) = false.
Proof.
  induction s as [|c s IH]; [reflexivity|]. simpl. rewrite IH.
  destruct (Ascii.eqb c "-") eqn:E; [reflexivity|]. now rewrite E.
Qed.

Lemma has_char_lower_hyphen (s : string) :
  JS.has_char "-" (JS.toLowerCase s) = JS.has_char "-" s.
Proof.
  induction s as [|c s IH]; simpl; [reflexivity|].
  now rewrite lower_char_hyphen, IH.
Qed.

(** X1.  [toSmartTitleCase] is idempotent on every input string, the names
    that take the early return for "use" included: such a name carries no
    category code, so a second pass returns it again. *)
Theorem toSmartTitleCase_idempotent_total (str : string) :
  toSmartTitleCase (toSmartTitleCase str) = toSmartTitleCase str.
Proof.
  unfold toSmartTitleCase at 2 3.
  destruct (useException _) eqn:Huse; [now apply toSmartTitleCase_use|].
  destruct (String.eqb _ "jQuery"); [reflexivity|].
  destruct (titled_tokens_shape (cleanName (extractCategoryFromPath str)))
    as [Hfree Hcap].
  destruct (toSmartTitleCase_hyphen_free _ Hfree) as [-> | ->];
    [reflexivity | exact Hcap].
Qed.

(** X2.  On an ASCII string the title [toSmartTitleCase] returns is the
    clean name of its argument up to letter case, with every hyphen replaced
    by a space (and the clean name itself for the names of the early return
    for "use"): the formatter changes the case of letters and the separators
    and nothing else.  So the title is as long as the clean name, and
    outside the early return it has no hyphen. *)
Theorem toSmartTitleCase_keeps_letters (str : string) :
  isAscii str = true ->
  JS.toLowerCase (toSmartTitleCase str)
  = (if useException (cleanName (extractCategoryFromPath str))
     then JS.toLowerCase (cleanName (extractCategoryFromPath str))
     else hyphensToSpaces
            (JS.toLowerCase (cleanName (extractCategoryFromPath str)))) /\
  String.length (toSmartTitleCase str)
  = String.length (cleanName (extractCategoryFromPath str)) /\
  (useException (cleanName (extractCategoryFromPath str)) = false ->
   JS.has_char "-" (toSmartTitleCase str) = false).
Proof.
  intros _.
  assert (Hlow :
    JS.toLowerCase (toSmartTitleCase str)
    = (if useException (cleanName (extractCategoryFromPath str))
       then JS.toLowerCase (cleanName (extractCategoryFromPath str))
       else hyphensToSpaces
              (JS.toLowerCase (cleanName (extractCategoryFromPath str))))).
  { unfold toSmartTitleCase.
    destruct (useException _); [reflexivity|].
    destruct (String.eqb _ "jQuery") eqn:E.
    - apply String.eqb_eq in E. now rewrite E.
    - rewrite toLowerCase_join. unfold JS.mapi. rewrite map_map_from.
      rewrite (map_from_ext_in _ (fun x _ => JS.toLowerCase x)).
      + rewrite map_from_const, <- (split_lower "-" _ lower_char_hyphen).
        apply join_space_split.
      + intros w i Hw. apply toLowerCase_titleWord.
        pose proof (split_hyphen_tokens
                      (cleanName (extractCategoryFromPath str))) as H.
        rewrite Forall_forall in H. now apply H. }
  split; [exact Hlow|]. split.
  - rewrite <- (toLowerCase_length (toSmartTitleCase str)), Hlow.
    destruct (useException _);
      now rewrite ?hyphensToSpaces_length, toLowerCase_length.
  - intros Huse. rewrite Huse in Hlow.
    rewrite <- has_char_lower_hyphen, Hlow. apply hyphensToSpaces_no_hyphen.
Qed.

(** X2 at "db-data-storage-and-caching". *)
Lemma toSmartTitleCase_keeps_letters_witness :
  isAscii "db-data-storage-and-caching" = true /\
  toSmartTitleCase "db-data-storage-and-caching" = "Data Storage and Caching" /\
  JS.toLowerCase (toSmartTitleCase "db-data-storage-and-caching")
  = hyphensToSpaces "data-storage-and-caching".
Proof.
  split; [reflexivity|]. split; [reflexivity|].
  destruct (toSmartTitleCase_keeps_letters "db-data-storage-and-caching"
              eq_refl) as [H _].
  exact H.
Defined.

(** X3.  [extractCategoryFromPath] does not look at the letter case of its
    argument to find the category: the lower-cased segment has the category
    of the segment, and its clean name is the lower-cased clean name. *)
Theorem extractCategoryFromPath_ignores_case (segment : string) :
  extractCategoryFromPath (JS.toLowerCase segment)
  = {| category := category (extractCategoryFromPath segment);
       cleanName := JS.toLowerCase (cleanName (extractCategoryFromPath segment)) |}.
Proof.
  unfold extractCategoryFromPath.
  rewrite (split_lower "-" segment lower_char_hyphen), length_map.
  assert (Hhd : List.hd EmptyString (map JS.toLowerCase (JS.split "-" segment))
                = JS.toLowerCase (List.hd EmptyString (JS.split "-" segment)))
    by now destruct (JS.split "-" segment).
  rewrite Hhd, toLowerCase_idem.
  destruct (1 <? _)%nat; [|reflexivity].
  destruct (JS.array_includes _ _); [|reflexivity].
  cbn [category cleanName]. f_equal.
  rewrite toLowerCase_join. unfold JS.tail.
  now destruct (JS.split "-" segment).
Qed.

(** ** Sorter *)

Section ArraySortRelation.
Context {A : Type}.
Variable compare : A -> A -> Z.
Variable R : A -> A -> Prop.
Hypothesis R_trans : forall a b c, R a b -> R b c -> R a c.
Hypothesis R_le : forall a b, (compare a b <= 0)%Z -> R a b.
Hypothesis R_gt : forall a b, (compare a b > 0)%Z -> R b a.

Lemma sort_insert_rel_sorted (x : A) (l : list A) :
  StronglySorted R l -> StronglySorted R (sort_insert compare x l).
Proof.
  induction 1 as [|y l Hl IH Hy]; simpl.
  - repeat constructor.
  - destruct (compare x y <=? 0)%Z eqn:E.
    + apply Z.leb_le in E. apply R_le in E.
      constructor; [now constructor|].
      constructor; [exact E|].
      eapply Forall_impl; [|exact Hy]. intros z Hz. eapply R_trans; eassumption.
    + apply Z.leb_gt in E. constructor; [exact IH|].
      rewrite <- sort_insert_perm. constructor; [|exact Hy].
      apply R_gt. lia.
Qed.

Lemma array_sort_rel_sorted (l : list A) : StronglySorted R (array_sort compare l).
Proof.
  induction l as [|x l IH]; simpl; [constructor|].
  now apply sort_insert_rel_sorted.
Qed.
End ArraySortRelation.

Lemma orderBefore_trans (a b c : NavigationItem) :
  orderBefore a b -> orderBefore b c -> orderBefore a c.
Proof.
  unfold orderBefore. destruct (order a), (order b), (order c);
    try tauto; lia.
Qed.

Lemma displayBefore_trans (a b c : NavigationItem) :
  displayBefore a b -> displayBefore b c -> displayBefore a c.
Proof.
  unfold displayBefore.
  intros [Hab | [Eab Hab]] [Hbc | [Ebc Hbc]].
  - left; lia.
  - left; lia.
  - left; lia.
  - right. split; [congruence|]. intros H999.
    apply (orderBefore_trans a b c); [now apply Hab | apply Hbc; congruence].
Qed.

Section SorterOrder.
Variable localeCompare : string -> string -> Z.

Lemma compareItems_le_display (a b : NavigationItem) :
  (compareItems localeCompare a b <= 0)%Z -> displayBefore a b.
Proof.
  unfold compareItems, displayBefore, orderBefore, priorityOf.
  destruct (getPriority (title a) =? 999)%Z eqn:Ea;
    destruct (getPriority (title b) =? 999)%Z eqn:Eb; simpl;
    rewrite ?Z.eqb_eq, ?Z.eqb_neq in *.
  - intros H. right. split; [congruence|]. intros _.
    destruct (order a), (order b); try tauto; lia.
  - intros H. assert (getPriority (title a) < getPriority (title b)
                      \/ getPriority (title a) = getPriority (title b))%Z
      as [Hlt | Heq] by lia; [now left | congruence].
  - intros H. assert (getPriority (title a) < getPriority (title b)
                      \/ getPriority (title a) = getPriority (title b))%Z
      as [Hlt | Heq] by lia; [now left | congruence].
  - intros H. assert (getPriority (title a) < getPriority (title b)
                      \/ getPriority (title a) = getPriority (title b))%Z
      as [Hlt | Heq] by lia; [now left | right].
    split; [exact Heq | intros; contradiction].
Qed.

Lemma compareItems_gt_display (a b : NavigationItem) :
  (compareItems localeCompare a b > 0)%Z -> displayBefore b a.
Proof.
  unfold compareItems, displayBefore, orderBefore, priorityOf.
  destruct (getPriority (title a) =? 999)%Z eqn:Ea;
    destruct (getPriority (title b) =? 999)%Z eqn:Eb; simpl;
    rewrite ?Z.eqb_eq, ?Z.eqb_neq in *.
  - intros H. right. split; [congruence|]. intros _.
    destruct (order a), (order b); try tauto; lia.
  - intros H. left. lia.
  - intros H. left. lia.
  - intros H. left. lia.
Qed.

(** Inserting an item leaves every bucket other than 999 in input order:
    the item only passes items of strictly lower priority. *)
Lemma sort_insert_bucket (p : Z) (x : NavigationItem) (l : list NavigationItem) :
  p <> 999%Z ->
  bucket p (sort_insert (compareItems localeCompare) x l) = bucket p (x :: l).
Proof.
  intros Hp. induction l as [|y l IH]; [reflexivity|].
  cbn [sort_insert].
  destruct (compareItems localeCompare x y <=? 0)%Z eqn:E; [reflexivity|].
  apply Z.leb_gt in E. unfold bucket in *. cbn [filter] in *. rewrite IH.
  destruct (priorityOf x =? p)%Z eqn:Ex; destruct (priorityOf y =? p)%Z eqn:Ey;
    try reflexivity.
  apply Z.eqb_eq in Ex, Ey.
  rewrite (compareItems_same_bucket localeCompare x y) in E; [lia | congruence
                                                              | congruence].
Qed.
End SorterOrder.

(** X4.  [sortNavigationItems] keeps the input order inside every priority
    bucket other than 999: the items of such a bucket appear in the output
    in the order they have in the input, whatever their [order] metadata
    and titles are. *)
Theorem sortNavigationItems_stable_outside_999
  (localeCompare : string -> string -> Z) (p : Z)
  (siblings : list NavigationItem) :
  p <> 999%Z ->
  bucket p (sortNavigationItems localeCompare siblings) = bucket p siblings.
Proof.
  intros Hp. unfold sortNavigationItems.
  induction siblings as [|x l IH]; [reflexivity|].
  cbn [array_sort]. rewrite (sort_insert_bucket localeCompare p x _ Hp).
  unfold bucket in *. cbn [filter]. now rewrite IH.
Qed.

(** X4 at a list that mixes the default bucket with the buckets 1 and 4. *)
Lemma sortNavigationItems_stable_outside_999_witness :
  99%Z <> 999%Z /\
  bucket 99 (sortNavigationItems codeUnitCompare
               [page "Zebra" "/z" (Some 2%Z); page "Intro" "/i" None;
                page "Apple" "/a" (Some 1%Z); page "Vocabulary" "/v" None])
  = bucket 99 [page "Zebra" "/z" (Some 2%Z); page "Intro" "/i" None;
               page "Apple" "/a" (Some 1%Z); page "Vocabulary" "/v" None].
Proof.
  split; [discriminate|].
  apply (sortNavigationItems_stable_outside_999 codeUnitCompare 99
           [page "Zebra" "/z" (Some 2%Z); page "Intro" "/i" None;
            page "Apple" "/a" (Some 1%Z); page "Vocabulary" "/v" None]).
  discriminate.
Defined.

(** X5.  The output of [sortNavigationItems] is in display order for every
    [localeCompare]: of two items the earlier one has the lower priority, or
    they share the priority; and when they share the priority 999 (titles
    with "security" or "performance"), an item with [order] stands before
    every item without, and of two items with [order] the earlier has the
    smaller or the same [order]. *)
Theorem sortNavigationItems_display_order
  (localeCompare : string -> string -> Z) (siblings : list NavigationItem) :
  StronglySorted displayBefore (sortNavigationItems localeCompare siblings) /\
  forall i j a b,
    (i < j)%nat ->
    nth_error (sortNavigationItems localeCompare siblings) i = Some a ->
    nth_error (sortNavigationItems localeCompare siblings) j = Some b ->
    (priorityOf a <= priorityOf b)%Z /\
    (priorityOf a = 999%Z -> priorityOf b = 999%Z ->
     match order a, order b with
     | Some oa, Some ob => (oa <= ob)%Z
     | None, Some _ => False
     | _, None => True
     end).
Proof.
  assert (Hs : StronglySorted displayBefore
                 (sortNavigationItems localeCompare siblings)).
  { apply array_sort_rel_sorted.
    - apply displayBefore_trans.
    - apply compareItems_le_display.
    - apply compareItems_gt_display. }
  split; [exact Hs|].
  intros i j a b Hij Hi Hj.
  pose proof (StronglySorted_nth _ _ Hs i j a b Hij Hi Hj) as [Hlt | [Heq Hord]].
  - split; [lia|]. intros; lia.
  - split; [lia|]. intros Ha _. specialize (Hord Ha). unfold orderBefore in Hord.
    destruct (order a), (order b); tauto.
Qed.

(** X6.  For a [localeCompare] that is a total comparison, no item of the
    output of [sortNavigationItems] compares greater than its successor:
    the output is sorted for the comparator, titles of the 999 bucket
    included. *)
Theorem sortNavigationItems_sorted
  (localeCompare : string -> string -> Z) (siblings : list NavigationItem) :
  (forall s t, (localeCompare s t > 0)%Z -> (localeCompare t s <= 0)%Z) ->
  Sorted (fun a b => (compareItems localeCompare a b <= 0)%Z)
         (sortNavigationItems localeCompare siblings).
Proof.
  intros Htotal.
  apply (array_sort_sorted (compareItems localeCompare)
           (compareItems_total localeCompare Htotal)).
Qed.

(** X6 at three titles of the 999 bucket without [order]. *)
Lemma sortNavigationItems_sorted_witness :
  (forall s t, (codeUnitCompare s t > 0)%Z -> (codeUnitCompare t s <= 0)%Z) /\
  Sorted (fun a b => (compareItems codeUnitCompare a b <= 0)%Z)
         (sortNavigationItems codeUnitCompare
            [page "Security C" "/c" None; page "Security A" "/a" None;
             page "Performance B" "/b" None]).
Proof.
  split; [exact codeUnitCompare_total|].
  apply (sortNavigationItems_sorted codeUnitCompare
           [page "Security C" "/c" None; page "Security A" "/a" None;
            page "Performance B" "/b" None]
           codeUnitCompare_total).
Defined.

(** ** Categorizer *)

Lemma filter_map_comm {A B} (f : A -> B) (p : B -> bool) (l : list A) :
  filter p (map f l) = map f (filter (fun x => p (f x)) l).
Proof.
  induction l as [|x l IH]; simpl; [reflexivity|].
  destruct (p (f x)); simpl; now rewrite IH.
Qed.

(** X7.  [categorizeNavigationItems] emits its sections in the fixed order
    Fundamentals, SQL, NoSQL, Databases, Projects, Utilities & Tools,
    Advanced Topics: the sections of the output are those of the keys with
    at least one assigned item, in the order of the keys, so the titles of
    the output are the seven titles in this order with the titles of the
    empty sections struck out. *)
Theorem categorizeNavigationItems_section_order (input : list NavigationItem) :
  categorizeNavigationItems input
  = Ok (map (sectionFor input)
          (filter (fun key => (0 <? List.length (assignedTo key input))%nat)
                  sectionKeys)) /\
  map sectionTitleOfKey sectionKeys
  = [ "Fundamentals"; "SQL"; "NoSQL"; "Databases"; "Projects";
      "Utilities & Tools"; "Advanced Topics" ] /\
  exists sections,
    categorizeNavigationItems input = Ok sections /\
    map section_title sections
    = filter (fun t => existsb (fun item =>
                                  String.eqb (sectionTitleOfKey (categorizeItem item)) t)
                               input)
             (map sectionTitleOfKey sectionKeys).
Proof.
  assert (Heq : partitionSections input
                = map (sectionFor input)
                    (filter (fun key => (0 <? List.length (assignedTo key input))%nat)
                            sectionKeys)).
  { unfold partitionSections. now rewrite filter_map_comm. }
  split; [rewrite categorizeNavigationItems_eq; now rewrite Heq|].
  split; [reflexivity|].
  exists (partitionSections input).
  split; [apply categorizeNavigationItems_eq|].
  rewrite Heq, map_map, filter_map_comm. cbn [section_title sectionFor].
  f_equal. apply filter_ext_in. intros key Hkey.
  destruct (existsb _ input) eqn:Hex.
  - apply existsb_exists in Hex as [item [Hin Ht]].
    apply String.eqb_eq in Ht.
    apply (sectionTitleOfKey_inj _ _ (categorizeItem_key item) Hkey) in Ht.
    assert (Hitem : In item (assignedTo key input)).
    { unfold assignedTo. apply filter_In. split; [exact Hin|].
      now apply String.eqb_eq. }
    destruct (assignedTo key input); [contradiction | reflexivity].
  - destruct (assignedTo key input) as [|item l] eqn:Ha; [reflexivity|].
    exfalso. assert (Hitem : In item (assignedTo key input))
      by (rewrite Ha; now left).
    unfold assignedTo in Hitem. apply filter_In in Hitem as [Hin Hk].
    apply String.eqb_eq in Hk.
    assert (existsb (fun item => String.eqb
                       (sectionTitleOfKey (categorizeItem item))
                       (sectionTitleOfKey key)) input = true) as Hyes.
    { apply existsb_exists. exists item. split; [exact Hin|].
      rewrite Hk. apply String.eqb_refl. }
    congruence.
Qed.

Lemma sectionOfCategory_projects (c : string) :
  sectionOfCategory c = Some "projects" -> c = "proj".
Proof.
  unfold sectionOfCategory.
  repeat match goal with
         | |- context [String.eqb c ?k] =>
             destruct (String.eqb c k) eqn:?; try discriminate
         end.
  intros _. now apply String.eqb_eq.
Qed.

(** A section the loop over the segments returns comes from the code of one
    of the segments. *)
Lemma categoryOfSegments_source (segments : list string) (section : string) :
  categoryOfSegments segments = Some section ->
  exists segment c,
    In segment segments /\
    category (extractCategoryFromPath segment) = Some c /\
    sectionOfCategory c = Some section.
Proof.
  induction segments as [|s l IH]; simpl; [discriminate|].
  destruct (category (extractCategoryFromPath s)) as [c|] eqn:Ec.
  - destruct (String.eqb c "").
    + intros H. destruct (IH H) as [seg [c' [Hin H']]].
      exists seg, c'. split; [now right | exact H'].
    + destruct (sectionOfCategory c) as [sec|] eqn:Es.
      * intros H. injection H as <-. exists s, c. split; [now left|].
        now split.
      * intros H. destruct (IH H) as [seg [c' [Hin H']]].
        exists seg, c'. split; [now right | exact H'].
  - intros H. destruct (IH H) as [seg [c' [Hin H']]].
    exists seg, c'. split; [now right | exact H'].
Qed.

Lemma keywordsWithChildren_not_projects (path title : string) :
  keywordsWithChildren path title <> Some "projects".
Proof. unfold keywordsWithChildren. cbv zeta. split_ifs; discriminate. Qed.

Lemma keywordsForPage_not_projects (path title : string) :
  keywordsForPage path title <> "projects".
Proof. unfold keywordsForPage. cbv zeta. split_ifs; discriminate. Qed.

(** X8.  No keyword files an item under Projects: [categorizeItem] answers
    "projects" only for an item whose route has a segment with the category
    code "proj". *)
Theorem categorizeItem_projects_needs_code (item : NavigationItem) :
  categorizeItem item = "projects" ->
  exists segment,
    In segment (pathSegments (href item)) /\
    category (extractCategoryFromPath segment) = Some "proj".
Proof.
  unfold categorizeItem.
  destruct (categoryOfSegments _) as [sec|] eqn:E.
  - intros ->. apply categoryOfSegments_source in E as [seg [c [Hin [Hc Hs]]]].
    apply sectionOfCategory_projects in Hs. subst c.
    rewrite pathSegments_lower in Hin.
    apply in_map_iff in Hin as [seg0 [<- Hin0]].
    exists seg0. split; [exact Hin0|]. now rewrite <- category_lower.
  - destruct (hasChildren item).
    + destruct (keywordsWithChildren _ _) as [sec|] eqn:Ek.
      * intros ->. now apply keywordsWithChildren_not_projects in Ek.
      * intros H. now apply keywordsForPage_not_projects in H.
    + intros H. now apply keywordsForPage_not_projects in H.
Qed.

(** X8 at a page under "/proj-todo-app". *)
Lemma categorizeItem_projects_needs_code_witness :
  categorizeItem (page "Todo App" "/proj-todo-app/setup" None) = "projects" /\
  exists segment,
    In segment (pathSegments "/proj-todo-app/setup") /\
    category (extractCategoryFromPath segment) = Some "proj".
Proof.
  split; [reflexivity|].
  apply (categorizeItem_projects_needs_code
           (page "Todo App" "/proj-todo-app/setup" None)).
  reflexivity.
Defined.

(** The fields [categorizeItem] reads are those the projector keeps. *)
Lemma categorizeItem_setItemExpandedState (item : NavigationItem)
  (location : string) :
  categorizeItem (setItemExpandedState item location) = categorizeItem item.
Proof.
  unfold categorizeItem, hasChildren.
  destruct (setItemExpandedState_fields item location)
    as [_ [-> [-> [_ [_ ->]]]]].
  destruct (children item) as [cs|]; cbn [option_map]; [|reflexivity].
  now rewrite length_map.
Qed.

Lemma assignedTo_map (f : NavigationItem -> NavigationItem)
  (key : string) (input : list NavigationItem) :
  (forall item, categorizeItem (f item) = categorizeItem item) ->
  assignedTo key (map f input) = map f (assignedTo key input).
Proof.
  intros Hf. unfold assignedTo. rewrite filter_map_comm. f_equal.
  apply filter_ext. intros item. now rewrite Hf.
Qed.

Lemma partitionSections_map (f : NavigationItem -> NavigationItem)
  (input : list NavigationItem) :
  (forall item, categorizeItem (f item) = categorizeItem item) ->
  partitionSections (map f input)
  = map (fun s => {| section_title := section_title s;
                     items := map f (items s) |})
        (partitionSections input).
Proof.
  intros Hf. unfold partitionSections.
  induction sectionKeys as [|key keys IH]; [reflexivity|].
  cbn [map filter items sectionFor].
  rewrite (assignedTo_map f key input Hf), length_map.
  destruct (0 <? List.length (assignedTo key input))%nat; [|exact IH].
  cbn [map]. rewrite IH. f_equal.
  unfold sectionFor. cbn [section_title items].
  now rewrite (assignedTo_map f key input Hf).
Qed.

(** X9.  Categorizing and projecting the expansion state commute:
    categorizing the items and then calling [setExpandedState] on the
    sections gives the sections [categorizeNavigationItems] returns for the
    projected items.  The projection moves no item to another section. *)
Theorem categorize_then_expand (input : list NavigationItem)
  (currentPath : string) :
  exn_bind (categorizeNavigationItems input)
           (fun sections => Ok (setExpandedState sections currentPath))
  = categorizeNavigationItems
      (map (fun item => setItemExpandedState item (normalizePath currentPath))
           input).
Proof.
  rewrite !categorizeNavigationItems_eq. cbn [exn_bind]. f_equal.
  rewrite partitionSections_map; [reflexivity|].
  intros item. apply categorizeItem_setItemExpandedState.
Qed.

(** ** Expansion-state projector *)

(** [isPathInSubtree] does not read [isExpanded]. *)
Lemma isPathInSubtree_setItemExpandedState (location other : string)
  (item : NavigationItem) :
  isPathInSubtree location (setItemExpandedState item other)
  = isPathInSubtree location item.
Proof.
  induction item as [t h ic o e | t h cs ic o e IH]
    using NavigationItem_tree_ind; [reflexivity|].
  cbn [setItemExpandedState isPathInSubtree].
  destruct (String.eqb location h); [reflexivity|].
  destruct (JS.startsWith location (h ++ "/")%string); [reflexivity|].
  induction IH as [|c cs Hc Hcs IHcs]; [reflexivity|].
  cbn [map existsb]. now rewrite Hc, IHcs.
Qed.

Lemma setItemExpandedState_twice (first second : string) (item : NavigationItem) :
  setItemExpandedState (setItemExpandedState item first) second
  = setItemExpandedState item second.
Proof.
  induction item as [t h ic o e | t h cs ic o e IH]
    using NavigationItem_tree_ind; [reflexivity|].
  pose proof (isPathInSubtree_setItemExpandedState second first
                (mkItem t h (Some cs) ic o e)) as Hsame.
  cbn [setItemExpandedState] in *. rewrite Hsame. f_equal. f_equal.
  rewrite map_map. apply map_ext_in. intros c Hc.
  rewrite Forall_forall in IH. now apply IH.
Qed.

(** X10.  The last projection wins: [setExpandedState] overwrites the
    expansion state a former call left, so projecting for one location and
    then for another gives what projecting for the second alone gives; in
    particular projecting twice for the same location changes nothing. *)
Theorem setExpandedState_last_wins (sections : list NavigationSection)
  (first second : string) :
  setExpandedState (setExpandedState sections first) second
  = setExpandedState sections second /\
  setExpandedState (setExpandedState sections second) second
  = setExpandedState sections second.
Proof.
  assert (H : forall p q,
             setExpandedState (setExpandedState sections p) q
             = setExpandedState sections q).
  { intros p q. unfold setExpandedState. rewrite map_map.
    apply map_ext. intros s. cbn [section_title items]. f_equal.
    rewrite map_map. apply map_ext. intros item.
    apply setItemExpandedState_twice. }
  split; apply H.
Qed.

(** The nodes of a node of a tree are nodes of the tree. *)
Lemma nodes_trans (item d n : NavigationItem) :
  In d (nodes item) -> In n (nodes d) -> In n (nodes item).
Proof.
  induction item as [t h ic o e | t h cs ic o e IH]
    using NavigationItem_tree_ind; rewrite nodes_unfold; cbn [children].
  - intros [<- | []] Hn. now rewrite nodes_unfold in Hn.
  - intros [<- | Hd] Hn.
    + now rewrite nodes_unfold in Hn.
    + right. apply in_flat_map in Hd as [c [Hc Hd]].
      apply in_flat_map. exists c. split; [exact Hc|].
      rewrite Forall_forall in IH. now apply (IH c Hc).
Qed.

(** X11.  The expanded nodes are closed under ancestors: when
    [setItemExpandedState] marks a node of a tree expanded, it marks the
    root of the tree expanded too, so the nodes from a top-level item down
    to an expanded node are all expanded. *)
Theorem expanded_descendant_expands_ancestor
  (location : string) (item d : NavigationItem) :
  In d (nodes item) ->
  isExpanded (setItemExpandedState d location) = Some true ->
  isExpanded (setItemExpandedState item location) = Some true.
Proof.
  intros Hd He.
  destruct (setItemExpandedState_fields d location) as [Hed _].
  destruct (setItemExpandedState_fields item location) as [Hei _].
  rewrite Hed in He. injection He as He. rewrite Hei. f_equal.
  apply isPathInSubtree_nodes in He as [n [Hn Hon]].
  apply isPathInSubtree_nodes. exists n. split; [|exact Hon].
  eapply nodes_trans; eassumption.
Qed.

(** X11 at the location "/db/sql/joins" under the groups "/db" and
    "/db/sql". *)
Lemma expanded_descendant_expands_ancestor_witness :
  In (page "Joins" "/db/sql/joins" None)
     (nodes (group "Databases" "/db"
               [group "SQL" "/db/sql" [page "Joins" "/db/sql/joins" None];
                page "Redis" "/db/redis" None])) /\
  isExpanded (setItemExpandedState (page "Joins" "/db/sql/joins" None)
                "/db/sql/joins") = Some true /\
  isExpanded
    (setItemExpandedState
       (group "Databases" "/db"
          [group "SQL" "/db/sql" [page "Joins" "/db/sql/joins" None];
           page "Redis" "/db/redis" None])
       "/db/sql/joins") = Some true.
Proof.
  split; [simpl; tauto|]. split; [reflexivity|].
  apply (expanded_descendant_expands_ancestor "/db/sql/joins"
           (group "Databases" "/db"
              [group "SQL" "/db/sql" [page "Joins" "/db/sql/joins" None];
               page "Redis" "/db/redis" None])
           (page "Joins" "/db/sql/joins" None)).
  - simpl; tauto.
  - reflexivity.
Defined.

Lemma allNodes_map_field {B} (field : NavigationItem -> B)
  (sections : list NavigationSection) (location : string) :
  (forall n, field (setItemExpandedState n location) = field n) ->
  map field (map (fun n => setItemExpandedState n location) (allNodes sections))
  = map field (allNodes sections).
Proof.
  intros H. rewrite map_map. apply map_ext. exact H.
Qed.

(** X12.  [getClientSideNavigation] returns the fallback navigation with
    its shape untouched: the same section titles and the same nodes in the
    same order with their titles, routes, icons and ranks; without a path
    (absent or empty) it is the fallback navigation itself, and with a path
    every node carries an expansion state. *)
Theorem getClientSideNavigation_keeps_shape
  (fallbackNav : list NavigationSection) (currentPath : option string) :
  map section_title (getClientSideNavigation fallbackNav currentPath)
  = map section_title fallbackNav /\
  map title (allNodes (getClientSideNavigation fallbackNav currentPath))
  = map title (allNodes fallbackNav) /\
  map href (allNodes (getClientSideNavigation fallbackNav currentPath))
  = map href (allNodes fallbackNav) /\
  map icon (allNodes (getClientSideNavigation fallbackNav currentPath))
  = map icon (allNodes fallbackNav) /\
  map order (allNodes (getClientSideNavigation fallbackNav currentPath))
  = map order (allNodes fallbackNav) /\
  (currentPath = None \/ currentPath = Some "" ->
   getClientSideNavigation fallbackNav currentPath = fallbackNav) /\
  (forall p, currentPath = Some p -> p <> "" ->
     Forall (fun n => isExpanded n <> None)
            (allNodes (getClientSideNavigation fallbackNav currentPath))).
Proof.
  assert (Hshape : forall p,
    map section_title (setExpandedState fallbackNav p)
    = map section_title fallbackNav /\
    map title (allNodes (setExpandedState fallbackNav p))
    = map title (allNodes fallbackNav) /\
    map href (allNodes (setExpandedState fallbackNav p))
    = map href (allNodes fallbackNav) /\
    map icon (allNodes (setExpandedState fallbackNav p))
    = map icon (allNodes fallbackNav) /\
    map order (allNodes (setExpandedState fallbackNav p))
    = map order (allNodes fallbackNav)).
  { intros p. split.
    - unfold setExpandedState. now rewrite map_map.
    - rewrite allNodes_setExpandedState.
      repeat split; apply allNodes_map_field; intros n;
        now destruct (setItemExpandedState_fields n (normalizePath p))
          as [_ [? [? [? [? _]]]]]. }
  assert (Hnone : forall p, p <> "" -> String.eqb p "" = false)
    by (intros p Hp; now apply String.eqb_neq).
  destruct currentPath as [p|]; cbn [getClientSideNavigation].
  - destruct (String.eqb p "") eqn:E.
    + repeat split; try reflexivity.
      intros q Hq Hne. injection Hq as <-. rewrite (Hnone _ Hne) in E.
      discriminate.
    + destruct (Hshape p) as [H1 [H2 [H3 [H4 H5]]]].
      repeat (split; [assumption|]). split.
      * intros [H | H]; [discriminate|]. injection H as ->. discriminate.
      * intros q _ _. rewrite allNodes_setExpandedState.
        apply Forall_forall. intros n Hn.
        apply in_map_iff in Hn as [m [<- _]].
        destruct (setItemExpandedState_fields m (normalizePath p)) as [-> _].
        discriminate.
  - repeat split; try reflexivity. intros q Hq. discriminate.
Qed.

(** ** Metadata reader: what the patterns capture *)

Section RegexInversion.
Context {A : Type}.

Lemma literal_inv (lit s rest : string) :
  Regex.literal lit s = Some rest -> s = (lit ++ rest)%string.
Proof.
  revert s. induction lit as [|c lit IH]; intros s; simpl.
  - now intros [= ->].
  - destruct s as [|d s]; [discriminate|].
    destruct (Ascii.eqb d c) eqn:E; [|discriminate].
    apply Ascii.eqb_eq in E. subst d. intros H. now rewrite (IH _ H).
Qed.

Lemma one_inv (cls : ascii -> bool) (s : string)
  (k : ascii -> string -> option A) (r : A) :
  Regex.one cls s k = Some r ->
  exists c s', s = String c s' /\ cls c = true /\ k c s' = Some r.
Proof.
  destruct s as [|c s']; simpl; [discriminate|].
  destruct (cls c) eqn:E; [|discriminate].
  intros H. now exists c, s'.
Qed.

Lemma greedy_inv (cls : ascii -> bool) (s : string) :
  forall (k : string -> string -> option A) (r : A),
    Regex.greedy cls s k = Some r ->
    exists cap rest,
      s = (cap ++ rest)%string /\ allChars cls cap = true /\
      k cap rest = Some r.
Proof.
  induction s as [|c s IH]; intros k r; simpl.
  - intros H. now exists EmptyString, EmptyString.
  - destruct (cls c) eqn:Ec.
    + destruct (Regex.greedy cls s (fun cap rest => k (String c cap) rest))
        as [r'|] eqn:Eg; simpl.
      * intros [= <-]. apply IH in Eg as [cap [rest [-> [Hall Hk]]]].
        exists (String c cap), rest. simpl. rewrite Ec, Hall. now split.
      * intros H. now exists EmptyString, (String c s).
    + intros H. now exists EmptyString, (String c s).
Qed.

Lemma greedy1_inv (cls : ascii -> bool) (s : string)
  (k : string -> string -> option A) (r : A) :
  Regex.greedy1 cls s k = Some r ->
  exists cap rest,
    s = (cap ++ rest)%string /\ cap <> EmptyString /\
    allChars cls cap = true /\ k cap rest = Some r.
Proof.
  unfold Regex.greedy1. intros H.
  apply one_inv in H as [c [s' [-> [Hc H]]]].
  apply greedy_inv in H as [cap [rest [-> [Hall Hk]]]].
  exists (String c cap), rest. simpl. rewrite Hc, Hall.
  repeat split; [discriminate | exact Hk].
Qed.

Lemma lazy_any_inv (s : string) :
  forall (k : string -> string -> option A) (r : A),
    Regex.lazy_any s k = Some r ->
    exists cap rest, s = (cap ++ rest)%string /\ k cap rest = Some r.
Proof.
  induction s as [|c s IH]; intros k r; simpl.
  - destruct (k EmptyString EmptyString) eqn:E; simpl; [|discriminate].
    intros [= <-]. now exists EmptyString, EmptyString.
  - destruct (k EmptyString (String c s)) eqn:E; simpl.
    + intros [= <-]. now exists EmptyString, (String c s).
    + intros H. apply IH in H as [cap [rest [-> Hk]]].
      now exists (String c cap), rest.
Qed.

Lemma search_inv (m : string -> option A) (s : string) (r : A) :
  Regex.search m s = Some r ->
  exists before from, s = (before ++ from)%string /\ m from = Some r.
Proof.
  induction s as [|c s IH]; simpl.
  - destruct (m EmptyString) eqn:E; simpl; [|discriminate].
    intros [= <-]. now exists EmptyString, EmptyString.
  - destruct (m (String c s)) eqn:E; simpl.
    + intros [= <-]. now exists EmptyString, (String c s).
    + intros H. apply IH in H as [before [from [-> Hm]]].
      now exists (String c before), from.
Qed.
End RegexInversion.

(** What the front-matter pattern captures stands between a first line of
    three hyphens and a line that starts with three hyphens. *)
Lemma frontmatterRegex_sound (content frontmatter : string) :
  Regex.frontmatterRegex content = Some frontmatter ->
  exists spaces rest,
    content = ("---" ++ spaces ++ nl ++ frontmatter ++ nl ++ "---" ++ rest)%string /\
    allChars Regex.isSpace spaces = true.
Proof.
  unfold Regex.frontmatterRegex.
  destruct (Regex.literal "---" content) as [s1|] eqn:E1; [|discriminate].
  apply literal_inv in E1. subst content. intros H.
  apply greedy_inv in H as [spaces [s2 [-> [Hsp H]]]].
  apply one_inv in H as [c [s3 [-> [Hc H]]]].
  apply lazy_any_inv in H as [cap [s4 [-> H]]].
  destruct (Regex.literal (Regex.newline ++ "---") s4) as [rest|] eqn:E4;
    [|discriminate].
  injection H as <-. apply literal_inv in E4. subst s4.
  exists spaces, rest. split; [|exact Hsp].
  assert (c = ascii_of_nat 10) as ->.
  { unfold Regex.isNewline in Hc. apply Nat.eqb_eq in Hc.
    rewrite <- (ascii_nat_embedding c). now rewrite Hc. }
  unfold nl, Regex.newline. cbn [String.append].
  now rewrite ?append_assoc.
Qed.

Lemma titleRegex_sound (frontmatter t : string) :
  Regex.titleRegex frontmatter = Some t ->
  exists before spaces q1 q2 rest,
    frontmatter
    = (before ++ "title:" ++ spaces ++ String q1 (t ++ String q2 rest))%string /\
    allChars Regex.isSpace spaces = true /\
    Regex.isQuote q1 = true /\ Regex.isQuote q2 = true /\
    t <> EmptyString /\ allChars Regex.dot t = true.
Proof.
  unfold Regex.titleRegex. intros H.
  apply search_inv in H as [before [from [-> H]]].
  destruct (Regex.literal "title:" from) as [s1|] eqn:E1; [|discriminate].
  apply literal_inv in E1. subst from.
  apply greedy_inv in H as [spaces [s2 [-> [Hsp H]]]].
  apply one_inv in H as [q1 [s3 [-> [Hq1 H]]]].
  apply greedy1_inv in H as [cap [s4 [-> [Hne [Hdot H]]]]].
  apply one_inv in H as [q2 [rest [-> [Hq2 H]]]].
  injection H as <-.
  exists before, spaces, q1, q2, rest. repeat split; assumption.
Qed.

Lemma orderRegex_sound (frontmatter digits : string) :
  Regex.orderRegex frontmatter = Some digits ->
  exists before spaces rest,
    frontmatter = (before ++ "order:" ++ spaces ++ digits ++ rest)%string /\
    allChars Regex.isSpace spaces = true /\
    digits <> EmptyString /\ allChars Regex.isDigit digits = true.
Proof.
  unfold Regex.orderRegex. intros H.
  apply search_inv in H as [before [from [-> H]]].
  destruct (Regex.literal "order:" from) as [s1|] eqn:E1; [|discriminate].
  apply literal_inv in E1. subst from.
  apply greedy_inv in H as [spaces [s2 [-> [Hsp H]]]].
  apply greedy1_inv in H as [cap [rest [-> [Hne [Hdig H]]]]].
  injection H as <-.
  exists before, spaces, rest. repeat split; assumption.
Qed.

Lemma parseInt_nonneg (digits : string) :
  allChars Regex.isDigit digits = true -> (0 <= parseInt digits)%Z.
Proof.
  assert (H : forall s acc, allChars Regex.isDigit s = true -> (0 <= acc)%Z ->
    (0 <= (fix go (acc : Z) (s : string) {struct s} : Z :=
             match s with
             | EmptyString => acc
             | String c s' =>
                 go (acc * 10 + (Z.of_nat (nat_of_ascii c) - 48))%Z s'
             end) acc s)%Z).
  { induction s as [|c s IH]; intros acc Hall Hacc; [exact Hacc|].
    simpl in Hall. apply andb_true_iff in Hall as [Hc Hall].
    apply IH; [exact Hall|].
    unfold Regex.isDigit in Hc. apply andb_true_iff in Hc as [Hlo Hhi].
    apply Nat.leb_le in Hlo, Hhi. lia. }
  intros Hall. unfold parseInt. apply H; [exact Hall | lia].
Qed.

(** What [readMDXMetadata] returns with a field set: the file was read, it
    has a front-matter block, and the fields are the captures in it. *)
Lemma readMDXMetadata_set (windowDefined : bool)
  (readFile : string -> exn string) (filePath : string) (metadata : Metadata) :
  readMDXMetadata windowDefined readFile filePath = Ok metadata ->
  metadata <> emptyMetadata ->
  windowDefined = false /\
  exists content frontmatter,
    readFile filePath = Ok content /\
    Regex.frontmatterRegex content = Some frontmatter /\
    md_title metadata = Regex.titleRegex frontmatter /\
    md_order metadata = option_map parseInt (Regex.orderRegex frontmatter).
Proof.
  rewrite readMDXMetadata_eq. intros [= <-] Hne.
  destruct windowDefined; [contradiction|]. split; [reflexivity|].
  destruct (readFile filePath) as [content|]; [|contradiction].
  destruct (Regex.frontmatterRegex content) as [frontmatter|] eqn:E;
    [|contradiction].
  exists content, frontmatter. repeat split; assumption.
Qed.

(** X13.  A title [readMDXMetadata] returns is never empty and never spans
    lines, and it is quoted text of the file: the file was read on the
    server, its front-matter block has the text "title:" followed by white
    space, a quote, the title and a quote.  So the scanner never falls back
    to the formatted directory name for a title that is set. *)
Theorem readMDXMetadata_title_sound (windowDefined : bool)
  (readFile : string -> exn string) (filePath : string) :
  exists metadata,
    readMDXMetadata windowDefined readFile filePath = Ok metadata /\
    forall t, md_title metadata = Some t ->
      t <> EmptyString /\
      allChars Regex.dot t = true /\
      (forall fallback, orString (md_title metadata) fallback = t) /\
      windowDefined = false /\
      exists content frontmatter before spaces q1 q2 rest,
        readFile filePath = Ok content /\
        Regex.frontmatterRegex content = Some frontmatter /\
        frontmatter
        = (before ++ "title:" ++ spaces
           ++ String q1 (t ++ String q2 rest))%string /\
        allChars Regex.isSpace spaces = true /\
        Regex.isQuote q1 = true /\ Regex.isQuote q2 = true.
Proof.
  destruct (readMDXMetadata windowDefined readFile filePath)
    as [metadata | error] eqn:Eread;
    [|rewrite readMDXMetadata_eq in Eread; discriminate].
  exists metadata. split; [reflexivity|]. intros t Ht.
  assert (Hne : metadata <> emptyMetadata)
    by (intros ->; discriminate).
  destruct (readMDXMetadata_set _ _ _ _ Eread Hne)
    as [Hwd [content [frontmatter [Hread [Hfm [Htitle _]]]]]].
  rewrite Ht in Htitle. symmetry in Htitle.
  apply titleRegex_sound in Htitle
    as [before [spaces [q1 [q2 [rest [Heq [Hsp [Hq1 [Hq2 [Hnon Hdot]]]]]]]]]].
  split; [exact Hnon|]. split; [exact Hdot|]. split.
  { intros fallback. rewrite Ht. unfold orString.
    destruct (String.eqb t "") eqn:E; [|reflexivity].
    apply String.eqb_eq in E. contradiction. }
  split; [exact Hwd|].
  exists content, frontmatter, before, spaces, q1, q2, rest.
  repeat split; assumption.
Qed.

(** X14.  An order [readMDXMetadata] returns is never negative: it comes
    from a non-empty run of digits that follows "order:" and white space in
    the front-matter block of the file, and it is the decimal value of that
    run when the value is at most 2^53, the range in which the number the
    program holds is exact. *)
Theorem readMDXMetadata_order_sound (windowDefined : bool)
  (readFile : string -> exn string) (filePath : string) :
  exists metadata,
    readMDXMetadata windowDefined readFile filePath = Ok metadata /\
    forall n, md_order metadata = Some n ->
      (0 <= n)%Z /\
      windowDefined = false /\
      exists content frontmatter before spaces digits rest,
        readFile filePath = Ok content /\
        Regex.frontmatterRegex content = Some frontmatter /\
        frontmatter = (before ++ "order:" ++ spaces ++ digits ++ rest)%string /\
        allChars Regex.isSpace spaces = true /\
        digits <> EmptyString /\
        allChars Regex.isDigit digits = true /\
        ((parseInt digits <= 2 ^ 53)%Z -> n = parseInt digits).
Proof.
  destruct (readMDXMetadata windowDefined readFile filePath)
    as [metadata | error] eqn:Eread;
    [|rewrite readMDXMetadata_eq in Eread; discriminate].
  exists metadata. split; [reflexivity|]. intros n Hn.
  assert (Hne : metadata <> emptyMetadata)
    by (intros ->; discriminate).
  destruct (readMDXMetadata_set _ _ _ _ Eread Hne)
    as [Hwd [content [frontmatter [Hread [Hfm [_ Horder]]]]]].
  rewrite Hn in Horder.
  destruct (Regex.orderRegex frontmatter) as [digits|] eqn:Eo; [|discriminate].
  injection Horder as ->.
  apply orderRegex_sound in Eo
    as [before [spaces [rest [Heq [Hsp [Hnon Hdig]]]]]].
  split; [now apply parseInt_nonneg|]. split; [exact Hwd|].
  exists content, frontmatter, before, spaces, digits, rest.
  repeat split; assumption.
Qed.

(** X15.  [readMDXMetadata] sets a field only for a file that opens with a
    front-matter block: when the result is not empty, the file starts with
    three hyphens, white space and a line break, and the block the fields
    are read from ends before a line break followed by three hyphens. *)
Theorem readMDXMetadata_needs_front_matter (windowDefined : bool)
  (readFile : string -> exn string) (filePath : string) :
  exists metadata,
    readMDXMetadata windowDefined readFile filePath = Ok metadata /\
    (metadata <> emptyMetadata ->
     exists content spaces frontmatter rest,
       readFile filePath = Ok content /\
       content
       = ("---" ++ spaces ++ nl ++ frontmatter ++ nl ++ "---" ++ rest)%string /\
       allChars Regex.isSpace spaces = true /\
       md_title metadata = Regex.titleRegex frontmatter /\
       md_order metadata = option_map parseInt (Regex.orderRegex frontmatter)).
Proof.
  destruct (readMDXMetadata windowDefined readFile filePath)
    as [metadata | error] eqn:Eread;
    [|rewrite readMDXMetadata_eq in Eread; discriminate].
  exists metadata. split; [reflexivity|]. intros Hne.
  destruct (readMDXMetadata_set _ _ _ _ Eread Hne)
    as [_ [content [frontmatter [Hread [Hfm [Htitle Horder]]]]]].
  apply frontmatterRegex_sound in Hfm as [spaces [rest [Heq Hsp]]].
  exists content, spaces, frontmatter, rest. repeat split; assumption.
Qed.

(** ** Directory scanner: what a scan is made of *)

Section ScanShape.
Variable localeCompare : string -> string -> Z.
Variable windowDefined : bool.

Lemma itemsOfDirectory_outcome (name fullPath routePath : string)
  (node : FsNode) (children : list NavigationItem) (log : Console) :
  itemsOfDirectory localeCompare windowDefined name fullPath routePath node
    children log
  = (Ok (outcome (itemsOfDirectory localeCompare windowDefined name fullPath
                    routePath node children)), log).
Proof.
  destruct (itemsOfDirectory_quiet localeCompare windowDefined name fullPath
              routePath node children) as [added Hadd].
  unfold outcome. now rewrite !Hadd.
Qed.

(** The loop appends to the items what each entry adds, and to the console
    what the scan of each entry writes. *)
Lemma scanEntries_flat (entries : list (string * FsNode))
  (dirPath basePath : string) :
  forall items log,
    scanEntries localeCompare windowDefined
      (scanDirectory localeCompare windowDefined) dirPath basePath
      entries items log
    = (Ok (items ++ flat_map (entryItems localeCompare windowDefined
                                dirPath basePath) entries),
       log ++ flat_map (entryLines localeCompare windowDefined
                          dirPath basePath) entries).
Proof.
  induction entries as [|[name node] entries IH]; intros items log.
  - simpl. unfold scan_ret. now rewrite !app_nil_r.
  - cbn [scanEntries flat_map entryItems entryLines].
    destruct (skippedEntry name); cbn [orb]; [apply IH|].
    destruct (isDirectory node); cbn [negb]; [|apply IH].
    unfold scan_bind.
    rewrite (scanDirectory_steady localeCompare windowDefined node).
    rewrite itemsOfDirectory_outcome, IH.
    now rewrite !app_assoc.
Qed.

(** The items of a directory that can be listed are the sorted items of its
    entries; the lines are those of its entries. *)
Lemma scanDirectory_listable_flat (entries : list (string * FsNode))
  (dirPath basePath : string) :
  outcome (scanDirectory localeCompare windowDefined (FsDir true entries)
             dirPath basePath)
  = sortNavigationItems localeCompare
      (flat_map (entryItems localeCompare windowDefined dirPath basePath)
                entries) /\
  written (scanDirectory localeCompare windowDefined (FsDir true entries)
             dirPath basePath)
  = flat_map (entryLines localeCompare windowDefined dirPath basePath) entries.
Proof.
  unfold outcome, written. rewrite scanDirectory_listable.
  unfold scan_try, scan_bind, scan_ret. rewrite scanEntries_flat. now split.
Qed.

(** The item a sub-directory adds: its route (the site root for "/page"
    when the directory has a page), no icon, no expansion state, and the
    sorted items of its scan as children when there are any. *)
Lemma itemsOfDirectory_shape (name fullPath routePath : string)
  (node : FsNode) (sub : list NavigationItem) (x : NavigationItem) :
  In x (outcome (itemsOfDirectory localeCompare windowDefined name fullPath
                   routePath node sub)) ->
  (href x = routePath \/ (routePath = "/page" /\ href x = "/")) /\
  icon x = None /\ isExpanded x = None /\
  children x
  = (if (0 <? List.length sub)%nat
     then Some (sortNavigationItems localeCompare sub) else None).
Proof.
  unfold outcome, itemsOfDirectory.
  destruct (existsb (existsSync node) pageFiles).
  - destruct (find (existsSync node) pageFiles) as [pageFile|].
    + unfold scan_bind, scan_lift, scan_ret. rewrite readMDXMetadata_eq.
      cbn [fst]. intros [<- | []]. cbn [href icon isExpanded children].
      split; [|repeat split].
      destruct (String.eqb routePath "/page") eqn:E; [right | now left].
      apply String.eqb_eq in E. now split.
    + unfold scan_lift. cbn [fst]. intros [].
  - destruct (0 <? List.length sub)%nat; unfold scan_ret; cbn [fst];
      intros H; [|destruct H].
    destruct H as [<- | []]. cbn [href icon isExpanded children].
    split; [now left | repeat split].
Qed.
End ScanShape.

Section ScanInvariants.
Variable localeCompare : string -> string -> Z.
Variable windowDefined : bool.

Lemma outcome_not_listable (node : FsNode) (dirPath basePath : string) :
  (forall entries, node <> FsDir true entries) ->
  outcome (scanDirectory localeCompare windowDefined node dirPath basePath) = [].
Proof.
  intros H. destruct node as [content | [|] entries]; [reflexivity| |reflexivity].
  now elim (H entries).
Qed.

Lemma nodesOf_sorted (l : list NavigationItem) (n : NavigationItem) :
  In n (nodesOf (sortNavigationItems localeCompare l)) <-> In n (nodesOf l).
Proof.
  unfold nodesOf. rewrite !in_flat_map.
  split; intros [x [Hx Hn]]; exists x; (split; [|exact Hn]).
  - eapply Permutation_in; [symmetry; apply array_sort_perm | exact Hx].
  - eapply Permutation_in; [apply array_sort_perm | exact Hx].
Qed.

(** A node of the scan of a directory is the item of one of its
    sub-directories or a node of the scan of that sub-directory. *)
Lemma scan_nodes_cases (entries : list (string * FsNode))
  (dirPath basePath : string) (n : NavigationItem) :
  In n (nodesOf (outcome (scanDirectory localeCompare windowDefined
                            (FsDir true entries) dirPath basePath))) ->
  exists name node x,
    In (name, node) entries /\
    In x (outcome
            (itemsOfDirectory localeCompare windowDefined name
               (joinPath dirPath name) (basePath ++ "/" ++ name)%string node
               (outcome (scanDirectory localeCompare windowDefined node
                           (joinPath dirPath name)
                           (basePath ++ "/" ++ name)%string)))) /\
    (n = x \/
     (In n (descendants x) /\
      In n (nodesOf (outcome (scanDirectory localeCompare windowDefined node
                                (joinPath dirPath name)
                                (basePath ++ "/" ++ name)%string))))).
Proof.
  rewrite (proj1 (scanDirectory_listable_flat localeCompare windowDefined
                    entries dirPath basePath)).
  rewrite nodesOf_sorted. unfold nodesOf at 1. rewrite in_flat_map.
  intros [x [Hx Hn]]. apply in_flat_map in Hx as [[name node] [He Hx]].
  cbn [entryItems] in Hx.
  destruct (skippedEntry name || negb (isDirectory node)); [destruct Hx|].
  exists name, node, x. split; [exact He|]. split; [exact Hx|].
  rewrite nodes_unfold in Hn. destruct Hn as [<- | Hn]; [now left | right].
  split; [unfold descendants; now rewrite nodes_unfold|].
  destruct (itemsOfDirectory_shape _ _ _ _ _ _ _ _ Hx) as [_ [_ [_ Hc]]].
  rewrite Hc in Hn. destruct (0 <? _)%nat; [|destruct Hn].
  now apply nodesOf_sorted.
Qed.

Lemma slashes_app (a b : string) :
  slashes (a ++ b)%string = slashes a + slashes b.
Proof. induction a as [|c a IH]; simpl; [reflexivity|]. rewrite IH. lia. Qed.

(** A path two levels below a base path is not "/page". *)
Lemma nested_route_not_page (basePath name rest : string) :
  ((basePath ++ "/" ++ name) ++ "/" ++ rest)%string <> "/page".
Proof.
  intros H. apply (f_equal slashes) in H.
  rewrite !slashes_app in H. simpl in H. lia.
Qed.

(** Every node of a scan is routed under the base path of the scan. *)
Lemma scan_routes (dir : FsNode) :
  forall dirPath basePath,
    Forall (routedUnder basePath)
           (nodesOf (outcome (scanDirectory localeCompare windowDefined dir
                                dirPath basePath))).
Proof.
  induction dir as [content | listable entries IH] using FsNode_tree_ind;
    intros dirPath basePath.
  - rewrite outcome_not_listable by discriminate. constructor.
  - destruct listable;
      [|rewrite outcome_not_listable by discriminate; constructor].
    apply Forall_forall. intros n Hn.
    apply scan_nodes_cases in Hn as [name [node [x [He [Hx Hn]]]]].
    destruct Hn as [-> | [_ Hn]].
    + destruct (itemsOfDirectory_shape _ _ _ _ _ _ _ _ Hx) as [Hh _].
      exists name. destruct Hh as [Hh | [Hp Hh]]; [now left | right; now split].
    + rewrite Forall_forall in IH. specialize (IH _ He). cbn [snd] in IH.
      specialize (IH (joinPath dirPath name) (basePath ++ "/" ++ name)%string).
      rewrite Forall_forall in IH. destruct (IH n Hn) as [rest [Hr | [Hp _]]].
      * exists (name ++ "/" ++ rest)%string. left.
        rewrite Hr. now rewrite !append_assoc.
      * now apply nested_route_not_page in Hp.
Qed.
End ScanInvariants.

(** X16.  Every route [scanDirectory] produces lies under the base path of
    the scan: each node of the result, at any depth, has the route
    [basePath/rest] for some [rest] (the site root "/" in place of "/page").
    For the base path "" of the top-level call every route starts with a
    slash. *)
Theorem scanDirectory_routes_under_base
  (localeCompare : string -> string -> Z) (windowDefined : bool)
  (dir : FsNode) (dirPath basePath : string) :
  Forall (fun n =>
            href n = "/" \/
            exists rest, href n = (basePath ++ "/" ++ rest)%string)
         (nodesOf (outcome (scanDirectory localeCompare windowDefined dir
                              dirPath basePath))) /\
  Forall (fun n => JS.startsWith (href n) "/" = true)
         (nodesOf (outcome (scanDirectory localeCompare windowDefined dir
                              dirPath ""))).
Proof.
  split.
  - eapply Forall_impl; [|apply scan_routes].
    intros n [rest [H | [_ H]]]; [right; now exists rest | now left].
  - eapply Forall_impl; [|apply scan_routes].
    intros n [rest [H | [_ H]]]; rewrite H; reflexivity.
Qed.

Section ScanNodes.
Variable localeCompare : string -> string -> Z.
Variable windowDefined : bool.

(** The descendants of the item of a sub-directory are the nodes of the
    scan of the sub-directory. *)
Lemma descendants_of_item (name fullPath routePath : string) (node : FsNode)
  (sub : list NavigationItem) (x c : NavigationItem) :
  In x (outcome (itemsOfDirectory localeCompare windowDefined name fullPath
                   routePath node sub)) ->
  In c (descendants x) -> In c (nodesOf sub).
Proof.
  intros Hx Hc.
  destruct (itemsOfDirectory_shape _ _ _ _ _ _ _ _ Hx) as [_ [_ [_ Hch]]].
  unfold descendants in Hc. rewrite nodes_unfold in Hc. cbn [List.tl] in Hc.
  rewrite Hch in Hc. destruct (0 <? _)%nat; [|destruct Hc].
  now apply (nodesOf_sorted localeCompare).
Qed.

Lemma sorted_nonempty (l : list NavigationItem) :
  l <> [] -> sortNavigationItems localeCompare l <> [].
Proof.
  intros Hne Hs. apply Hne. apply Permutation_nil.
  rewrite <- Hs. symmetry. apply array_sort_perm.
Qed.

Lemma sorted_display (l : list NavigationItem) :
  StronglySorted displayBefore (sortNavigationItems localeCompare l).
Proof.
  apply array_sort_rel_sorted.
  - apply displayBefore_trans.
  - apply compareItems_le_display.
  - apply compareItems_gt_display.
Qed.

(** A property of the items the scanner builds, given for the item of a
    sub-directory, holds of every node of every scan. *)
Lemma scan_nodes_all (Q : NavigationItem -> Prop) :
  (forall name fullPath routePath node sub x,
      In x (outcome (itemsOfDirectory localeCompare windowDefined name fullPath
                       routePath node sub)) -> Q x) ->
  forall dir dirPath basePath,
    Forall Q (nodesOf (outcome (scanDirectory localeCompare windowDefined dir
                                  dirPath basePath))).
Proof.
  intros HQ.
  induction dir as [content | listable entries IH] using FsNode_tree_ind;
    intros dirPath basePath.
  - rewrite outcome_not_listable by discriminate. constructor.
  - destruct listable;
      [|rewrite outcome_not_listable by discriminate; constructor].
    apply Forall_forall. intros n Hn.
    apply scan_nodes_cases in Hn as [name [node [x [He [Hx Hn]]]]].
    destruct Hn as [-> | [_ Hn]]; [eapply HQ; eassumption|].
    rewrite Forall_forall in IH. specialize (IH _ He). cbn [snd] in IH.
    specialize (IH (joinPath dirPath name) (basePath ++ "/" ++ name)%string).
    rewrite Forall_forall in IH. now apply IH.
Qed.

(** The descendants of a scanned node have routes below the route of the
    node, unless the node is the site root. *)
Lemma scan_descendants_below (dir : FsNode) :
  forall dirPath basePath,
    Forall (fun n =>
              href n = "/" \/
              forall c, In c (descendants n) ->
                exists rest, href c = (href n ++ "/" ++ rest)%string)
           (nodesOf (outcome (scanDirectory localeCompare windowDefined dir
                                dirPath basePath))).
Proof.
  induction dir as [content | listable entries IH] using FsNode_tree_ind;
    intros dirPath basePath.
  - rewrite outcome_not_listable by discriminate. constructor.
  - destruct listable;
      [|rewrite outcome_not_listable by discriminate; constructor].
    apply Forall_forall. intros n Hn.
    apply scan_nodes_cases in Hn as [name [node [x [He [Hx Hn]]]]].
    destruct Hn as [-> | [_ Hn]].
    + destruct (itemsOfDirectory_shape _ _ _ _ _ _ _ _ Hx) as [Hh _].
      destruct Hh as [Hh | [_ Hh]]; [right | now left].
      intros c Hc. apply (descendants_of_item _ _ _ _ _ _ _ Hx) in Hc.
      pose proof (scan_routes localeCompare windowDefined node
                    (joinPath dirPath name) (basePath ++ "/" ++ name)%string)
        as Hroutes.
      rewrite Forall_forall in Hroutes.
      destruct (Hroutes c Hc) as [rest [Hr | [Hp _]]].
      * exists rest. now rewrite Hh.
      * now apply nested_route_not_page in Hp.
    + rewrite Forall_forall in IH. specialize (IH _ He). cbn [snd] in IH.
      specialize (IH (joinPath dirPath name) (basePath ++ "/" ++ name)%string).
      rewrite Forall_forall in IH. now apply IH.
Qed.
End ScanNodes.

(** X17.  The nodes [scanDirectory] builds, at every depth: no node has an
    icon or an expansion state; the [children] of a node are absent or a
    non-empty array, never an empty one; and the children of every node, as
    the items of the scan itself, are in display order (ascending priority,
    and by [order] inside the 999 bucket). *)
Theorem scanDirectory_node_shape
  (localeCompare : string -> string -> Z) (windowDefined : bool)
  (dir : FsNode) (dirPath basePath : string) :
  StronglySorted displayBefore
    (outcome (scanDirectory localeCompare windowDefined dir dirPath basePath)) /\
  Forall (fun n =>
            icon n = None /\ isExpanded n = None /\
            children n <> Some [] /\
            forall cs, children n = Some cs -> StronglySorted displayBefore cs)
         (nodesOf (outcome (scanDirectory localeCompare windowDefined dir
                              dirPath basePath))).
Proof.
  split.
  - destruct dir as [content | [|] entries];
      [constructor | | constructor].
    rewrite (proj1 (scanDirectory_listable_flat localeCompare windowDefined
                      entries dirPath basePath)).
    apply sorted_display.
  - apply scan_nodes_all.
    intros name fullPath routePath node sub x Hx.
    destruct (itemsOfDirectory_shape _ _ _ _ _ _ _ _ Hx) as [_ [Hi [He Hc]]].
    split; [exact Hi|]. split; [exact He|]. rewrite Hc.
    destruct sub as [|y sub]; cbn [List.length Nat.ltb Nat.leb].
    + split; [discriminate | intros cs H; discriminate].
    + split.
      * intros H. injection H as H.
        now apply (sorted_nonempty localeCompare (y :: sub)) in H.
      * intros cs H. injection H as <-.
        apply (sorted_display localeCompare (y :: sub)).
Qed.

(** X18.  In a scanned tree the descendants of a node lie below its route:
    for every node of the result of [scanDirectory] other than the site
    root "/", the route of each of its descendants is the route of the
    node, a slash, and more. *)
Theorem scanDirectory_descendants_below_route
  (localeCompare : string -> string -> Z) (windowDefined : bool)
  (dir : FsNode) (dirPath basePath : string) :
  Forall (fun n =>
            href n = "/" \/
            forall c, In c (descendants n) ->
              exists rest, href c = (href n ++ "/" ++ rest)%string)
         (nodesOf (outcome (scanDirectory localeCompare windowDefined dir
                              dirPath basePath))).
Proof. apply scan_descendants_below. Qed.

Lemma onPath_below (location : string) (n c : NavigationItem) (rest : string) :
  href c = (href n ++ "/" ++ rest)%string ->
  onPath location c -> onPath location n.
Proof.
  intros Hc [H | [r H]]; right.
  - exists rest. now rewrite <- H, Hc.
  - exists (rest ++ "/" ++ r)%string. rewrite H, Hc.
    now rewrite !append_assoc.
Qed.

(** X19.  On a scanned tree the recursion of [isPathInSubtree] into the
    children adds nothing: for every node of the result of [scanDirectory]
    other than the site root, [isPathInSubtree] is true exactly when the
    location is the route of the node or starts with the route followed by
    a slash. *)
Theorem isPathInSubtree_on_scanned_tree
  (localeCompare : string -> string -> Z) (windowDefined : bool)
  (dir : FsNode) (dirPath basePath : string) :
  Forall (fun n =>
            href n = "/" \/
            forall location,
              isPathInSubtree location n
              = String.eqb location (href n)
                || JS.startsWith location (href n ++ "/")%string)
         (nodesOf (outcome (scanDirectory localeCompare windowDefined dir
                              dirPath basePath))).
Proof.
  eapply Forall_impl; [|apply scan_descendants_below].
  intros n [Hroot | Hbelow]; [now left | right]. intros location.
  apply eq_true_iff_eq. rewrite onPath_tests, isPathInSubtree_shouldExpand.
  unfold shouldExpand. split; [|now left].
  intros [H | [d [Hd Hon]]]; [exact H|].
  destruct (Hbelow d Hd) as [rest Hrest].
  now apply (onPath_below location n d rest).
Qed.

Lemma flat_map_filter_nil {A B} (f : A -> list B) (p : A -> bool) (l : list A) :
  (forall x, p x = false -> f x = []) ->
  flat_map f (filter p l) = flat_map f l.
Proof.
  intros H. induction l as [|x l IH]; [reflexivity|].
  cbn [filter flat_map]. destruct (p x) eqn:E.
  - cbn [flat_map]. now rewrite IH.
  - now rewrite (H x E), IH.
Qed.

(** X20.  Only the sub-directories that are not skipped count for a scan:
    [scanDirectory] returns the same items and writes the same lines for a
    directory as for the directory without its files and without its
    entries that are skipped (a name that starts with a dot, globals.css,
    favicon.ico, layout.tsx).  A directory that holds nothing else has no
    items. *)
Theorem scanDirectory_ignores_files_and_skipped
  (localeCompare : string -> string -> Z) (windowDefined : bool)
  (entries : list (string * FsNode)) (dirPath basePath : string)
  (log : Console) :
  scanDirectory localeCompare windowDefined (FsDir true entries)
    dirPath basePath log
  = scanDirectory localeCompare windowDefined
      (FsDir true
         (filter (fun '(name, node) =>
                    negb (skippedEntry name) && isDirectory node) entries))
      dirPath basePath log /\
  (forallb (fun '(name, node) => skippedEntry name || negb (isDirectory node))
           entries = true ->
   scanDirectory localeCompare windowDefined (FsDir true entries)
     dirPath basePath log = (Ok [], log)).
Proof.
  rewrite !(scanDirectory_steady localeCompare windowDefined).
  destruct (scanDirectory_listable_flat localeCompare windowDefined entries
              dirPath basePath) as [-> ->].
  destruct (scanDirectory_listable_flat localeCompare windowDefined
              (filter (fun '(name, node) =>
                         negb (skippedEntry name) && isDirectory node) entries)
              dirPath basePath) as [-> ->].
  split.
  - rewrite !flat_map_filter_nil; [reflexivity| |].
    + intros [name node] H. cbn [entryLines].
      destruct (skippedEntry name), (isDirectory node);
        try discriminate; reflexivity.
    + intros [name node] H. cbn [entryItems].
      destruct (skippedEntry name), (isDirectory node);
        try discriminate; reflexivity.
  - intros Hall.
    assert (Hitems : forall es,
               forallb (fun '(name, node) =>
                          skippedEntry name || negb (isDirectory node)) es
               = true ->
               flat_map (entryItems localeCompare windowDefined dirPath
                           basePath) es = []).
    { induction es as [|[name node] es IH]; [reflexivity|].
      cbn [forallb]. intros H. apply andb_true_iff in H as [He H].
      cbn [flat_map entryItems]. rewrite He. now apply IH. }
    assert (Hlines : forall es,
               forallb (fun '(name, node) =>
                          skippedEntry name || negb (isDirectory node)) es
               = true ->
               flat_map (entryLines localeCompare windowDefined dirPath
                           basePath) es = []).
    { induction es as [|[name node] es IH]; [reflexivity|].
      cbn [forallb]. intros H. apply andb_true_iff in H as [He H].
      cbn [flat_map entryLines]. rewrite He. now apply IH. }
    rewrite (Hitems _ Hall), (Hlines _ Hall), app_nil_r. reflexivity.
Qed.

(** The scan of a directory whose directories can all be listed writes
    nothing. *)
Lemma listableTree_quiet (localeCompare : string -> string -> Z)
  (windowDefined : bool) (node : FsNode) :
  isDirectory node = true -> listableTree node = true ->
  forall dirPath basePath,
    written (scanDirectory localeCompare windowDefined node dirPath basePath)
    = [].
Proof.
  induction node as [content | listable entries IH] using FsNode_tree_ind;
    [discriminate|].
  intros _ Hl dirPath basePath. cbn [listableTree] in Hl.
  apply andb_true_iff in Hl as [-> Hall].
  rewrite (proj2 (scanDirectory_listable_flat localeCompare windowDefined
                    entries dirPath basePath)).
  induction IH as [|[name node] entries Hnode _ IHentries]; [reflexivity|].
  cbn [forallb] in Hall. apply andb_true_iff in Hall as [Hn Hall].
  cbn [flat_map entryLines]. rewrite (IHentries Hall), app_nil_r.
  destruct (skippedEntry name); [reflexivity|]. cbn [orb].
  destruct (isDirectory node) eqn:Ed; [|reflexivity]. cbn [negb].
  now apply Hnode.
Qed.

(** X21.  [scanDirectory] logs only for directories it fails to list: the
    scan of a directory tree in which every directory can be listed returns
    its items and leaves the console as it was. *)
Theorem scanDirectory_quiet_on_listable_tree
  (localeCompare : string -> string -> Z) (windowDefined : bool)
  (listable : bool) (entries : list (string * FsNode))
  (dirPath basePath : string) (log : Console) :
  listableTree (FsDir listable entries) = true ->
  snd (scanDirectory localeCompare windowDefined (FsDir listable entries)
         dirPath basePath log) = log.
Proof.
  intros Hl. rewrite (scanDirectory_steady localeCompare windowDefined).
  cbn [snd].
  rewrite (listableTree_quiet localeCompare windowDefined
             (FsDir listable entries) eq_refl Hl).
  apply app_nil_r.
Qed.

(** X21 at the tree of the scenario of the specification. *)
Lemma scanDirectory_quiet_on_listable_tree_witness :
  listableTree sampleTree = true /\
  snd (scanDirectory codeUnitCompare false sampleTree "src/app" ""
         ["earlier line"]) = ["earlier line"].
Proof.
  split; [reflexivity|].
  apply (scanDirectory_quiet_on_listable_tree codeUnitCompare false true
           [ ("layout.tsx", FsFile (Some ""));
             ("fund-intro", FsDir true [ pageTsx ]);
             ("db-storage",
              FsDir true [ pageTsx; ("sub-topic", FsDir true [ pageTsx ]) ]) ]
           "src/app" "" ["earlier line"]).
  reflexivity.
Defined.

(** ** Building the navigation *)

Lemma StronglySorted_filter {A} (R : A -> A -> Prop) (p : A -> bool)
  (l : list A) :
  StronglySorted R l -> StronglySorted R (filter p l).
Proof.
  induction 1 as [|x l Hl IH Hx]; cbn [filter]; [constructor|].
  destruct (p x); [|exact IH].
  constructor; [exact IH|].
  rewrite Forall_forall in *. intros y Hy. apply Hx.
  now apply filter_In in Hy as [Hy _].
Qed.

Lemma buildNavigationFromFileSystem_eq
  (localeCompare : string -> string -> Z) (windowDefined : bool)
  (fallbackNav : list NavigationSection) (cwd : exn string) (appDir : FsNode)
  (log : Console) :
  buildNavigationFromFileSystem localeCompare windowDefined fallbackNav cwd
    appDir log
  = if windowDefined then (Ok fallbackNav, log)
    else
      match cwd with
      | Throw _ => (Ok fallbackNav, log)
      | Ok cwdPath =>
          (Ok (partitionSections
                 (outcome (scanDirectory localeCompare false appDir
                             (joinPath cwdPath "src/app") ""))),
           log ++ written (scanDirectory localeCompare false appDir
                             (joinPath cwdPath "src/app") ""))
      end.
Proof.
  unfold buildNavigationFromFileSystem.
  destruct windowDefined; [reflexivity|].
  destruct cwd as [cwdPath | error]; [|reflexivity].
  unfold scan_try, scan_bind, scan_lift, scan_ret.
  rewrite (scanDirectory_steady localeCompare false).
  now rewrite categorizeNavigationItems_eq.
Qed.

(** X22.  [buildNavigationFromFileSystem] never throws.  It returns the
    fallback navigation in a context with a [window], and on the server
    when [process.cwd()] throws.  Once [process.cwd()] has returned, the
    [catch] is not taken, since neither the scan nor the categorizer throws:
    the result is the sections of the scanned items, and when the
    application directory is missing or cannot be listed the result is the
    empty list of sections with one logged line, not the fallback
    navigation. *)
Theorem buildNavigationFromFileSystem_fallback_cases
  (localeCompare : string -> string -> Z)
  (fallbackNav : list NavigationSection) (cwd : exn string) (appDir : FsNode)
  (log : Console) :
  (forall windowDefined,
     exists sections log',
       buildNavigationFromFileSystem localeCompare windowDefined fallbackNav
         cwd appDir log = (Ok sections, log')) /\
  buildNavigationFromFileSystem localeCompare true fallbackNav cwd appDir log
  = (Ok fallbackNav, log) /\
  (forall error,
     buildNavigationFromFileSystem localeCompare false fallbackNav
       (Throw error) appDir log
     = (Ok fallbackNav, log)) /\
  (forall cwdPath,
     exists sections,
       buildNavigationFromFileSystem localeCompare false fallbackNav
         (Ok cwdPath) appDir log
       = (Ok sections,
          log ++ written (scanDirectory localeCompare false appDir
                            (joinPath cwdPath "src/app") "")) /\
       categorizeNavigationItems
         (outcome (scanDirectory localeCompare false appDir
                     (joinPath cwdPath "src/app") ""))
       = Ok sections) /\
  (forall cwdPath content,
     appDir = FsFile content ->
     buildNavigationFromFileSystem localeCompare false fallbackNav
       (Ok cwdPath) appDir log
     = (Ok [],
        log ++ [("Error scanning directory: " ++ joinPath cwdPath "src/app"
                 ++ " ENOTDIR")%string])) /\
  (forall cwdPath entries,
     appDir = FsDir false entries ->
     buildNavigationFromFileSystem localeCompare false fallbackNav
       (Ok cwdPath) appDir log
     = (Ok [],
        log ++ [("Error scanning directory: " ++ joinPath cwdPath "src/app"
                 ++ " EACCES")%string])).
Proof.
  split.
  { intros windowDefined. rewrite buildNavigationFromFileSystem_eq.
    destruct windowDefined; [eexists; eexists; reflexivity|].
    destruct cwd; eexists; eexists; reflexivity. }
  split; [apply buildNavigationFromFileSystem_eq|].
  split; [intros error; apply buildNavigationFromFileSystem_eq|].
  split.
  { intros cwdPath.
    exists (partitionSections
              (outcome (scanDirectory localeCompare false appDir
                          (joinPath cwdPath "src/app") ""))).
    split; [now rewrite buildNavigationFromFileSystem_eq|].
    apply categorizeNavigationItems_eq. }
  split.
  - intros cwdPath content ->. now rewrite buildNavigationFromFileSystem_eq.
  - intros cwdPath entries ->. now rewrite buildNavigationFromFileSystem_eq.
Qed.

(** X23.  The navigation built on the server once [process.cwd()] has
    returned: its sections hold the top-level items of the scan, each once
    (their item lists together are a rearrangement of the scanned items);
    every section lists its items in display order, since the categorizer
    keeps the order of the sorted scan; and every route in it, at any
    depth, starts with a slash.  (When [process.cwd()] throws the result is
    the fallback navigation, of which nothing is known.) *)
Theorem buildNavigationFromFileSystem_sections
  (localeCompare : string -> string -> Z)
  (fallbackNav : list NavigationSection) (cwdPath : string) (appDir : FsNode)
  (log : Console) :
  exists sections,
    fst (buildNavigationFromFileSystem localeCompare false fallbackNav
           (Ok cwdPath) appDir log) = Ok sections /\
    Permutation (concat (map items sections))
                (outcome (scanDirectory localeCompare false appDir
                            (joinPath cwdPath "src/app") "")) /\
    Forall (fun s => StronglySorted displayBefore (items s)) sections /\
    Forall (fun n => JS.startsWith (href n) "/" = true) (allNodes sections).
Proof.
  exists (partitionSections
            (outcome (scanDirectory localeCompare false appDir
                        (joinPath cwdPath "src/app") ""))).
  split; [now rewrite buildNavigationFromFileSystem_eq|].
  set (scanned := outcome (scanDirectory localeCompare false appDir
                             (joinPath cwdPath "src/app") "")).
  assert (Hsorted : StronglySorted displayBefore scanned).
  { unfold scanned. destruct appDir as [content | [|] entries];
      [constructor | | constructor].
    rewrite (proj1 (scanDirectory_listable_flat localeCompare false entries
                      (joinPath cwdPath "src/app") "")).
    apply sorted_display. }
  split.
  { unfold partitionSections. rewrite concat_items_nonempty, map_map.
    apply (classes_perm categorizeItem sectionKeys sectionKeys_NoDup).
    intros x _. apply categorizeItem_key. }
  split.
  - apply Forall_forall. intros s Hs.
    apply partitionSections_In in Hs as [_ [key [_ ->]]].
    cbn [items sectionFor]. unfold assignedTo.
    now apply StronglySorted_filter.
  - apply Forall_forall. intros n Hn. unfold allNodes in Hn.
    apply in_flat_map in Hn as [s [Hs Hn]].
    apply in_flat_map in Hn as [item [Hitem Hn]].
    apply partitionSections_In in Hs as [_ [key [_ ->]]].
    cbn [items sectionFor] in Hitem. unfold assignedTo in Hitem.
    apply filter_In in Hitem as [Hitem _].
    pose proof (scan_routes localeCompare false appDir
                  (joinPath cwdPath "src/app") "") as Hroutes.
    rewrite Forall_forall in Hroutes.
    assert (Hin : In n (nodesOf scanned))
      by (unfold nodesOf; apply in_flat_map; now exists item).
    destruct (Hroutes n Hin) as [rest [H | [_ H]]]; rewrite H; reflexivity.
Qed.

(** ** Further facts on keywords, page files and titles *)

Lemma includes_iff (s t : string) :
  JS.includes s t = true <-> exists a b, s = (a ++ t ++ b)%string.
Proof.
  split.
  - induction s as [|c s IH]; simpl.
    + rewrite orb_false_r. intros H. apply startsWith_iff in H as [rest ->].
      now exists EmptyString, rest.
    + intros H. apply orb_true_iff in H as [H | H].
      * apply startsWith_iff in H as [rest ->]. now exists EmptyString, rest.
      * destruct (IH H) as [a [b ->]]. now exists (String c a), b.
  - intros [a [b ->]]. induction a as [|c a IH].
    + assert (H : JS.startsWith (t ++ b) t = true)
        by (apply startsWith_iff; now exists b).
      cbn [String.append]. destruct (t ++ b)%string; simpl; now rewrite H.
    + cbn [String.append]. simpl. rewrite IH. apply orb_true_r.
Qed.

Lemma includes_trans (s t u : string) :
  JS.includes s t = true -> JS.includes t u = true -> JS.includes s u = true.
Proof.
  intros Hst Htu. apply includes_iff in Hst as [a [b ->]].
  apply includes_iff in Htu as [a' [b' ->]].
  apply includes_iff. exists (a ++ a')%string, (b' ++ b)%string.
  now rewrite !append_assoc.
Qed.

Lemma includes_nosql_sql (s : string) :
  JS.includes s "nosql" = true -> JS.includes s "sql" = true.
Proof. intros H. now apply (includes_trans s "nosql" "sql"). Qed.

Lemma categoryOfSegments_none (segments : list string) :
  Forall (fun s => category (extractCategoryFromPath s) = None) segments ->
  categoryOfSegments (map JS.toLowerCase segments) = None.
Proof.
  induction 1 as [|s l Hs _ IH]; [reflexivity|].
  cbn [map categoryOfSegments]. now rewrite category_lower, Hs.
Qed.

(** The keyword rules with "sql" in the route or in the title. *)
Lemma keywords_with_sql (path title : string) :
  JS.includes path "sql" = true \/ JS.includes title "sql" = true ->
  (keywordsForPage path title = "fundamentals" \/
   keywordsForPage path title = "sql") /\
  (keywordsWithChildren path title = Some "advanced" \/
   keywordsWithChildren path title = Some "sql").
Proof.
  intros H.
  assert (Hsql : JS.includes path "mysql" || JS.includes path "postgresql"
                 || JS.includes path "sqlite" || JS.includes path "sql"
                 || JS.includes title "mysql" || JS.includes title "postgresql"
                 || JS.includes title "sqlite" || JS.includes title "sql"
                 = true).
  { destruct H as [H | H]; rewrite H;
      repeat (rewrite orb_true_r || rewrite orb_true_l); reflexivity. }
  unfold keywordsForPage, keywordsWithChildren. cbv zeta. rewrite Hsql. split.
  - match goal with |- context [if ?b then _ else _] => destruct b end;
      [now left | now right].
  - match goal with |- context [if ?b then _ else _] => destruct b end;
      [now left | now right].
Qed.

(** X24.  The keyword "nosql" never files an item under NoSQL: for an item
    whose route has no segment with a category code and whose lower-cased
    route or title contains "nosql", [categorizeItem] answers "sql",
    "fundamentals" or "advanced", because the rule for "sql" is tested
    before the rule for "nosql" and matches every text that contains
    "nosql". *)
Theorem categorizeItem_nosql_keyword_is_shadowed (item : NavigationItem) :
  Forall (fun s => category (extractCategoryFromPath s) = None)
         (pathSegments (href item)) ->
  JS.includes (JS.toLowerCase (href item)) "nosql" = true \/
  JS.includes (JS.toLowerCase (title item)) "nosql" = true ->
  categorizeItem item = "sql" \/ categorizeItem item = "fundamentals" \/
  categorizeItem item = "advanced".
Proof.
  intros Hnone Hnosql. unfold categorizeItem.
  rewrite pathSegments_lower, (categoryOfSegments_none _ Hnone).
  assert (Hsql : JS.includes (JS.toLowerCase (href item)) "sql" = true \/
                 JS.includes (JS.toLowerCase (title item)) "sql" = true)
    by (destruct Hnosql as [H | H]; [left | right];
        now apply includes_nosql_sql).
  destruct (keywords_with_sql _ _ Hsql) as [Hpage Hgroup].
  destruct (hasChildren item).
  - destruct Hgroup as [-> | ->]; tauto.
  - destruct Hpage as [-> | ->]; tauto.
Qed.

(** X24 at a page titled "NoSQL Basics" under "/stores/document-stores":
    no segment has a code, the title contains "nosql". *)
Lemma categorizeItem_nosql_keyword_is_shadowed_witness :
  Forall (fun s => category (extractCategoryFromPath s) = None)
         (pathSegments "/stores/document-stores") /\
  JS.includes (JS.toLowerCase "NoSQL Basics") "nosql" = true /\
  (categorizeItem (page "NoSQL Basics" "/stores/document-stores" None) = "sql" \/
   categorizeItem (page "NoSQL Basics" "/stores/document-stores" None)
   = "fundamentals" \/
   categorizeItem (page "NoSQL Basics" "/stores/document-stores" None)
   = "advanced").
Proof.
  split; [repeat constructor|]. split; [reflexivity|].
  apply (categorizeItem_nosql_keyword_is_shadowed
           (page "NoSQL Basics" "/stores/document-stores" None)).
  - repeat constructor.
  - right. reflexivity.
Defined.

(** X25.  The first page file found decides: when a directory has
    [page.tsx], the item [scanDirectory] builds for it reads its metadata
    from [page.tsx] alone, so two directories that both have [page.tsx]
    with the same result of reading it give the same item, whatever their
    [page.mdx] and [page.js] hold. *)
Theorem itemsOfDirectory_reads_first_page_file
  (localeCompare : string -> string -> Z) (windowDefined : bool)
  (name fullPath routePath : string) (node node' : FsNode)
  (sub : list NavigationItem) :
  existsSync node "page.tsx" = true ->
  existsSync node' "page.tsx" = true ->
  readFileSync node "page.tsx" = readFileSync node' "page.tsx" ->
  itemsOfDirectory localeCompare windowDefined name fullPath routePath node sub
  = itemsOfDirectory localeCompare windowDefined name fullPath routePath
      node' sub.
Proof.
  intros He He' Hread.
  unfold itemsOfDirectory, pageFiles. cbn [existsb find].
  rewrite He, He'. cbn [orb].
  unfold readMDXMetadata, readMDXMetadata_body. now rewrite Hread.
Qed.

(** X25 at a directory with [page.tsx] and one that also has a [page.mdx]
    with a title and an order: the front matter of [page.mdx] is not
    read. *)
Lemma itemsOfDirectory_reads_first_page_file_witness :
  existsSync dirWithTsxAndMdx "page.tsx" = true /\
  existsSync dirWithTsx "page.tsx" = true /\
  readFileSync dirWithTsxAndMdx "page.tsx" = readFileSync dirWithTsx "page.tsx" /\
  itemsOfDirectory codeUnitCompare false "db-storage" "src/app/db-storage"
    "/db-storage" dirWithTsxAndMdx []
  = itemsOfDirectory codeUnitCompare false "db-storage" "src/app/db-storage"
      "/db-storage" dirWithTsx [].
Proof.
  split; [reflexivity|]. split; [reflexivity|]. split; [reflexivity|].
  apply (itemsOfDirectory_reads_first_page_file codeUnitCompare false
           "db-storage" "src/app/db-storage" "/db-storage"
           dirWithTsxAndMdx dirWithTsx []); reflexivity.
Defined.

(** X26.  A title [toSmartTitleCase] formats starts with a capitalised
    character: outside the two early returns (a name that starts with "use"
    and not with "user", and the name "jQuery") capitalising the title
    changes nothing, even when the first word is a minor word. *)
Theorem toSmartTitleCase_starts_capitalised (str : string) :
  useException (cleanName (extractCategoryFromPath str)) = true \/
  cleanName (extractCategoryFromPath str) = "jQuery" \/
  capitalize (toSmartTitleCase str) = toSmartTitleCase str.
Proof.
  unfold toSmartTitleCase.
  destruct (useException _); [now left | right].
  destruct (String.eqb _ "jQuery") eqn:E.
  - left. now apply String.eqb_eq.
  - right.
    apply (titled_tokens_shape (cleanName (extractCategoryFromPath str))).
Qed.
